(** * finance-ai dashboard: valuation, targets, live merge, stream channel, P&L chart

    A shallow embedding of the dashboard's real-time core:

    - [position-card.js]   getters [marketCurrency], [pnlData], [alertType],
                           [markerPosition], [entryPosition], [tp1Position],
                           [priceChange], and the intraday [_drawChart];
    - [portfolio-page.js]  the live-price merge of [_fetchLivePrices] and of
                           the [onmessage] handler of [_connectPriceStream],
                           [_updateStatsFromPositions], the life cycle of the
                           price stream, [_getTickerCurrency],
                           [_convertToDisplayCurrency], [filteredPositions]
                           and the request of [_fetchLivePrices];
    - [sse-client.js]      class [SSEClient] (constructor, [connect],
                           [_createEventSource] with its three handlers,
                           [close]) and class [SSEManager];
    - [portfolio-chart]    [_drawPnlChart], [_changeTimeRange],
                           [_updateMinMax], [_drawLineWithRange], [_drawLine]
                           and the branch ['value'] of [_drawChart].

    JavaScript numbers are modelled as exact rationals extended with
    [Infinity], [-Infinity] and [NaN]: rounding and the sign of zero are
    abstracted away, everything else (propagation of [NaN], truthiness, the
    results of dividing by zero, comparisons with [NaN]) follows the
    language.  Numeric fields that arrive through JSON are finite numbers or
    absent, hence [option Q]; [null], strings and booleans in a numeric
    field are outside the data model.

    Each part comes as a module of definitions that follows the source,
    and, further down, a module of facts about it. *)

From Stdlib Require Import QArith Qminmax Lqa ZArith Lia List String Bool.
From stdpp Require Import gmap strings.

Local Open Scope Q_scope.

(* ================================================================== *)
(** ** JavaScript numbers and values *)
(* ================================================================== *)

Module JSNum.

Inductive num : Type :=
| Fin (q : Q)
| PInf
| NInf
| NaN.

Declare Scope js_scope.
Delimit Scope js_scope with js.
Bind Scope js_scope with num.

(** Equality of numbers as mathematical values ([Q] is a setoid). *)
Definition num_eq (a b : num) : Prop :=
  match a, b with
  | Fin x, Fin y => x == y
  | PInf, PInf => True
  | NInf, NInf => True
  | NaN, NaN => True
  | _, _ => False
  end.

Infix "=n=" := num_eq (at level 70, no associativity).

Definition Qlt_bool (a b : Q) : bool := negb (Qle_bool b a).

Definition inf_of_sign (c : comparison) : num :=
  match c with
  | Gt => PInf
  | Lt => NInf
  | Eq => NaN
  end.

Definition neg (a : num) : num :=
  match a with
  | Fin q => Fin (- q)
  | PInf => NInf
  | NInf => PInf
  | NaN => NaN
  end.

Definition add (a b : num) : num :=
  match a, b with
  | NaN, _ | _, NaN => NaN
  | Fin x, Fin y => Fin (x + y)
  | PInf, NInf | NInf, PInf => NaN
  | PInf, _ | _, PInf => PInf
  | NInf, _ | _, NInf => NInf
  end.

Definition sub (a b : num) : num := add a (neg b).

Definition mul (a b : num) : num :=
  match a, b with
  | NaN, _ | _, NaN => NaN
  | Fin x, Fin y => Fin (x * y)
  | Fin x, PInf | PInf, Fin x => inf_of_sign (x ?= 0)
  | Fin x, NInf | NInf, Fin x => inf_of_sign (0 ?= x)
  | PInf, PInf | NInf, NInf => PInf
  | PInf, NInf | NInf, PInf => NInf
  end.

(** Division: a finite number divided by zero is an infinity of the sign of
    the dividend, [0/0] is [NaN] (the zero is taken as [+0]). *)
Definition div (a b : num) : num :=
  match a, b with
  | NaN, _ | _, NaN => NaN
  | Fin x, Fin y =>
      if Qeq_bool y 0 then inf_of_sign (x ?= 0) else Fin (x / y)
  | Fin _, PInf | Fin _, NInf => Fin 0
  | PInf, Fin y => if Qle_bool 0 y then PInf else NInf
  | NInf, Fin y => if Qle_bool 0 y then NInf else PInf
  | _, _ => NaN
  end.

(** [a <= b], [a < b]; any comparison with [NaN] is false. *)
Definition leb (a b : num) : bool :=
  match a, b with
  | NaN, _ | _, NaN => false
  | Fin x, Fin y => Qle_bool x y
  | NInf, _ => true
  | _, PInf => true
  | _, _ => false
  end.

Definition ltb (a b : num) : bool :=
  match a, b with
  | NaN, _ | _, NaN => false
  | Fin x, Fin y => Qlt_bool x y
  | NInf, NInf => false
  | NInf, _ => true
  | PInf, PInf => false
  | _, PInf => true
  | _, _ => false
  end.

Definition geb (a b : num) : bool := leb b a.
Definition gtb (a b : num) : bool := ltb b a.

(** [Math.max] and [Math.min] of two arguments. *)
Definition max (a b : num) : num :=
  match a, b with
  | NaN, _ | _, NaN => NaN
  | _, _ => if leb a b then b else a
  end.

Definition min (a b : num) : num :=
  match a, b with
  | NaN, _ | _, NaN => NaN
  | _, _ => if leb a b then a else b
  end.

(** Truthiness of a number: [0] and [NaN] are falsy. *)
Definition truthy (a : num) : bool :=
  match a with
  | Fin q => negb (Qeq_bool q 0)
  | PInf | NInf => true
  | NaN => false
  end.

Definition is_finite (a : num) : Prop :=
  match a with
  | Fin _ => True
  | _ => False
  end.

Notation "a + b" := (add a b) : js_scope.
Notation "a - b" := (sub a b) : js_scope.
Notation "a * b" := (mul a b) : js_scope.
Notation "a / b" := (div a b) : js_scope.
Notation "a <=? b" := (leb a b) (at level 70) : js_scope.
Notation "a <? b" := (ltb a b) (at level 70) : js_scope.
Notation "a >=? b" := (geb a b) (at level 70) : js_scope.
Notation "a >? b" := (gtb a b) (at level 70) : js_scope.

(** A property read from an object: [undefined] when absent. *)
Inductive value : Type :=
| Undefined
| Number (n : num).

Definition get (f : option Q) : value :=
  match f with
  | Some q => Number (Fin q)
  | None => Undefined
  end.

Definition toNumber (v : value) : num :=
  match v with
  | Undefined => NaN
  | Number n => n
  end.

Definition truthyV (v : value) : bool :=
  match v with
  | Undefined => false
  | Number n => truthy n
  end.

(** [a || b] on values, and [a || d] with a numeric default. *)
Definition or (a b : value) : value := if truthyV a then a else b.

Definition orNum (a : value) (d : num) : num :=
  if truthyV a then toNumber a else d.

(** [v !== undefined] *)
Definition defined (v : value) : bool :=
  match v with
  | Undefined => false
  | Number _ => true
  end.

End JSNum.

Import JSNum.

(* ================================================================== *)
(** ** Data model: positions and live ticks *)
(* ================================================================== *)

(** The per-position P&L block a tick may carry ([liveData.pnl]). *)
Module Tick.

Record Pnl : Type := mkPnl {
  pnl_net : option Q;
  pnl_percent : option Q;
  pnl_gross : option Q;
  current_value : option Q;
  invested : option Q;
  commission_native : option Q
}.

Record LiveData : Type := mkLiveData {
  price : option Q;
  change : option Q;
  change_percent : option Q;
  high : option Q;
  low : option Q;
  pnl : option Pnl
}.

(** The empty object of [p.live_data || {}]. *)
Definition empty : LiveData := mkLiveData None None None None None None.

End Tick.

Module Model.

Inductive Status : Type := open | closed | stopped.

Definition Status_eqb (a b : Status) : bool :=
  match a, b with
  | open, open | closed, closed | stopped, stopped => true
  | _, _ => false
  end.

Record Position : Type := mkPosition {
  ticker : string;
  status : Status;
  entry_price : option Q;
  quantity : option Q;
  buy_commission : option Q;
  sell_commission : option Q;
  exit_price : option Q;
  stop_loss : option Q;
  take_profit_1 : option Q;
  take_profit_2 : option Q;
  (* live fields, written by the merge *)
  current_price : option Q;
  live_data : option Tick.LiveData;
  pnl_value : option Q;
  pnl_percent : option Q;
  pnl_gross : option Q;
  current_value : option Q;
  invested : option Q
}.

End Model.

Import Model.

(* ================================================================== *)
(** ** position-card.js *)
(* ================================================================== *)

Module PositionCard.

Inductive Currency : Type := USD | EUR | CHF | GBP.

Definition endsWith (s suffix : string) : bool :=
  let n := String.length s in
  let m := String.length suffix in
  (m <=? n)%nat && String.eqb (substring (n - m) m s) suffix.

Definition marketCurrency (p : Position) : Currency :=
  let ticker := ticker p in
  if endsWith ticker ".SW" || endsWith ticker ".VX" then CHF
  else if endsWith ticker ".PA" || endsWith ticker ".DE"
          || endsWith ticker ".AS" then EUR
  else if endsWith ticker ".L" then GBP
  else USD.

(** [static CHF_RATES]: CHF to market currency, approximate. *)
Definition CHF_RATES (c : Currency) : value :=
  match c with
  | USD => Number (Fin (113 # 100))
  | EUR => Number (Fin (105 # 100))
  | GBP => Number (Fin (89 # 100))
  | CHF => Number (Fin 1)
  end.

Record PnlData : Type := mkPnlData {
  value : num;
  percent : num;
  gross : num;
  fees : num;
  isProfit : bool;
  currentPrice : num;
  invested : num;
  currentValue : num
}.

Definition liveData_of (p : Position) : Tick.LiveData :=
  match live_data p with
  | Some ld => ld
  | None => Tick.empty
  end.

(** [liveData.price || p.current_price || p.exit_price || p.entry_price || 0] *)
Definition resolvedPrice (p : Position) : num :=
  orNum (or (get (Tick.price (liveData_of p)))
            (or (get (current_price p))
                (or (get (exit_price p)) (get (entry_price p)))))
        (Fin 0).

(** The fee figure of [pnlData]: the tick's [commission_native] when the tick
    has a [pnl] block that defines it, else the ledger commission times
    [CHF_RATES[marketCurrency]]. *)
Definition totalFees_of (p : Position) : num :=
  let liveData := liveData_of p in
  let buyComm := orNum (get (buy_commission p)) (Fin 0) in
  let sellComm := orNum (get (sell_commission p)) (Fin 0) in
  let totalFeesChf := (buyComm + sellComm)%js in
  match Tick.pnl liveData with
  | Some pnl =>
      if defined (get (Tick.commission_native pnl))
      then toNumber (get (Tick.commission_native pnl))
      else
        let rate := orNum (CHF_RATES (marketCurrency p)) (Fin 1) in
        (totalFeesChf * rate)%js
  | None =>
      let rate := orNum (CHF_RATES (marketCurrency p)) (Fin 1) in
      (totalFeesChf * rate)%js
  end.

Definition pnlData (p : Position) : PnlData :=
  let liveData := liveData_of p in
  let currentPrice := resolvedPrice p in
  let quantity := orNum (get (quantity p)) (Fin 1) in
  let entryPrice := orNum (get (entry_price p)) (Fin 0) in
  let totalFees := totalFees_of p in
  let '(pnlValue, pnlPercent, pnlGross) :=
    match Tick.pnl liveData with
    | Some pnl =>
        let pnlValue := get (Tick.pnl_net pnl) in
        (pnlValue,
         get (Tick.pnl_percent pnl),
         or (get (Tick.pnl_gross pnl))
            (Number (toNumber pnlValue + totalFees)%js))
    | None =>
        if defined (get (pnl_value p)) then
          let pnlValue := get (pnl_value p) in
          (pnlValue,
           Number (orNum (get (pnl_percent p)) (Fin 0)),
           or (get (pnl_gross p))
              (Number (toNumber pnlValue + totalFees)%js))
        else
          let exitPrice := orNum (get (exit_price p)) currentPrice in
          let invested := (entryPrice * quantity)%js in
          let currentValue := (exitPrice * quantity)%js in
          let pnlGross := (currentValue - invested)%js in
          let pnlValue := (pnlGross - totalFees)%js in
          let pnlPercent :=
            if (invested >? Fin 0)%js
            then (pnlValue / invested * Fin 100)%js
            else Fin 0 in
          (Number pnlValue, Number pnlPercent, Number pnlGross)
    end in
  {| value := orNum pnlValue (Fin 0);
     percent := orNum pnlPercent (Fin 0);
     gross := orNum pnlGross (Fin 0);
     fees := totalFees;
     isProfit := (orNum pnlValue (Fin 0) >=? Fin 0)%js;
     currentPrice := currentPrice;
     invested := (entryPrice * quantity)%js;
     currentValue := (currentPrice * quantity)%js |}.

(** The strings ['sl'], ['tp2'], ['tp1']; [null] is [None]. *)
Inductive Alert : Type := alert_sl | alert_tp2 | alert_tp1.

Definition alertType (p : Position) : option Alert :=
  let currentPrice := currentPrice (pnlData p) in
  if negb (Status_eqb (status p) open) || negb (truthy currentPrice)
  then None
  else if truthyV (get (stop_loss p))
          && (currentPrice <=? toNumber (get (stop_loss p)))%js
  then Some alert_sl
  else if truthyV (get (take_profit_2 p))
          && (currentPrice >=? toNumber (get (take_profit_2 p)))%js
  then Some alert_tp2
  else if truthyV (get (take_profit_1 p))
          && (currentPrice >=? toNumber (get (take_profit_1 p)))%js
  then Some alert_tp1
  else None.

(** The price range the marker is mapped onto: [(sl, tp2)] with the
    defaults of [markerPosition]. *)
Definition markerRange (p : Position) : num * num :=
  let currentPrice := currentPrice (pnlData p) in
  let entry := orNum (get (entry_price p)) currentPrice in
  let sl := orNum (get (stop_loss p)) (entry * Fin (95 # 100))%js in
  let tp1 := orNum (get (take_profit_1 p)) (entry * Fin (105 # 100))%js in
  let tp2 := orNum (get (take_profit_2 p)) (tp1 * Fin (105 # 100))%js in
  (sl, tp2).

Definition markerPosition (p : Position) : num :=
  let currentPrice := currentPrice (pnlData p) in
  let '(sl, tp2) := markerRange p in
  let totalRange := (tp2 - sl)%js in
  if (totalRange <=? Fin 0)%js then Fin 50
  else
    let position := ((currentPrice - sl) / totalRange * Fin 100)%js in
    max (Fin 2) (min (Fin 98) position).

(** The range of [entryPosition] and [tp1Position]. *)
Definition referenceRange (p : Position) : num * num :=
  let entry := orNum (get (entry_price p)) (currentPrice (pnlData p)) in
  let sl := orNum (get (stop_loss p)) (entry * Fin (95 # 100))%js in
  let tp2 := orNum (get (take_profit_2 p)) (entry * Fin (11 # 10))%js in
  (sl, tp2).

Definition entryPosition (p : Position) : num :=
  let entry := orNum (get (entry_price p)) (currentPrice (pnlData p)) in
  let '(sl, tp2) := referenceRange p in
  let totalRange := (tp2 - sl)%js in
  if (totalRange <=? Fin 0)%js then Fin 50
  else ((entry - sl) / totalRange * Fin 100)%js.

Definition tp1Position (p : Position) : num :=
  let entry := orNum (get (entry_price p)) (currentPrice (pnlData p)) in
  let '(sl, tp2) := referenceRange p in
  let tp1 := orNum (get (take_profit_1 p)) (entry * Fin (105 # 100))%js in
  let totalRange := (tp2 - sl)%js in
  if (totalRange <=? Fin 0)%js then Fin 75
  else ((tp1 - sl) / totalRange * Fin 100)%js.

(** *** Vocabulary of the statements *)

(** The numbers of the rate table; each is non-zero, so the [|| 1.0] of the
    lookup never applies (lemma [rate_lookup]). *)
Definition rateOf (c : Currency) : Q :=
  match c with
  | USD => 113 # 100
  | EUR => 105 # 100
  | GBP => 89 # 100
  | CHF => 1
  end.

(** [liveData.pnl.commission_native] when there is a [pnl] block. *)
Definition nativeCommission (p : Position) : option Q :=
  match Tick.pnl (liveData_of p) with
  | Some b => Tick.commission_native b
  | None => None
  end.

(** A field that is absent or zero: falsy. *)
Definition absent (f : option Q) : Prop :=
  match f with
  | Some q => q == 0
  | None => True
  end.

(** The three tests of [alertType], read on rationals: the level is set
    (present and non-zero) and the price [c] has reached it. *)
Definition stopLossReached (p : Position) (c : Q) : Prop :=
  exists s, stop_loss p = Some s /\ ~ s == 0 /\ c <= s.

Definition takeProfit2Reached (p : Position) (c : Q) : Prop :=
  exists t, take_profit_2 p = Some t /\ ~ t == 0 /\ t <= c.

Definition takeProfit1Reached (p : Position) (c : Q) : Prop :=
  exists t, take_profit_1 p = Some t /\ ~ t == 0 /\ t <= c.

(** [Math.max(2, Math.min(98, x))] on rationals. *)
Definition clamp (x : Q) : Q := Qmax 2 (Qmin 98 x).

End PositionCard.

(* ================================================================== *)
(** ** portfolio-page.js: live merge and aggregate stats *)
(* ================================================================== *)

Module PortfolioPage.

(** The decoded body of a price frame or of the [/api/live/prices] answer:
    [result.success] and [result.prices], an object keyed by ticker. *)
Record PriceResult : Type := mkPriceResult {
  success : bool;
  prices : option (gmap string Tick.LiveData)
}.

(** [liveData.pnl?.f] *)
Definition pnl_field (f : Tick.Pnl -> option Q) (liveData : Tick.LiveData)
  : option Q :=
  match Tick.pnl liveData with
  | Some b => f b
  | None => None
  end.

(** The object literal [{...p, current_price: ..., live_data: ..., ...}]. *)
Definition withLive (p : Position) (liveData : Tick.LiveData) : Position :=
  {| ticker := ticker p;
     status := status p;
     entry_price := entry_price p;
     quantity := quantity p;
     buy_commission := buy_commission p;
     sell_commission := sell_commission p;
     exit_price := exit_price p;
     stop_loss := stop_loss p;
     take_profit_1 := take_profit_1 p;
     take_profit_2 := take_profit_2 p;
     current_price := Tick.price liveData;
     live_data := Some liveData;
     pnl_value := pnl_field Tick.pnl_net liveData;
     pnl_percent := pnl_field Tick.pnl_percent liveData;
     pnl_gross := pnl_field Tick.pnl_gross liveData;
     current_value := pnl_field Tick.current_value liveData;
     invested := pnl_field Tick.invested liveData |}.

(** The callback of [this.positions.map(p => ...)]. *)
Definition applyLive (prices : gmap string Tick.LiveData) (p : Position)
  : Position :=
  if Status_eqb (status p) open then
    match prices !! ticker p with
    | Some liveData => withLive p liveData
    | None => p
    end
  else p.

(** [if (result.success && result.prices) this.positions = this.positions.map(...)];
    the same statement in [_fetchLivePrices] and in the [onmessage] handler. *)
Definition mergePrices (result : PriceResult) (positions : list Position)
  : list Position :=
  match success result, prices result with
  | true, Some prices => map (applyLive prices) positions
  | _, _ => positions
  end.

Record Stats : Type := mkStats {
  value : num;
  invested : num;
  openPositions : nat;
  pnlOpen : num;
  pnlRealized : num;
  pnlGlobal : num
}.

Definition isOpen (p : Position) : bool := Status_eqb (status p) open.

(** Per-position terms of the [forEach] body. *)
Definition investedOf (p : Position) : num :=
  orNum (get (Model.invested p))
        (toNumber (get (entry_price p)) * orNum (get (quantity p)) (Fin 1))%js.

Definition valueOf (p : Position) : num :=
  orNum (get (current_value p)) (investedOf p).

Definition pnlOf (p : Position) : num :=
  orNum (get (pnl_value p)) (Fin 0).

(** The accumulators [totalValue], [totalInvested], [pnlOpen]. *)
Record Totals : Type := mkTotals {
  totalValue : num;
  totalInvested : num;
  totalPnlOpen : num
}.

Definition accumulate (acc : Totals) (p : Position) : Totals :=
  let invested := investedOf p in
  let value := valueOf p in
  let pnl := pnlOf p in
  {| totalInvested := (totalInvested acc + invested)%js;
     totalValue := (totalValue acc + value)%js;
     totalPnlOpen := (totalPnlOpen acc + pnl)%js |}.

Definition _updateStatsFromPositions (positions : list Position) (stats : Stats)
  : Stats :=
  let openPositions := List.filter isOpen positions in
  let t := fold_left accumulate openPositions
                     (mkTotals (Fin 0) (Fin 0) (Fin 0)) in
  {| value := totalValue t;
     invested := totalInvested t;
     openPositions := List.length openPositions;
     pnlOpen := totalPnlOpen t;
     pnlRealized := pnlRealized stats;
     pnlGlobal :=
       (totalPnlOpen t + orNum (Number (pnlRealized stats)) (Fin 0))%js |}.

(** The part of the page state the price stream writes. *)
Record Page : Type := mkPage {
  positions : list Position;
  stats : Stats
}.

(** The [onmessage] handler of [_connectPriceStream]; a frame whose body does
    not parse ([None]) lands in the [catch] and changes nothing. *)
Definition onmessage (frame : option PriceResult) (pg : Page) : Page :=
  match frame with
  | None => pg
  | Some result =>
      match success result, prices result with
      | true, Some _ =>
          let positions' := mergePrices result (positions pg) in
          {| positions := positions';
             stats := _updateStatsFromPositions positions' (stats pg) |}
      | _, _ => pg
      end
  end.

(** Sum of a list of numbers, as the spec words the aggregate. *)
Definition sum (l : list num) : num := fold_right add (Fin 0) l.

(** The aggregate as the specification words it: plain sums of the figures
    the open positions carry. *)
Definition sumQ (l : list Q) : Q := fold_right Qplus 0 l.

Definition figure (f : option Q) : Q :=
  match f with
  | Some q => q
  | None => 0
  end.

(** A position that carries its invested amount, its current value and its
    net P&L, the first two not zero. *)
Definition carriesFigures (p : Position) : Prop :=
  (exists i, Model.invested p = Some i /\ ~ i == 0)
  /\ (exists v, current_value p = Some v /\ ~ v == 0)
  /\ (exists n, pnl_value p = Some n).

(** The tick that a sequence of results, in arrival order, leaves on a
    ticker: the one of the last result that carried the ticker. *)
Fixpoint latestTick (results : list PriceResult) (t : string)
  : option Tick.LiveData :=
  match results with
  | [] => None
  | r :: rest =>
      match latestTick rest t with
      | Some ld => Some ld
      | None =>
          match success r, prices r with
          | true, Some prices => prices !! t
          | _, _ => None
          end
      end
  end.

(** What a position looks like once a sequence of results has been merged:
    untouched unless it is open and some result carried its ticker, else
    overlaid with the latest such tick alone. *)
Definition settle (results : list PriceResult) (p : Position) : Position :=
  if isOpen p then
    match latestTick results (ticker p) with
    | Some ld => withLive p ld
    | None => p
    end
  else p.

(** The results a sequence of frames decodes to. *)
Definition decoded (frames : list (option PriceResult)) : list PriceResult :=
  flat_map (fun f => match f with Some r => [r] | None => [] end) frames.

(** A position stripped of every live field: what the ledger holds. *)
Definition ledgerOnly (p : Position) : Position :=
  {| ticker := ticker p;
     status := status p;
     entry_price := entry_price p;
     quantity := quantity p;
     buy_commission := buy_commission p;
     sell_commission := sell_commission p;
     exit_price := exit_price p;
     stop_loss := stop_loss p;
     take_profit_1 := take_profit_1 p;
     take_profit_2 := take_profit_2 p;
     current_price := None;
     live_data := None;
     pnl_value := None;
     pnl_percent := None;
     pnl_gross := None;
     current_value := None;
     Model.invested := None |}.

End PortfolioPage.

(* ================================================================== *)
(** ** sse-client.js: class SSEClient *)
(* ================================================================== *)

Module SSE.

Local Open Scope Z_scope.

(** [options.reconnectDelay] and [options.maxRetries], when given. *)
Record Options : Type := mkOptions {
  opt_reconnectDelay : option Z;
  opt_maxRetries : option Z
}.

(** The fields of the object; [maxRetries = None] is [Infinity].  Event
    sources and timers are named by the identifiers the browser hands out
    (timer identifiers are positive, hence truthy). *)
Record SSEClient : Type := mkSSEClient {
  reconnectDelay : Z;
  maxRetries : option Z;
  retries : Z;
  eventSource : option positive;
  reconnectTimer : option positive;
  isManualClose : bool
}.

Definition capDelay : Z := 30000.

(** [constructor(url, options = {})] *)
Definition new_SSEClient (options : Options) : SSEClient :=
  {| reconnectDelay :=
       match opt_reconnectDelay options with
       | Some d => if d =? 0 then 5000 else d
       | None => 5000
       end;
     maxRetries :=
       match opt_maxRetries options with
       | Some m => if m =? 0 then None else Some m
       | None => None
       end;
     retries := 0;
     eventSource := None;
     reconnectTimer := None;
     isManualClose := false |}.

(** What the client does to the outside, in order. *)
Inductive Output : Type :=
| NewEventSource (id : positive)
| SourceClosed (id : positive)
| OnMessage
| ParseError
| OnError
| Reconnecting (delay attempt : Z)
| MaxRetriesReached
| OnOpen.

(** The client together with the browser state it acts on: the timers set
    by [setTimeout] that have neither fired nor been cleared, and the
    supplies of fresh identifiers. *)
Record World : Type := mkWorld {
  client : SSEClient;
  timers : list (positive * Z);
  nextTimer : positive;
  nextSource : positive;
  log : list Output
}.

Definition emit (o : Output) (w : World) : World :=
  {| client := client w; timers := timers w; nextTimer := nextTimer w;
     nextSource := nextSource w; log := log w ++ [o] |}.

Definition setClient (c : SSEClient) (w : World) : World :=
  {| client := c; timers := timers w; nextTimer := nextTimer w;
     nextSource := nextSource w; log := log w |}.

Definition set_retries (r : Z) (c : SSEClient) : SSEClient :=
  {| reconnectDelay := reconnectDelay c; maxRetries := maxRetries c;
     retries := r; eventSource := eventSource c;
     reconnectTimer := reconnectTimer c; isManualClose := isManualClose c |}.

Definition set_eventSource (e : option positive) (c : SSEClient) : SSEClient :=
  {| reconnectDelay := reconnectDelay c; maxRetries := maxRetries c;
     retries := retries c; eventSource := e;
     reconnectTimer := reconnectTimer c; isManualClose := isManualClose c |}.

Definition set_reconnectTimer (t : option positive) (c : SSEClient)
  : SSEClient :=
  {| reconnectDelay := reconnectDelay c; maxRetries := maxRetries c;
     retries := retries c; eventSource := eventSource c;
     reconnectTimer := t; isManualClose := isManualClose c |}.

Definition set_isManualClose (b : bool) (c : SSEClient) : SSEClient :=
  {| reconnectDelay := reconnectDelay c; maxRetries := maxRetries c;
     retries := retries c; eventSource := eventSource c;
     reconnectTimer := reconnectTimer c; isManualClose := b |}.

(** [setTimeout(callback, delay)]: a fresh pending timer. *)
Definition setTimeout (delay : Z) (w : World) : positive * World :=
  let id := nextTimer w in
  (id, {| client := client w; timers := timers w ++ [(id, delay)];
          nextTimer := Pos.succ id; nextSource := nextSource w;
          log := log w |}).

Definition remove_timer (id : positive) (ts : list (positive * Z))
  : list (positive * Z) :=
  List.filter (fun t => negb (Pos.eqb (fst t) id)) ts.

(** [clearTimeout(id)] *)
Definition clearTimeout (id : positive) (w : World) : World :=
  {| client := client w; timers := remove_timer id (timers w);
     nextTimer := nextTimer w; nextSource := nextSource w; log := log w |}.

(** A timer that fires leaves the pending set. *)
Definition expire (id : positive) (w : World) : World :=
  {| client := client w; timers := remove_timer id (timers w);
     nextTimer := nextTimer w; nextSource := nextSource w; log := log w |}.

Definition pending (id : positive) (w : World) : bool :=
  existsb (fun t => Pos.eqb (fst t) id) (timers w).

(** [_createEventSource()]: close the current source if any, open a new one. *)
Definition _createEventSource (w : World) : World :=
  let w1 :=
    match eventSource (client w) with
    | Some es => emit (SourceClosed es) w
    | None => w
    end in
  let id := nextSource w1 in
  emit (NewEventSource id)
    {| client := set_eventSource (Some id) (client w1);
       timers := timers w1; nextTimer := nextTimer w1;
       nextSource := Pos.succ id; log := log w1 |}.

(** [connect()] *)
Definition connect (w : World) : World :=
  _createEventSource (setClient (set_isManualClose false (client w)) w).

(** The [onmessage] handler; [decodes] tells whether [JSON.parse] succeeds on
    the frame.  The counter is reset before the [try]. *)
Definition onmessage (decodes : bool) (w : World) : World :=
  let w1 := setClient (set_retries 0 (client w)) w in
  if decodes then emit OnMessage w1 else emit ParseError w1.

Definition below_max (r : Z) (m : option Z) : bool :=
  match m with
  | None => true
  | Some m => r <? m
  end.

(** The [onerror] handler. *)
Definition onerror (w : World) : World :=
  let w1 := emit OnError w in
  if isManualClose (client w1) then w1
  else if below_max (retries (client w1)) (maxRetries (client w1)) then
    let w2 := setClient (set_retries (retries (client w1) + 1) (client w1)) w1 in
    let delay :=
      Z.min (reconnectDelay (client w2) * retries (client w2)) capDelay in
    let w3 := emit (Reconnecting delay (retries (client w2))) w2 in
    let '(id, w4) := setTimeout delay w3 in
    setClient (set_reconnectTimer (Some id) (client w4)) w4
  else emit MaxRetriesReached w1.

(** The [onopen] handler. *)
Definition onopen (w : World) : World :=
  emit OnOpen (setClient (set_retries 0 (client w)) w).

(** [close()] *)
Definition close (w : World) : World :=
  let w1 := setClient (set_isManualClose true (client w)) w in
  let w2 :=
    match reconnectTimer (client w1) with
    | Some t =>
        let w' := clearTimeout t w1 in
        setClient (set_reconnectTimer None (client w')) w'
    | None => w1
    end in
  match eventSource (client w2) with
  | Some es =>
      emit (SourceClosed es) (setClient (set_eventSource None (client w2)) w2)
  | None => w2
  end.

(** What can happen to a channel: calls of the owner, events of the current
    event source (a closed source dispatches nothing), a pending timer
    running its callback. *)
Inductive Event : Type :=
| Connect
| Close
| Frame (decodes : bool)
| TransportError
| Opened
| TimerFires (id : positive).

Definition step (w : World) (e : Event) : World :=
  match e with
  | Connect => connect w
  | Close => close w
  | Frame decodes =>
      match eventSource (client w) with
      | Some _ => onmessage decodes w
      | None => w
      end
  | TransportError =>
      match eventSource (client w) with
      | Some _ => onerror w
      | None => w
      end
  | Opened =>
      match eventSource (client w) with
      | Some _ => onopen w
      | None => w
      end
  | TimerFires id =>
      if pending id w then _createEventSource (expire id w) else w
  end.

Definition run (w : World) (es : list Event) : World := fold_left step es w.

(** A freshly constructed client in a browser that has handed out nothing. *)
Definition initial (options : Options) : World :=
  {| client := new_SSEClient options; timers := [];
     nextTimer := 1%positive; nextSource := 1%positive; log := [] |}.

(** The event sources opened so far. *)
Definition created (w : World) : list positive :=
  flat_map (fun o => match o with NewEventSource id => [id] | _ => [] end)
           (log w).

(** The delays of the reconnects scheduled so far, oldest first. *)
Definition delays (w : World) : list Z :=
  flat_map (fun o => match o with Reconnecting d _ => [d] | _ => [] end)
           (log w).

(** *** Vocabulary of the statements *)

(** The delay the [onerror] handler computes for attempt number [a]. *)
Definition backoff (base a : Z) : Z := Z.min (base * a) capDelay.

(** A log entry of a scheduled reconnect carries the delay of its attempt. *)
Definition scheduled_ok (base : Z) (o : Output) : Prop :=
  match o with
  | Reconnecting d a => d = backoff base a
  | _ => True
  end.

(** A closed channel with no timer left: nothing pending, no source. *)
Definition quiescent (w : World) : Prop :=
  timers w = []
  /\ eventSource (client w) = None
  /\ reconnectTimer (client w) = None
  /\ isManualClose (client w) = true.

(** [new SSEClient(url, {})], as the application constructs it. *)
Definition defaults : Options :=
  {| opt_reconnectDelay := None; opt_maxRetries := None |}.

End SSE.

(* ================================================================== *)
(** ** portfolio-chart: _drawPnlChart *)
(* ================================================================== *)

Module PortfolioChart.

(** The series of the chart are finite numbers and every division of
    [_drawPnlChart] has a non-zero divisor (lemma [divisors_nonzero] below),
    so the function is written over [Q] directly. *)

Record Padding : Type := mkPadding {
  top : Q;
  bottom : Q;
  left : Q;
  right : Q
}.

Record Point : Type := mkPoint {
  x : Q;
  y : Q;
  value : Q
}.

Inductive Style : Type :=
| zeroLineGray
| greenGradient (y0 y1 : Q)
| redGradient (y0 y1 : Q)
| neutralGray.

(** The calls made on the 2D context, in order. *)
Inductive Cmd : Type :=
| beginPath
| setLineDash (segments : list Q)
| moveTo (x y : Q)
| lineTo (x y : Q)
| quadraticCurveTo (cpx cpy x y : Q)
| closePath
| fill (s : Style)
| stroke (s : Style) (lineWidth : Q).

Definition ofNat (n : nat) : Q := inject_Z (Z.of_nat n).

(** [Math.min(...data, 0)] and [Math.max(...data, 0)] *)
Definition minWithZero (data : list Q) : Q := fold_right Qmin 0 data.
Definition maxWithZero (data : list Q) : Q := fold_right Qmax 0 data.

(** [max - min || 1] *)
Definition rangeOf (data : list Q) : Q :=
  let d := maxWithZero data - minWithZero data in
  if Qeq_bool d 0 then 1 else d.

Section Geometry.

Variables (width height : Q) (padding : Padding) (data : list Q).

Definition chartWidth : Q := width - left padding - right padding.
Definition chartHeight : Q := height - top padding - bottom padding.

Definition yOf (val : Q) : Q :=
  top padding + chartHeight
  - ((val - minWithZero data) / rangeOf data) * chartHeight.

Definition xOf (i : nat) : Q :=
  left padding + (ofNat i / (ofNat (List.length data) - 1)) * chartWidth.

Definition zeroY : Q := yOf 0.

Definition points : list Point :=
  imap (fun i val => {| x := xOf i; y := yOf val; value := val |}) data.

Definition origin : Point := {| x := 0; y := 0; value := 0 |}.

(** [prev.x + (p.x - prev.x) * (prev.value / (prev.value - p.value))] *)
Definition intersectPos (prev p : Point) : Q :=
  x prev + (x p - x prev) * (value prev / (value prev - value p)).

(** [prev.x + (p.x - prev.x) * (-prev.value / (p.value - prev.value))] *)
Definition intersectNeg (prev p : Point) : Q :=
  x prev + (x p - x prev) * (- value prev / (value p - value prev)).

(** One turn of the first [for] loop (positive fill); the state is the flag
    [started] and the calls issued so far. *)
Definition positiveStep (st : bool * list Cmd) (i : nat) : bool * list Cmd :=
  let '(started, ctx) := st in
  let p := nth i points origin in
  if Qle_bool 0 (value p) then
    let ctx1 := if started then ctx else ctx ++ [moveTo (x p) zeroY] in
    (true, ctx1 ++ [lineTo (x p) (y p)])
  else if started then
    let prev := nth (i - 1) points origin in
    (false,
     ctx ++ [lineTo (intersectPos prev p) zeroY; closePath;
             fill (greenGradient (top padding) zeroY); beginPath])
  else st.

(** One turn of the second [for] loop (negative fill). *)
Definition negativeStep (st : bool * list Cmd) (i : nat) : bool * list Cmd :=
  let '(started, ctx) := st in
  let p := nth i points origin in
  if Qlt_bool (value p) 0 then
    let ctx1 := if started then ctx else ctx ++ [moveTo (x p) zeroY] in
    (true, ctx1 ++ [lineTo (x p) (y p)])
  else if started then
    let prev := nth (i - 1) points origin in
    (false,
     ctx ++ [lineTo (intersectNeg prev p) zeroY; closePath;
             fill (redGradient zeroY (height - bottom padding)); beginPath])
  else st.

Definition lastPoint : Point := nth (List.length points - 1) points origin.

Definition positiveFill : list Cmd :=
  let '(started, ctx) :=
    fold_left positiveStep (seq 0 (List.length points)) (false, [beginPath]) in
  if started
  then ctx ++ [lineTo (x lastPoint) zeroY; closePath;
               fill (greenGradient (top padding) zeroY)]
  else ctx.

Definition negativeFill : list Cmd :=
  let '(started, ctx) :=
    fold_left negativeStep (seq 0 (List.length points)) (false, [beginPath]) in
  if started
  then ctx ++ [lineTo (x lastPoint) zeroY; closePath;
               fill (redGradient zeroY (height - bottom padding))]
  else ctx.

Definition zeroLine : list Cmd :=
  [beginPath; setLineDash [4; 4]; moveTo (left padding) zeroY;
   lineTo (width - right padding) zeroY; stroke zeroLineGray 1;
   setLineDash []].

Definition mainLine : list Cmd :=
  let first := nth 0 points origin in
  [beginPath; moveTo (x first) (y first)]
  ++ map (fun i =>
            let prev := nth (i - 1) points origin in
            let curr := nth i points origin in
            let cpx := (x prev + x curr) / 2 in
            quadraticCurveTo (x prev) (y prev) cpx ((y prev + y curr) / 2))
         (seq 1 (List.length points - 1))
  ++ [lineTo (x lastPoint) (y lastPoint); stroke neutralGray 2].

Definition _drawPnlChart : list Cmd :=
  if (List.length data <? 2)%nat then []
  else zeroLine ++ positiveFill ++ negativeFill ++ mainLine.

End Geometry.

(** The calls a fill pass has issued after the first [k] turns of its
    loop. *)
Definition positiveAfter (width height : Q) (padding : Padding)
           (data : list Q) (k : nat) : list Cmd :=
  snd (fold_left (positiveStep width height padding data) (seq 0 k)
                 (false, [beginPath])).

Definition negativeAfter (width height : Q) (padding : Padding)
           (data : list Q) (k : nat) : list Cmd :=
  snd (fold_left (negativeStep width height padding data) (seq 0 k)
                 (false, [beginPath])).

(** The polygons the context fills: the path is the list of vertices since
    the last [beginPath]. *)
Fixpoint regionsFrom (path : list (Q * Q)) (cmds : list Cmd)
  : list (Style * list (Q * Q)) :=
  match cmds with
  | [] => []
  | beginPath :: rest => regionsFrom [] rest
  | moveTo a b :: rest => regionsFrom (path ++ [(a, b)]) rest
  | lineTo a b :: rest => regionsFrom (path ++ [(a, b)]) rest
  | fill s :: rest => (s, path) :: regionsFrom path rest
  | _ :: rest => regionsFrom path rest
  end.

Definition regions (cmds : list Cmd) : list (Style * list (Q * Q)) :=
  regionsFrom [] cmds.

Definition isGreen (s : Style) : bool :=
  match s with greenGradient _ _ => true | _ => false end.

Definition isRed (s : Style) : bool :=
  match s with redGradient _ _ => true | _ => false end.

(** The vertices of all the regions filled with a style that [sel] accepts. *)
Definition vertices (sel : Style -> bool) (cmds : list Cmd) : list (Q * Q) :=
  flat_map (fun r => if sel (fst r) then snd r else []) (regions cmds).

(** The canvas of [_drawChart]'s call; the size is that of a default
    canvas element. *)
Definition padding0 : Padding := {| top := 10; bottom := 10; left := 5; right := 5 |}.

Definition series0 : list Q := [-5; -2; 3; 6].

(** A series that touches zero exactly. *)
Definition series1 : list Q := [-3; 0; 3].

(** A series that crosses the zero line downwards. *)
Definition series2 : list Q := [6; 3; -2; -5].

(** *** Vocabulary of the statements *)

(** A condition on the ordinates of the vertices and on the styles of the
    fills of a list of calls. *)
Definition okCmd (P : Q -> Prop) (sel : Style -> bool) (c : Cmd) : Prop :=
  match c with
  | moveTo _ b => P b
  | lineTo _ b => P b
  | fill s => sel s = true
  | _ => True
  end.

(** The path the context holds after a list of calls. *)
Fixpoint pathAfter (path : list (Q * Q)) (cmds : list Cmd) : list (Q * Q) :=
  match cmds with
  | [] => path
  | beginPath :: rest => pathAfter [] rest
  | moveTo a b :: rest => pathAfter (path ++ [(a, b)]) rest
  | lineTo a b :: rest => pathAfter (path ++ [(a, b)]) rest
  | _ :: rest => pathAfter path rest
  end.

Definition isFill (c : Cmd) : bool :=
  match c with fill _ => true | _ => false end.

Definition startsWithBeginPath (ctx : list Cmd) : Prop :=
  exists rest, ctx = beginPath :: rest.

End PortfolioChart.

(* ================================================================== *)
(** ** sse-client.js: what a log says, and class SSEManager *)
(* ================================================================== *)

Module SSEManager.

Import SSE.

(** The event sources a log leaves open: opened and not closed since. *)
Definition liveAfter (live : list positive) (o : Output) : list positive :=
  match o with
  | NewEventSource id => live ++ [id]
  | SourceClosed id => List.filter (fun x => negb (Pos.eqb x id)) live
  | _ => live
  end.

Definition liveSources (lg : list Output) : list positive :=
  fold_left liveAfter lg [].

(** The calls of [connect()] among a list of events. *)
Definition connects (es : list Event) : nat :=
  List.length (List.filter (fun e => match e with Connect => true | _ => false end)
                           es).

(** What the callbacks [onMessage] and the parse-error branch leave in the
    log for a list of frames. *)
Definition frameOutputs (bs : list bool) : list Output :=
  map (fun b : bool => if b then OnMessage else ParseError) bs.

(** [class SSEManager]: [this.connections], a map from names to clients.
    Each client is kept with the browser state it acts on.  [released]
    remembers, for the statements, the clients the manager has closed and
    dropped. *)
Record Manager : Type := mkManager {
  connections : gmap string World;
  released : list World
}.

(** [new SSEManager()] *)
Definition empty : Manager := {| connections := ∅; released := [] |}.

(** [disconnect(name)] *)
Definition disconnect (name : string) (m : Manager) : Manager :=
  match connections m !! name with
  | Some client =>
      {| connections := delete name (connections m);
         released := released m ++ [close client] |}
  | None => m
  end.

(** [connect(name, url, options)]; the result is the manager and the new
    client. *)
Definition mconnect (name : string) (options : Options) (m : Manager)
  : Manager * World :=
  let m1 := disconnect name m in
  let client := connect (initial options) in
  ({| connections := <[name := client]> (connections m1);
      released := released m1 |}, client).

(** [disconnectAll()] *)
Definition disconnectAll (m : Manager) : Manager :=
  {| connections := ∅;
     released := released m
                 ++ map (fun kv => close (snd kv))
                        (map_to_list (connections m)) |}.

(** [get(name)] *)
Definition mget (name : string) (m : Manager) : option World :=
  connections m !! name.

(** A client after [close()]: flagged, without source or stored timer. *)
Definition closedClient (w : World) : Prop :=
  isManualClose (client w) = true
  /\ eventSource (client w) = None
  /\ reconnectTimer (client w) = None.

(** The source [this.eventSource] holds, as a list. *)
Definition currentSource (w : World) : list positive :=
  match eventSource (client w) with
  | Some id => [id]
  | None => []
  end.

(** A logged attempt number within the retry budget [m]. *)
Definition attempt_ok (m : Z) (o : Output) : Prop :=
  match o with
  | Reconnecting _ a => (1 <= a <= m)%Z
  | _ => True
  end.

End SSEManager.


(* ================================================================== *)
(** ** portfolio-page.js: the page's own price stream *)
(* ================================================================== *)

Module PriceStream.

Import SSE.

(** What the page holds of its stream: [this.isConnected] (the element is in
    the document), [this._priceEventSource], and, on the browser's side, the
    pending timers of [onerror] and the supply of identifiers.  The log
    records the sources opened and closed. *)
Record Stream : Type := mkStream {
  isConnected : bool;
  _priceEventSource : option positive;
  timers : list positive;
  nextTimer : positive;
  nextSource : positive;
  log : list Output
}.

(** [_disconnectPriceStream()] *)
Definition _disconnectPriceStream (s : Stream) : Stream :=
  match _priceEventSource s with
  | Some id =>
      {| isConnected := isConnected s; _priceEventSource := None;
         timers := timers s; nextTimer := nextTimer s;
         nextSource := nextSource s; log := log s ++ [SourceClosed id] |}
  | None => s
  end.

(** [_connectPriceStream()]: drop the current source, open a new one. *)
Definition _connectPriceStream (s : Stream) : Stream :=
  let s1 := _disconnectPriceStream s in
  let id := nextSource s1 in
  {| isConnected := isConnected s1; _priceEventSource := Some id;
     timers := timers s1; nextTimer := nextTimer s1;
     nextSource := Pos.succ id; log := log s1 ++ [NewEventSource id] |}.

(** The [onerror] handler: [setTimeout(..., 5000)]. *)
Definition onerror (s : Stream) : Stream :=
  {| isConnected := isConnected s; _priceEventSource := _priceEventSource s;
     timers := timers s ++ [nextTimer s]; nextTimer := Pos.succ (nextTimer s);
     nextSource := nextSource s; log := log s |}.

(** The callback of that timer: [if (this.isConnected) this._connectPriceStream()]. *)
Definition onTimer (s : Stream) : Stream :=
  if isConnected s then _connectPriceStream s else s.

Definition setConnected (b : bool) (s : Stream) : Stream :=
  {| isConnected := b; _priceEventSource := _priceEventSource s;
     timers := timers s; nextTimer := nextTimer s;
     nextSource := nextSource s; log := log s |}.

Definition dropTimer (id : positive) (s : Stream) : Stream :=
  {| isConnected := isConnected s; _priceEventSource := _priceEventSource s;
     timers := List.filter (fun t => negb (Pos.eqb t id)) (timers s);
     nextTimer := nextTimer s; nextSource := nextSource s; log := log s |}.

(** [connectedCallback()] and [disconnectedCallback()], as far as the
    stream goes; the browser has set [isConnected] before it calls them. *)
Definition connectedCallback (s : Stream) : Stream :=
  _connectPriceStream (setConnected true s).

Definition disconnectedCallback (s : Stream) : Stream :=
  _disconnectPriceStream (setConnected false s).

(** [_handleVisibilityChange], with [document.hidden]. *)
Definition _handleVisibilityChange (hidden : bool) (s : Stream) : Stream :=
  if hidden then _disconnectPriceStream s else _connectPriceStream s.

(** The visibility listener is registered between the two callbacks; a
    transport error comes from the current source; a timer fires while it is
    pending. *)
Inductive Event : Type :=
| Attached
| Detached
| VisibilityChange (hidden : bool)
| StreamError
| TimerFires (id : positive).

Definition step (s : Stream) (e : Event) : Stream :=
  match e with
  | Attached => connectedCallback s
  | Detached => disconnectedCallback s
  | VisibilityChange hidden =>
      if isConnected s then _handleVisibilityChange hidden s else s
  | StreamError =>
      match _priceEventSource s with
      | Some _ => onerror s
      | None => s
      end
  | TimerFires id =>
      if existsb (Pos.eqb id) (timers s) then onTimer (dropTimer id s) else s
  end.

Definition run (s : Stream) (es : list Event) : Stream := fold_left step es s.

(** The page as its constructor leaves it. *)
Definition initial : Stream :=
  {| isConnected := false; _priceEventSource := None; timers := [];
     nextTimer := 1%positive; nextSource := 1%positive; log := [] |}.

Definition opened (s : Stream) : list positive :=
  flat_map (fun o => match o with NewEventSource id => [id] | _ => [] end)
           (log s).

Definition currentSource (s : Stream) : list positive :=
  match _priceEventSource s with
  | Some id => [id]
  | None => []
  end.

End PriceStream.


(* ================================================================== *)
(** ** portfolio-page.js: views, currencies, the price request *)
(* ================================================================== *)

Module PageHelpers.

Import PortfolioPage.

(** [get filteredPositions()], with [this.filter]. *)
Definition filteredPositions (filter : string) (positions : list Position)
  : list Position :=
  if String.eqb filter "open" then
    List.filter (fun p => Status_eqb (status p) open) positions
  else if String.eqb filter "closed" then
    List.filter (fun p => negb (Status_eqb (status p) open)) positions
  else positions.

(** [_getTickerCurrency(ticker)] *)
Definition _getTickerCurrency (ticker : string) : PositionCard.Currency :=
  if PositionCard.endsWith ticker ".SW" || PositionCard.endsWith ticker ".VX"
  then PositionCard.CHF
  else if PositionCard.endsWith ticker ".PA"
          || PositionCard.endsWith ticker ".DE"
          || PositionCard.endsWith ticker ".AS"
  then PositionCard.EUR
  else if PositionCard.endsWith ticker ".L" then PositionCard.GBP
  else PositionCard.USD.

(** [this.exchangeRates] is an object of numbers keyed by currency code;
    the constructor sets [{USD: 1, CHF: 0.88, EUR: 0.92, GBP: 0.79}]. *)
Definition defaultRates : gmap string Q :=
  <["USD"%string := 1]>
    (<["CHF"%string := 88 # 100]>
       (<["EUR"%string := 92 # 100]>
          (<["GBP"%string := 79 # 100]> ∅))).

(** [_convertToDisplayCurrency(price, fromCurrency)], with
    [this.exchangeRates] and [this.currency]. *)
Definition _convertToDisplayCurrency
           (exchangeRates : gmap string Q) (currency : string)
           (price : num) (fromCurrency : string) : num :=
  if String.eqb fromCurrency currency then price
  else
    let usdPrice := (price / toNumber (get (exchangeRates !! fromCurrency)))%js in
    (usdPrice * toNumber (get (exchangeRates !! currency)))%js.

(** [[...new Set(array)]]: the elements in the order they first occur. *)
Definition setOf (l : list string) : list string :=
  fold_left (fun acc x => if existsb (String.eqb x) acc then acc else acc ++ [x])
            l [].

(** An element of [positionsForCalc]. *)
Record CalcPosition : Type := mkCalcPosition {
  calc_ticker : string;
  calc_entry_price : JSNum.value;
  calc_quantity : num;
  calc_buy_commission : num;
  calc_sell_commission : num
}.

Definition calcOf (p : Position) : CalcPosition :=
  {| calc_ticker := ticker p;
     calc_entry_price := get (entry_price p);
     calc_quantity := orNum (get (quantity p)) (Fin 1);
     calc_buy_commission := orNum (get (buy_commission p)) (Fin 0);
     calc_sell_commission := orNum (get (sell_commission p)) (Fin 0) |}.

(** The body [{tickers, positions}] that [_fetchLivePrices] posts to
    [/api/live/prices]; [None] when it returns before any request. *)
Definition livePricesRequest (positions : list Position)
  : option (list string * list CalcPosition) :=
  let openPositions :=
    List.filter (fun p => Status_eqb (status p) open) positions in
  if (List.length openPositions =? 0)%nat then None
  else Some (setOf (map ticker openPositions), map calcOf openPositions).

End PageHelpers.


(* ================================================================== *)
(** ** portfolio-chart: time range, min/max, the line drawings *)
(* ================================================================== *)

Module ChartLines.

Import PortfolioChart.

(** [const TIME_RANGES]: days and label. *)
Definition TIME_RANGES : list (Z * string) :=
  [(1%Z, "1J"); (7%Z, "1S"); (30%Z, "1M"); (90%Z, "3M"); (365%Z, "1A");
   (0%Z, "Tout")]%string.

(** [get currentTimeRange()]: [undefined] outside the table. *)
Definition currentTimeRange (timeRangeIndex : Z) : option (Z * string) :=
  if (timeRangeIndex <? 0)%Z then None
  else nth_error TIME_RANGES (Z.to_nat timeRangeIndex).

(** [_changeTimeRange(direction)]: the new [timeRangeIndex] and, when the
    index moved, the number of days [fetchData] asks for. *)
Definition _changeTimeRange (direction : Z) (timeRangeIndex : Z)
  : Z * option Z :=
  let newIndex := (timeRangeIndex + direction)%Z in
  if (newIndex <? 0)%Z || (newIndex >=? Z.of_nat (List.length TIME_RANGES))%Z
  then (timeRangeIndex, None)
  else (newIndex, option_map fst (currentTimeRange newIndex)).

(** [Math.min(...list)] and [Math.max(...list)]; of no argument they are
    [Infinity] and [-Infinity]. *)
Definition listMin (l : list Q) : num :=
  fold_right (fun q acc => JSNum.min (Fin q) acc) PInf l.

Definition listMax (l : list Q) : num :=
  fold_right (fun q acc => JSNum.max (Fin q) acc) NInf l.

(** [_updateMinMax()]: the new [minValue], [maxValue] and [chartLabel]. *)
Definition _updateMinMax (mode : string) (pnlData values : list Q)
           (minValue maxValue : num) : num * num * string :=
  let '(dataSet, chartLabel) :=
    if String.eqb mode "pnl" then (pnlData, "P&L"%string)
    else if String.eqb mode "value" then (values, "Valeur"%string)
    else (values, "Portfolio"%string) in
  if (0 <? List.length dataSet)%nat
  then (listMin dataSet, listMax dataSet, chartLabel)
  else (minValue, maxValue, chartLabel).

Record LinePoint : Type := mkLinePoint {
  lx : num;
  ly : num
}.

Inductive LineCmd : Type :=
| l_beginPath
| l_setLineDash (segments : list Q)
| l_moveTo (x y : num)
| l_lineTo (x y : num)
| l_quadraticCurveTo (cpx cpy x y : num)
| l_closePath
| l_fill
| l_stroke (color : string) (lineWidth : Q).

Section Lines.

Variables (width height : Q) (padding : Padding).

(** The points of a line: [data.map((val, i) => ({x: ..., y: ...}))]. *)
Definition linePoints (data : list Q) (min range : num) : list LinePoint :=
  imap (fun i val =>
          {| lx := (Fin (left padding)
                    + Fin (ofNat i) / (Fin (ofNat (List.length data)) - Fin 1)
                      * Fin (chartWidth width padding))%js;
             ly := (Fin (top padding) + Fin (chartHeight height padding)
                    - (Fin val - min) / range
                      * Fin (chartHeight height padding))%js |})
       data.

Definition noPoint : LinePoint := {| lx := NaN; ly := NaN |}.

(** The stroke of a line through its points, as both drawings do it. *)
Definition strokeLine (points : list LinePoint) (color : string)
           (dash : option (list Q)) (lineWidth : Q) : list LineCmd :=
  let first := nth 0 points noPoint in
  let last := nth (List.length points - 1) points noPoint in
  [l_beginPath;
   l_setLineDash (match dash with Some d => d | None => [] end);
   l_moveTo (lx first) (ly first)]
  ++ map (fun i =>
            let prev := nth (i - 1) points noPoint in
            let curr := nth i points noPoint in
            let cpx := ((lx prev + lx curr) / Fin 2)%js in
            l_quadraticCurveTo (lx prev) (ly prev) cpx
                               ((ly prev + ly curr) / Fin 2)%js)
         (seq 1 (List.length points - 1))
  ++ [l_lineTo (lx last) (ly last); l_stroke color lineWidth;
      l_setLineDash []].

(** [_drawLineWithRange(ctx, width, height, padding, data, color, min, max,
    dash, lineWidth)] *)
Definition _drawLineWithRange (data : list Q) (color : string)
           (min max : num) (dash : option (list Q)) (lineWidth : Q)
  : list LineCmd :=
  if (List.length data <? 2)%nat then []
  else
    let range := orNum (Number (max - min)%js) (Fin 1) in
    strokeLine (linePoints data min range) color dash lineWidth.

(** The scale of the branch ['value'] of [_drawChart]: the minimum and the
    maximum of both series, widened by [(max - min) * 0.1 || max * 0.02]. *)
Definition valueScale (values invested : list Q) : num * num :=
  let allData := values ++ invested in
  let min := listMin allData in
  let max := listMax allData in
  let rangePadding :=
    orNum (Number ((max - min) * Fin (1 # 10))%js) (max * Fin (2 # 100))%js in
  ((min - rangePadding)%js, (max + rangePadding)%js).

(** The branch ['value'] of [_drawChart]: the invested amount dotted, the
    value solid, on one scale; nothing unless both have two points. *)
Definition drawValueMode (values invested : list Q) : list LineCmd :=
  if (1 <? List.length values)%nat && (1 <? List.length invested)%nat then
    let '(min, max) := valueScale values invested in
    _drawLineWithRange invested "#8b5cf6" min max (Some [5; 5]) 2
    ++ _drawLineWithRange values "#3b82f6" min max None 2
  else [].

(** [_drawLine(ctx, width, height, padding, data, color, fill, useZeroBase,
    dash, lineWidth)]; [useZeroBase] is not read. *)
Definition _drawLine (data : list Q) (color : string) (fill : bool)
           (dash : option (list Q)) (lineWidth : Q) : list LineCmd :=
  if (List.length data <? 2)%nat then []
  else
    let min := listMin data in
    let max := listMax data in
    let range := orNum (Number (max - min)%js) (Fin 1) in
    let points := linePoints data min range in
    let last := nth (List.length points - 1) points noPoint in
    let base := Fin (height - bottom padding) in
    (if fill then
       [l_beginPath; l_moveTo (lx (nth 0 points noPoint)) base]
       ++ map (fun p => l_lineTo (lx p) (ly p)) points
       ++ [l_lineTo (lx last) base; l_closePath; l_fill]
     else [])
    ++ strokeLine points color dash lineWidth.

End Lines.

(** The coordinates a list of calls draws at. *)
Definition coordinates (cmds : list LineCmd) : list (num * num) :=
  flat_map (fun c => match c with
                     | l_moveTo a b => [(a, b)]
                     | l_lineTo a b => [(a, b)]
                     | l_quadraticCurveTo a b c d => [(a, b); (c, d)]
                     | _ => []
                     end) cmds.

(** A number between two rationals. *)
Definition between (lo hi : Q) (a : num) : Prop :=
  match a with
  | Fin q => lo <= q <= hi
  | _ => False
  end.

(** A coordinate between the left and the right border of the plot area
    and between two heights; the plot area itself, borders included. *)
Definition inBand (width : Q) (padding : Padding) (ylo yhi : Q) (x y : num)
  : Prop :=
  between (left padding) (left padding + chartWidth width padding) x
  /\ between ylo yhi y.

Definition inBox (width height : Q) (padding : Padding) (x y : num) : Prop :=
  inBand width padding (top padding)
         (top padding + chartHeight height padding) x y.

End ChartLines.


(* ================================================================== *)
(** ** position-card.js: [priceChange] and the intraday chart *)
(* ================================================================== *)

Module IntradayChart.

Import PortfolioChart ChartLines.

Record PriceChange : Type := mkPriceChange {
  pc_value : num;
  pc_percent : num;
  isPositive : bool
}.

(** [liveData.change_percent || p.daily_change_percent || 0] *)
Definition changePercentOf (live_data : option Tick.LiveData)
           (daily_change_percent : option Q) : num :=
  let liveData := match live_data with Some l => l | None => Tick.empty end in
  orNum (or (get (Tick.change_percent liveData)) (get daily_change_percent))
        (Fin 0).

(** [get priceChange()], of [p.live_data], [p.daily_change] and
    [p.daily_change_percent]. *)
Definition priceChange (live_data : option Tick.LiveData)
           (daily_change daily_change_percent : option Q) : PriceChange :=
  let liveData := match live_data with Some l => l | None => Tick.empty end in
  let change :=
    orNum (or (get (Tick.change liveData)) (get daily_change)) (Fin 0) in
  let changePercent := changePercentOf live_data daily_change_percent in
  {| pc_value := change;
     pc_percent := changePercent;
     isPositive := (change >=? Fin 0)%js |}.

(** A sample of the intraday series: an object with [price] and [close],
    or a bare number. *)
Inductive Sample : Type :=
| point (price close : option Q)
| bare (q : Q).

(** [d.price || d.close || d]; an object left by the chain is not a number
    once [Math.min] or a subtraction reads it. *)
Definition priceOf (d : Sample) : num :=
  match d with
  | point price close => orNum (or (get price) (get close)) NaN
  | bare q => Fin q
  end.

(** [Math.min(...prices)] and [Math.max(...prices)] *)
Definition numsMin (l : list num) : num := fold_right JSNum.min PInf l.
Definition numsMax (l : list num) : num := fold_right JSNum.max NInf l.

Inductive ICmd : Type :=
| c_beginPath
| c_moveTo (x y : num)
| c_lineTo (x y : num)
| c_closePath
| c_arc (x y : num) (radius : Q)
| c_fill (style : string)
| c_stroke (style : string) (lineWidth : Q).

(** [const padding = { top: 20, right: 10, bottom: 10, left: 10 }] *)
Definition padding : Padding :=
  {| top := 20; right := 10; bottom := 10; left := 10 |}.

(** What a call of [_drawChart] does: nothing without data, a retry in 50 ms
    while the canvas has no size, else the drawing. *)
Inductive Outcome : Type :=
| noData
| retry
| drawn (cmds : list ICmd).

Section Drawing.

Variables (width height : Q) (prices : list num).

(** [minPrice] and [maxPrice] after the widening, and [priceRange]. *)
Definition pricePadding : num :=
  orNum (Number ((numsMax prices - numsMin prices) * Fin (1 # 10))%js)
        (Fin (1 # 2)).

Definition minPrice : num := (numsMin prices - pricePadding)%js.
Definition maxPrice : num := (numsMax prices + pricePadding)%js.

Definition priceRange : num := orNum (Number (maxPrice - minPrice)%js) (Fin 1).

Definition xAt (i : nat) : num :=
  (Fin (left padding)
   + Fin (ofNat i) / (Fin (ofNat (List.length prices)) - Fin 1)
     * Fin (chartWidth width padding))%js.

Definition yAt (price : num) : num :=
  (Fin (top padding)
   + (maxPrice - price) / priceRange * Fin (chartHeight height padding))%js.

Definition fillPath (fillColor : string) : list ICmd :=
  [c_beginPath; c_moveTo (Fin (left padding)) (Fin (height - bottom padding))]
  ++ imap (fun i price => c_lineTo (xAt i) (yAt price)) prices
  ++ [c_lineTo (Fin (left padding + chartWidth width padding))
               (Fin (height - bottom padding));
      c_closePath; c_fill fillColor].

Definition linePath (lineColor : string) : list ICmd :=
  [c_beginPath]
  ++ imap (fun i price => if (i =? 0)%nat then c_moveTo (xAt i) (yAt price)
                          else c_lineTo (xAt i) (yAt price)) prices
  ++ [c_stroke lineColor 2].

Definition dot (lineColor : string) : list ICmd :=
  let lastX := Fin (left padding + chartWidth width padding) in
  let lastY := yAt (nth (List.length prices - 1) prices NaN) in
  [c_beginPath; c_arc lastX lastY 4; c_fill lineColor; c_stroke "#fff" 2].

End Drawing.

(** [_drawChart()], of the size of the canvas, the intraday series and the
    fields the colour is taken from. *)
Definition _drawChart (width height : Q) (data : list Sample)
           (live_data : option Tick.LiveData)
           (daily_change_percent : option Q) : Outcome :=
  if (List.length data =? 0)%nat then noData
  else if Qeq_bool width 0 || Qeq_bool height 0 then retry
  else
    let prices := map priceOf data in
    let changePercent := changePercentOf live_data daily_change_percent in
    let isUp := (changePercent >=? Fin 0)%js in
    let lineColor := if isUp then "#06d6a0"%string else "#ff3366"%string in
    let fillColor := if isUp then "rgba(6, 214, 160, 0.1)"%string
                     else "rgba(255, 51, 102, 0.1)"%string in
    drawn (fillPath width height prices fillColor
           ++ linePath width height prices lineColor
           ++ dot width height prices lineColor).

(** The points a list of calls draws at. *)
Definition coords (cmds : list ICmd) : list (num * num) :=
  flat_map (fun c => match c with
                     | c_moveTo a b => [(a, b)]
                     | c_lineTo a b => [(a, b)]
                     | c_arc a b _ => [(a, b)]
                     | _ => []
                     end) cmds.

(** Every sample gives a finite price. *)
Definition priced (data : list Sample) : Prop :=
  forall d, In d data -> is_finite (priceOf d).

End IntradayChart.


(* ================================================================== *)
(** ** Concrete inputs used below *)
(* ================================================================== *)

Module Scenarios.

(** [{entry_price: 100, quantity: 10, buy_commission: 5, sell_commission: 0}] *)
Definition valuationPosition (tk : string) : Position :=
  {| ticker := tk; status := open;
     entry_price := Some 100; quantity := Some 10;
     buy_commission := Some 5; sell_commission := Some 0;
     exit_price := None; stop_loss := None;
     take_profit_1 := None; take_profit_2 := None;
     current_price := None; live_data := None;
     pnl_value := None; pnl_percent := None; pnl_gross := None;
     current_value := None; invested := None |}.

(** A tick that carries a price and no [pnl] block. *)
Definition priceTick (price : Q) : Tick.LiveData :=
  {| Tick.price := Some price; Tick.change := None;
     Tick.change_percent := None; Tick.high := None; Tick.low := None;
     Tick.pnl := None |}.

(** A tick whose [pnl] block reports a net P&L and a percentage. *)
Definition pnlTick (price net pct : Q) : Tick.LiveData :=
  {| Tick.price := Some price; Tick.change := None;
     Tick.change_percent := None; Tick.high := None; Tick.low := None;
     Tick.pnl := Some {| Tick.pnl_net := Some net;
                         Tick.pnl_percent := Some pct;
                         Tick.pnl_gross := None;
                         Tick.current_value := None;
                         Tick.invested := None;
                         Tick.commission_native := None |} |}.

(** An open position with the three targets set and a stored price. *)
Definition targetsPosition (sl tp1 tp2 price : Q) (st : Status) : Position :=
  {| ticker := "AAPL"; status := st;
     entry_price := Some 100; quantity := Some 10;
     buy_commission := None; sell_commission := None;
     exit_price := None; stop_loss := Some sl;
     take_profit_1 := Some tp1; take_profit_2 := Some tp2;
     current_price := Some price; live_data := None;
     pnl_value := None; pnl_percent := None; pnl_gross := None;
     current_value := None; invested := None |}.

(** Entry 100, stop-loss 90, first target 120, no second target, trading at
    the entry price. *)
Definition noTp2Position : Position :=
  {| ticker := "AAPL"; status := open;
     entry_price := Some 100; quantity := Some 10;
     buy_commission := None; sell_commission := None;
     exit_price := None; stop_loss := Some 90;
     take_profit_1 := Some 120; take_profit_2 := None;
     current_price := Some 100; live_data := None;
     pnl_value := None; pnl_percent := None; pnl_gross := None;
     current_value := None; invested := None |}.

(** A position entered at price 0. *)
Definition zeroEntryPosition : Position :=
  {| ticker := "AAPL"; status := open;
     entry_price := Some 0; quantity := Some 10;
     buy_commission := None; sell_commission := None;
     exit_price := None; stop_loss := None;
     take_profit_1 := None; take_profit_2 := None;
     current_price := None; live_data := None;
     pnl_value := None; pnl_percent := None; pnl_gross := None;
     current_value := None; invested := None |}.

(** An open position with a stop-loss and no price of any kind. *)
Definition unpricedPosition : Position :=
  {| ticker := "AAPL"; status := open;
     entry_price := None; quantity := Some 10;
     buy_commission := None; sell_commission := None;
     exit_price := None; stop_loss := Some 90;
     take_profit_1 := None; take_profit_2 := None;
     current_price := None; live_data := None;
     pnl_value := None; pnl_percent := None; pnl_gross := None;
     current_value := None; invested := None |}.

(** Two price results for one ticker, in arrival order: the first tick
    carries a [pnl] block, the second only a price. *)
Definition firstResult : PortfolioPage.PriceResult :=
  {| PortfolioPage.success := true;
     PortfolioPage.prices := Some {[ "AAPL"%string := pnlTick 110 5 7 ]} |}.

Definition secondResult : PortfolioPage.PriceResult :=
  {| PortfolioPage.success := true;
     PortfolioPage.prices := Some {[ "AAPL"%string := priceTick 120 ]} |}.

(** A small portfolio: two open positions and a closed one. *)
Definition openA : Position :=
  {| ticker := "AAPL"; status := open;
     entry_price := Some 100; quantity := Some 10;
     buy_commission := Some 5; sell_commission := None;
     exit_price := None; stop_loss := None;
     take_profit_1 := None; take_profit_2 := None;
     current_price := Some 110; live_data := None;
     pnl_value := Some 95; pnl_percent := Some (95 # 10);
     pnl_gross := Some 100;
     current_value := Some 1100; invested := Some 1000 |}.

Definition openB : Position :=
  {| ticker := "NESN.SW"; status := open;
     entry_price := Some 80; quantity := Some 5;
     buy_commission := None; sell_commission := None;
     exit_price := None; stop_loss := None;
     take_profit_1 := None; take_profit_2 := None;
     current_price := None; live_data := None;
     pnl_value := Some (-20); pnl_percent := None; pnl_gross := None;
     current_value := None; invested := None |}.

Definition closedC : Position :=
  {| ticker := "MSFT"; status := closed;
     entry_price := Some 50; quantity := Some 4;
     buy_commission := None; sell_commission := None;
     exit_price := Some 60; stop_loss := None;
     take_profit_1 := None; take_profit_2 := None;
     current_price := None; live_data := None;
     pnl_value := Some 40; pnl_percent := None; pnl_gross := None;
     current_value := Some 240; invested := Some 200 |}.

(** An open position that carries its three figures. *)
Definition openD : Position :=
  {| ticker := "NESN.SW"; status := open;
     entry_price := Some 80; quantity := Some 5;
     buy_commission := None; sell_commission := None;
     exit_price := None; stop_loss := None;
     take_profit_1 := None; take_profit_2 := None;
     current_price := Some 76; live_data := None;
     pnl_value := Some (-20); pnl_percent := None; pnl_gross := None;
     current_value := Some 380; invested := Some 400 |}.

(** A price result whose only tick carries a price and no [pnl] block. *)
Definition priceOnlyResult : PortfolioPage.PriceResult :=
  {| PortfolioPage.success := true;
     PortfolioPage.prices := Some {[ "AAPL"%string := priceTick 110 ]} |}.

Definition stats0 : PortfolioPage.Stats :=
  {| PortfolioPage.value := Fin 0; PortfolioPage.invested := Fin 0;
     PortfolioPage.openPositions := 0%nat; PortfolioPage.pnlOpen := Fin 0;
     PortfolioPage.pnlRealized := Fin 40; PortfolioPage.pnlGlobal := Fin 0 |}.

End Scenarios.

(* ================================================================== *)
(** * Properties *)
(* ================================================================== *)

(** ** Numbers *)

Module JSNumFacts.

Lemma num_eq_refl (a : num) : a =n= a.
Proof. destruct a; simpl; auto with qarith. Qed.

Lemma num_eq_sym (a b : num) : a =n= b -> b =n= a.
Proof. destruct a, b; simpl; auto with qarith. Qed.

Lemma num_eq_trans (a b c : num) : a =n= b -> b =n= c -> a =n= c.
Proof.
  destruct a, b, c; simpl; try tauto.
  intros H1 H2. now rewrite H1.
Qed.

#[export] Instance num_eq_equiv : Equivalence num_eq.
Proof.
  split.
  - exact num_eq_refl.
  - exact num_eq_sym.
  - exact num_eq_trans.
Qed.

Lemma Qlt_bool_iff (a b : Q) : Qlt_bool a b = true <-> a < b.
Proof.
  unfold Qlt_bool. rewrite negb_true_iff.
  destruct (Qle_bool b a) eqn:E.
  - apply Qle_bool_iff in E. split; [discriminate | intro; lra].
  - split; [intros _ | reflexivity].
    destruct (Qlt_le_dec a b) as [Hl | Hg]; [exact Hl |].
    apply Qle_bool_iff in Hg. congruence.
Qed.

Lemma Qlt_bool_false_iff (a b : Q) : Qlt_bool a b = false <-> b <= a.
Proof.
  unfold Qlt_bool. rewrite negb_false_iff. apply Qle_bool_iff.
Qed.

Lemma Qle_bool_false_iff (a b : Q) : Qle_bool a b = false <-> b < a.
Proof.
  rewrite <- Qlt_bool_iff. unfold Qlt_bool.
  destruct (Qle_bool a b); simpl; split; congruence.
Qed.

Lemma Qeq_bool_false_iff (a b : Q) : Qeq_bool a b = false <-> ~ a == b.
Proof.
  split.
  - apply Qeq_bool_neq.
  - intro H. destruct (Qeq_bool a b) eqn:E; [| reflexivity].
    apply Qeq_bool_iff in E. contradiction.
Qed.

Lemma truthy_Fin (q : Q) : truthy (Fin q) = true <-> ~ q == 0.
Proof.
  simpl. rewrite negb_true_iff. apply Qeq_bool_false_iff.
Qed.

Lemma truthy_Fin_false (q : Q) : truthy (Fin q) = false <-> q == 0.
Proof.
  simpl. rewrite negb_false_iff. apply Qeq_bool_iff.
Qed.

(** [a || d] is [a] when [a] is a non-zero number, else [d]. *)
Lemma orNum_get_Some (q : Q) (d : num) :
  ~ q == 0 -> orNum (get (Some q)) d = Fin q.
Proof.
  intro H. unfold orNum. simpl.
  apply Qeq_bool_false_iff in H. now rewrite H.
Qed.

Lemma orNum_get_zero (q : Q) (d : num) :
  q == 0 -> orNum (get (Some q)) d = d.
Proof.
  intro H. unfold orNum. simpl.
  apply Qeq_bool_iff in H. now rewrite H.
Qed.

Lemma orNum_get_None (d : num) : orNum (get None) d = d.
Proof. reflexivity. Qed.

(** A JSON field defaulted by a finite number is a finite number. *)
Lemma orNum_get_finite (f : option Q) (d : num) :
  is_finite d -> is_finite (orNum (get f) d).
Proof.
  intro Hd. destruct f as [q |]; [| exact Hd].
  unfold orNum. simpl. destruct (Qeq_bool q 0); simpl; auto.
Qed.

Lemma is_finite_inv (a : num) : is_finite a -> exists q, a = Fin q.
Proof. destruct a; simpl; try tauto. intros _. now exists q. Qed.

(** Addition is commutative and associative on values. *)
Lemma add_comm (a b : num) : (a + b)%js =n= (b + a)%js.
Proof. destruct a, b; simpl; auto; lra. Qed.

Lemma add_assoc (a b c : num) : (a + (b + c))%js =n= ((a + b) + c)%js.
Proof. destruct a, b, c; simpl; auto; lra. Qed.

Lemma add_proper (a a' b b' : num) :
  a =n= a' -> b =n= b' -> (a + b)%js =n= (a' + b')%js.
Proof.
  destruct a, a', b, b'; simpl; try tauto. intros H1 H2. lra.
Qed.

Lemma add_zero_l (a : num) : (Fin 0 + a)%js =n= a.
Proof. destruct a; simpl; auto; lra. Qed.

End JSNumFacts.

Import JSNumFacts.

(** ** Status *)

Module ModelFacts.

Lemma Status_eqb_open (s : Status) : Status_eqb s open = true <-> s = open.
Proof. destruct s; simpl; split; congruence. Qed.

End ModelFacts.

Import ModelFacts.

(** ** Valuation and targets (position-card.js) *)

Module PositionCardFacts.

Import PositionCard Scenarios PortfolioPage.

Lemma orNum_or (a b : JSNum.value) (d : num) :
  orNum (or a b) d = orNum a (orNum b d).
Proof.
  unfold orNum, or. destruct (truthyV a) eqn:E; [now rewrite E | reflexivity].
Qed.

(** The chain of [||] that resolves the current price, unfolded. *)
Lemma resolvedPrice_chain (p : Position) :
  resolvedPrice p
  = orNum (get (Tick.price (liveData_of p)))
      (orNum (get (current_price p))
         (orNum (get (exit_price p))
            (orNum (get (entry_price p)) (Fin 0)))).
Proof. unfold resolvedPrice. now rewrite !orNum_or. Qed.

(** The resolved price is always a finite number. *)
Lemma resolvedPrice_finite (p : Position) : is_finite (resolvedPrice p).
Proof.
  rewrite resolvedPrice_chain.
  repeat apply orNum_get_finite. exact I.
Qed.

Lemma currentPrice_pnlData (p : Position) :
  currentPrice (pnlData p) = resolvedPrice p.
Proof.
  unfold pnlData.
  destruct (Tick.pnl (liveData_of p)); [reflexivity |].
  destruct (defined (get (pnl_value p))); reflexivity.
Qed.

Lemma fees_pnlData (p : Position) : fees (pnlData p) = totalFees_of p.
Proof.
  unfold pnlData.
  destruct (Tick.pnl (liveData_of p)); [reflexivity |].
  destruct (defined (get (pnl_value p))); reflexivity.
Qed.

Lemma invested_pnlData (p : Position) :
  PositionCard.invested (pnlData p)
  = (orNum (get (entry_price p)) (Fin 0)
     * orNum (get (quantity p)) (Fin 1))%js.
Proof.
  unfold pnlData.
  destruct (Tick.pnl (liveData_of p)); [reflexivity |].
  destruct (defined (get (pnl_value p))); reflexivity.
Qed.

Lemma rate_lookup (c : Currency) : orNum (CHF_RATES c) (Fin 1) = Fin (rateOf c).
Proof. destruct c; reflexivity. Qed.

(** *** Fees and the valuation scenario *)

Lemma totalFees_fallback (p : Position) :
  nativeCommission p = None ->
  totalFees_of p
  = ((orNum (get (buy_commission p)) (Fin 0)
      + orNum (get (sell_commission p)) (Fin 0))
     * Fin (rateOf (marketCurrency p)))%js.
Proof.
  unfold nativeCommission, pnl_field, totalFees_of. intro H.
  rewrite rate_lookup.
  destruct (Tick.pnl (liveData_of p)) as [b |]; [| reflexivity].
  now rewrite H.
Qed.

Lemma totalFees_native (p : Position) (c : Q) :
  nativeCommission p = Some c -> totalFees_of p = Fin c.
Proof.
  unfold nativeCommission, pnl_field, totalFees_of. intro H.
  destruct (Tick.pnl (liveData_of p)) as [b |]; [| discriminate].
  now rewrite H.
Qed.

Lemma scenario_values (tk : string) (tick : Tick.LiveData) :
  Tick.price tick = Some 110 ->
  Tick.pnl tick = None ->
  let p := withLive (valuationPosition tk) tick in
  let d := pnlData p in
  let rate := rateOf (marketCurrency p) in
  PositionCard.invested d =n= Fin 1000
  /\ currentValue d =n= Fin 1100
  /\ gross d =n= Fin 100
  /\ fees d =n= Fin (5 * rate)
  /\ PositionCard.value d =n= Fin (100 - 5 * rate)
  /\ percent d =n= Fin ((100 - 5 * rate) / 10).
Proof.
  intros Hprice Hpnl p d rate. subst d rate.
  unfold pnlData, totalFees_of, resolvedPrice.
  rewrite !rate_lookup.
  destruct (marketCurrency p) eqn:Ecur; subst p;
    unfold liveData_of, withLive, pnl_field; simpl;
    rewrite Hpnl, Hprice; vm_compute; repeat split; congruence.
Qed.

(** C1, as amended.  Without a tick-supplied native commission the fee figure
    of [pnlData] is the ledger commission [buy_commission + sell_commission]
    multiplied by [CHF_RATES[marketCurrency]] (1.13 for USD, 1.05 for EUR,
    0.89 for GBP, 1 for CHF).  For the position
    [{entry_price: 100, quantity: 10, buy_commission: 5, sell_commission: 0}]
    merged with a tick of price 110 that has no [pnl] block, whatever the
    ticker: invested = 1000, current value = 1100, gross P&L = 100, fees =
    5 x rate, net P&L = 100 - 5 x rate and percentage = (100 - 5 x rate) / 10;
    these are 95 and 9.5 exactly when the ticker trades in CHF. *)
Theorem pnlData_fees_and_valuation_scenario :
  (forall p : Position,
      nativeCommission p = None ->
      fees (pnlData p)
      = ((orNum (get (buy_commission p)) (Fin 0)
          + orNum (get (sell_commission p)) (Fin 0))
         * Fin (rateOf (marketCurrency p)))%js)
  /\ (forall (tk : string) (tick : Tick.LiveData),
         Tick.price tick = Some 110 ->
         Tick.pnl tick = None ->
         let p := withLive (valuationPosition tk) tick in
         let d := pnlData p in
         let rate := rateOf (marketCurrency p) in
         (PositionCard.invested d =n= Fin 1000
          /\ currentValue d =n= Fin 1100
          /\ gross d =n= Fin 100
          /\ fees d =n= Fin (5 * rate)
          /\ PositionCard.value d =n= Fin (100 - 5 * rate)
          /\ percent d =n= Fin ((100 - 5 * rate) / 10))
         /\ (marketCurrency p = CHF ->
             PositionCard.value d =n= Fin 95
             /\ percent d =n= Fin (95 # 10))).
Proof.
  split.
  - intros p H. rewrite fees_pnlData. now apply totalFees_fallback.
  - intros tk tick Hprice Hpnl p d rate.
    pose proof (scenario_values tk tick Hprice Hpnl) as H.
    cbv zeta in H. fold p in H. fold d in H. fold rate in H.
    split; [exact H |].
    intro Hchf. destruct H as (_ & _ & _ & _ & Hv & Hp).
    subst rate. rewrite Hchf in Hv, Hp. simpl rateOf in Hv, Hp.
    split.
    + etransitivity; [exact Hv |]. vm_compute. reflexivity.
    + etransitivity; [exact Hp |]. vm_compute. reflexivity.
Qed.

(** The scenario on a Swiss ticker, merged through [mergePrices]: the
    figures of the scenario, net P&L 95 and 9.5 percent. *)
Lemma pnlData_fees_and_valuation_scenario_witness :
  let p := withLive (valuationPosition "NESN.SW") (priceTick 110) in
  let d := pnlData p in
  mergePrices {| success := true;
                 prices := Some {[ "NESN.SW"%string := priceTick 110 ]} |}
              [valuationPosition "NESN.SW"] = [p]
  /\ nativeCommission p = None
  /\ fees d = (Fin 5 * Fin 1)%js
  /\ PositionCard.invested d =n= Fin 1000
  /\ currentValue d =n= Fin 1100
  /\ gross d =n= Fin 100
  /\ PositionCard.value d =n= Fin 95
  /\ percent d =n= Fin (95 # 10).
Proof.
  intros p d.
  destruct pnlData_fees_and_valuation_scenario as [Hfees Hscen].
  pose proof (Hfees p eq_refl) as Hf.
  pose proof (Hscen "NESN.SW"%string (priceTick 110) eq_refl eq_refl) as Hs.
  cbv zeta in Hs. fold p in Hs. fold d in Hs.
  destruct Hs as [(Hi & Hc & Hg & _ & _ & _) Hchf].
  destruct (Hchf eq_refl) as [Hv Hp].
  split; [reflexivity |].
  split; [reflexivity |].
  split; [exact Hf |].
  repeat split; assumption.
Defined.

(** C1, counter-example.  The same position on a ticker without a market
    suffix (a USD ticker): the fee figure is 5 x 1.13 = 5.65, not the ledger
    5, hence net P&L 94.35 and 9.435 percent, not 95 and 9.5. *)
Lemma pnlData_usd_ticker_converts_fees :
  let p := withLive (valuationPosition "AAPL") (priceTick 110) in
  let d := pnlData p in
  mergePrices {| success := true;
                 prices := Some {[ "AAPL"%string := priceTick 110 ]} |}
              [valuationPosition "AAPL"] = [p]
  /\ nativeCommission p = None
  /\ fees d =n= Fin (565 # 100)
  /\ PositionCard.value d =n= Fin (9435 # 100)
  /\ percent d =n= Fin (9435 # 1000)
  /\ ~ fees d =n= Fin (5 + 0)
  /\ ~ PositionCard.value d =n= Fin 95
  /\ ~ percent d =n= Fin (95 # 10).
Proof.
  intros p d. vm_compute.
  repeat split; try reflexivity; intro H; discriminate H.
Qed.

(** *** The percentage *)

Lemma pnlData_local_percent (p : Position) :
  Tick.pnl (liveData_of p) = None ->
  pnl_value p = None ->
  exists e q v : Q,
    PositionCard.invested (pnlData p) = Fin (e * q)
    /\ percent (pnlData p)
       = orNum (Number (if Qlt_bool 0 (e * q)
                        then (Fin v / Fin (e * q) * Fin 100)%js
                        else Fin 0))
               (Fin 0).
Proof.
  intros Hpnl Hval.
  unfold pnlData, totalFees_of. rewrite Hpnl, Hval. simpl.
  rewrite rate_lookup.
  destruct (is_finite_inv _ (orNum_get_finite (entry_price p) (Fin 0) I))
    as [e He].
  destruct (is_finite_inv _ (orNum_get_finite (Model.quantity p) (Fin 1) I))
    as [q Hq].
  destruct (is_finite_inv _ (orNum_get_finite (buy_commission p) (Fin 0) I))
    as [b Hb].
  destruct (is_finite_inv _ (orNum_get_finite (sell_commission p) (Fin 0) I))
    as [s Hs].
  destruct (is_finite_inv _ (orNum_get_finite (exit_price p) (resolvedPrice p)
                               (resolvedPrice_finite p)))
    as [x Hx].
  rewrite He, Hq, Hb, Hs, Hx. simpl.
  exists e, q, (x * q + - (e * q) + - ((b + s) * rateOf (marketCurrency p))).
  split; reflexivity.
Qed.




(** *** Target evaluation *)

Lemma orNum_absent (f : option Q) (d : num) : absent f -> orNum (get f) d = d.
Proof.
  destruct f as [q |]; simpl; intro H.
  - now apply orNum_get_zero.
  - reflexivity.
Qed.

Lemma alertType_unpriced (p : Position) :
  truthy (currentPrice (pnlData p)) = false -> alertType p = None.
Proof.
  intro H. unfold alertType. rewrite H. simpl.
  now rewrite orb_true_r.
Qed.

(** C10.  An open position whose live price, stored current price, exit
    price and entry price are all absent or zero has resolved price 0 and
    [alertType] null; and whenever the resolved price is 0 [alertType] is
    null, so no stop-loss is reported at a zero or missing price. *)
Theorem alertType_none_without_price (p : Position) :
  status p = open ->
  (absent (Tick.price (liveData_of p))
   /\ absent (current_price p)
   /\ absent (exit_price p)
   /\ absent (entry_price p))
  \/ currentPrice (pnlData p) =n= Fin 0 ->
  alertType p = None /\ alertType p <> Some alert_sl.
Proof.
  intros _ H.
  assert (Hnone : alertType p = None).
  { apply alertType_unpriced.
    destruct H as [(H1 & H2 & H3 & H4) | H].
    - rewrite currentPrice_pnlData, resolvedPrice_chain.
      rewrite !orNum_absent by assumption. reflexivity.
    - destruct (currentPrice (pnlData p)); simpl in H; try tauto.
      now apply truthy_Fin_false. }
  split; [exact Hnone | rewrite Hnone; discriminate].
Qed.

Lemma alertType_none_without_price_witness :
  stop_loss unpricedPosition = Some 90
  /\ alertType unpricedPosition = None
  /\ alertType unpricedPosition <> Some alert_sl.
Proof.
  split; [reflexivity |].
  apply (alertType_none_without_price unpricedPosition eq_refl).
  left. repeat split.
Defined.

Lemma below_level_spec (f : option Q) (c : Q) :
  truthyV (get f) && (Fin c <=? toNumber (get f))%js = true
  <-> exists s, f = Some s /\ ~ s == 0 /\ c <= s.
Proof.
  rewrite andb_true_iff. destruct f as [s |]; simpl.
  - rewrite negb_true_iff, Qeq_bool_false_iff, Qle_bool_iff. split.
    + intros [H1 H2]. now exists s.
    + intros (s' & E & H1 & H2). injection E as <-. now split.
  - split; [intros [H _]; discriminate | intros (s & E & _); discriminate].
Qed.

Lemma above_level_spec (f : option Q) (c : Q) :
  truthyV (get f) && (Fin c >=? toNumber (get f))%js = true
  <-> exists t, f = Some t /\ ~ t == 0 /\ t <= c.
Proof.
  rewrite andb_true_iff. destruct f as [s |]; simpl.
  - rewrite negb_true_iff, Qeq_bool_false_iff, Qle_bool_iff. split.
    + intros [H1 H2]. now exists s.
    + intros (s' & E & H1 & H2). injection E as <-. now split.
  - split; [intros [H _]; discriminate | intros (s & E & _); discriminate].
Qed.

Lemma alertType_priced (p : Position) (c : Q) :
  status p = open ->
  currentPrice (pnlData p) = Fin c ->
  ~ c == 0 ->
  alertType p
  = if truthyV (get (stop_loss p))
       && (Fin c <=? toNumber (get (stop_loss p)))%js
    then Some alert_sl
    else if truthyV (get (take_profit_2 p))
            && (Fin c >=? toNumber (get (take_profit_2 p)))%js
    then Some alert_tp2
    else if truthyV (get (take_profit_1 p))
            && (Fin c >=? toNumber (get (take_profit_1 p)))%js
    then Some alert_tp1
    else None.
Proof.
  intros Hst Hc Hnz. unfold alertType. rewrite Hst, Hc.
  apply truthy_Fin in Hnz. rewrite Hnz. reflexivity.
Qed.

Lemma not_true_false (b : bool) (P : Prop) :
  (b = true <-> P) -> ~ P -> b = false.
Proof. destruct b; intuition. Qed.

(** C3.  For an open position at a non-zero price [c]: a reached stop-loss
    wins whatever the take-profit levels; otherwise a reached take-profit 2
    wins over take-profit 1; otherwise a reached take-profit 1 is reported;
    otherwise nothing.  Conversely, for every position, a reported
    take-profit 2 means the stop-loss was not reached, and a reported
    take-profit 1 means neither the stop-loss nor take-profit 2 was.  With
    stop-loss 90, take-profit 1 at 110, take-profit
    2 at 120 and price 125 the result is ['tp2'].  A position that is not
    open yields null. *)
Theorem alertType_priority :
  (forall (p : Position) (c : Q),
      status p = open ->
      currentPrice (pnlData p) = Fin c ->
      ~ c == 0 ->
      (stopLossReached p c -> alertType p = Some alert_sl)
      /\ (~ stopLossReached p c -> takeProfit2Reached p c ->
          alertType p = Some alert_tp2)
      /\ (~ stopLossReached p c -> ~ takeProfit2Reached p c ->
          takeProfit1Reached p c -> alertType p = Some alert_tp1)
      /\ (~ stopLossReached p c -> ~ takeProfit2Reached p c ->
          ~ takeProfit1Reached p c -> alertType p = None))
  /\ (forall (p : Position) (c : Q),
         currentPrice (pnlData p) = Fin c ->
         (alertType p = Some alert_sl -> stopLossReached p c)
         /\ (alertType p = Some alert_tp2 ->
             ~ stopLossReached p c /\ takeProfit2Reached p c)
         /\ (alertType p = Some alert_tp1 ->
             ~ stopLossReached p c /\ ~ takeProfit2Reached p c
             /\ takeProfit1Reached p c))
  /\ alertType (targetsPosition 90 110 120 125 open) = Some alert_tp2
  /\ (forall p : Position, status p <> open -> alertType p = None).
Proof.
  split; [| split; [| split]].
  - intros p c Hst Hc Hnz.
    rewrite (alertType_priced p c Hst Hc Hnz).
    pose proof (below_level_spec (stop_loss p) c) as Hsl.
    pose proof (above_level_spec (take_profit_2 p) c) as Htp2.
    pose proof (above_level_spec (take_profit_1 p) c) as Htp1.
    fold (stopLossReached p c) in Hsl.
    fold (takeProfit2Reached p c) in Htp2.
    fold (takeProfit1Reached p c) in Htp1.
    repeat split.
    + intro H. apply Hsl in H. now rewrite H.
    + intros N H. rewrite (not_true_false _ _ Hsl N).
      apply Htp2 in H. now rewrite H.
    + intros N1 N2 H.
      rewrite (not_true_false _ _ Hsl N1), (not_true_false _ _ Htp2 N2).
      apply Htp1 in H. now rewrite H.
    + intros N1 N2 N3.
      now rewrite (not_true_false _ _ Hsl N1), (not_true_false _ _ Htp2 N2),
        (not_true_false _ _ Htp1 N3).
  - intros p c Hc.
    destruct (Status_eqb (status p) open) eqn:Hst;
      [| unfold alertType; rewrite Hst; simpl; repeat split; discriminate].
    destruct (truthy (Fin c)) eqn:Hnz;
      [| rewrite (alertType_unpriced p) by (now rewrite Hc);
         repeat split; discriminate].
    apply Status_eqb_open in Hst. apply truthy_Fin in Hnz.
    rewrite (alertType_priced p c Hst Hc Hnz).
    pose proof (below_level_spec (stop_loss p) c) as Hsl.
    pose proof (above_level_spec (take_profit_2 p) c) as Htp2.
    pose proof (above_level_spec (take_profit_1 p) c) as Htp1.
    fold (stopLossReached p c) in Hsl.
    fold (takeProfit2Reached p c) in Htp2.
    fold (takeProfit1Reached p c) in Htp1.
    destruct (truthyV (get (stop_loss p))
              && (Fin c <=? toNumber (get (stop_loss p)))%js) eqn:E1.
    { split; [intros _; now apply Hsl |].
      split; intro H; discriminate H. }
    assert (N1 : ~ stopLossReached p c)
      by (intro H; apply Hsl in H; discriminate).
    destruct (truthyV (get (take_profit_2 p))
              && (Fin c >=? toNumber (get (take_profit_2 p)))%js) eqn:E2.
    { split; [intro H; discriminate H |].
      split; [| intro H; discriminate H].
      intros _. split; [exact N1 | now apply Htp2]. }
    assert (N2 : ~ takeProfit2Reached p c)
      by (intro H; apply Htp2 in H; discriminate).
    destruct (truthyV (get (take_profit_1 p))
              && (Fin c >=? toNumber (get (take_profit_1 p)))%js) eqn:E3.
    { split; [intro H; discriminate H |].
      split; [intro H; discriminate H |].
      intros _. split; [exact N1 |]. split; [exact N2 | now apply Htp1]. }
    split; [intro H; discriminate H |].
    split; intro H; discriminate H.
  - reflexivity.
  - intros p Hst. unfold alertType.
    destruct (status p); try contradiction; reflexivity.
Qed.

Lemma alertType_priority_witness :
  let p := targetsPosition 90 110 120 125 open in
  currentPrice (pnlData p) = Fin 125
  /\ takeProfit1Reached p 125
  /\ takeProfit2Reached p 125
  /\ alertType p = Some alert_tp2
  /\ alertType (targetsPosition 90 110 120 85 open) = Some alert_sl
  /\ alertType (targetsPosition 90 110 120 125 closed) = None.
Proof.
  intro p.
  destruct alertType_priority as (Hopen & _ & _ & Hclosed).
  assert (H1 : takeProfit1Reached p 125).
  { exists 110. repeat split.
    - intro H. discriminate H.
    - discriminate. }
  assert (H2 : takeProfit2Reached p 125).
  { exists 120. repeat split.
    - intro H. discriminate H.
    - discriminate. }
  assert (N : ~ stopLossReached p 125).
  { intros (s & E & _ & Hle). injection E as <-.
    apply Qle_bool_iff in Hle. discriminate Hle. }
  assert (Hc : ~ 125 == 0) by (intro H; discriminate H).
  destruct (Hopen p 125 eq_refl eq_refl Hc) as (_ & Htp2 & _).
  assert (H85 : ~ 85 == 0) by (intro H; discriminate H).
  destruct (Hopen (targetsPosition 90 110 120 85 open) 85 eq_refl eq_refl H85)
    as (Hsl & _).
  split; [reflexivity |].
  split; [exact H1 |].
  split; [exact H2 |].
  split; [exact (Htp2 N H2) |].
  split.
  - apply Hsl. exists 90. repeat split.
    + intro H. discriminate H.
    + discriminate.
  - apply Hclosed. discriminate.
Defined.

(** *** The targets bar *)

(** The levels of the bar are finite numbers. *)
Lemma markerRange_finite (p : Position) :
  exists s t : Q, markerRange p = (Fin s, Fin t).
Proof.
  unfold markerRange. rewrite currentPrice_pnlData.
  destruct (is_finite_inv _ (resolvedPrice_finite p)) as [c Hc]. rewrite Hc.
  destruct (is_finite_inv _ (orNum_get_finite (entry_price p) (Fin c) I))
    as [e He]. rewrite He. simpl.
  destruct (is_finite_inv _ (orNum_get_finite (stop_loss p)
                               (Fin (e * (95 # 100))) I)) as [s Hs].
  destruct (is_finite_inv _ (orNum_get_finite (take_profit_1 p)
                               (Fin (e * (105 # 100))) I)) as [t1 Ht1].
  rewrite Hs, Ht1. simpl.
  destruct (is_finite_inv _ (orNum_get_finite (take_profit_2 p)
                               (Fin (t1 * (105 # 100))) I)) as [t2 Ht2].
  rewrite Ht2. now exists s, t2.
Qed.

Lemma max_min_clamp (x : Q) :
  JSNum.max (Fin 2) (JSNum.min (Fin 98) (Fin x)) =n= Fin (clamp x).
Proof.
  unfold clamp, JSNum.min, JSNum.max, leb.
  destruct (Qle_bool 98 x) eqn:E1.
  - apply Qle_bool_iff in E1.
    replace (Qle_bool 2 98) with true by reflexivity.
    unfold num_eq.
    rewrite (Q.min_l 98 x E1). rewrite Q.max_r by lra. reflexivity.
  - apply Qle_bool_false_iff in E1.
    destruct (Qle_bool 2 x) eqn:E2; unfold num_eq.
    + apply Qle_bool_iff in E2.
      rewrite (Q.min_r 98 x) by lra. rewrite Q.max_r by lra. reflexivity.
    + apply Qle_bool_false_iff in E2.
      rewrite (Q.min_r 98 x) by lra. rewrite Q.max_l by lra. reflexivity.
Qed.

Lemma clamp_bounds (x : Q) : 2 <= clamp x <= 98.
Proof.
  unfold clamp. split.
  - apply Q.le_max_l.
  - apply Q.max_lub; [lra | apply Q.le_min_l].
Qed.

(** The marker: the price mapped linearly onto the range of the bar and
    clamped to [2, 98]; 50 when the range has no positive width. *)
Lemma markerPosition_spec (p : Position) (c s t : Q) :
  currentPrice (pnlData p) = Fin c ->
  markerRange p = (Fin s, Fin t) ->
  (t - s <= 0 -> markerPosition p = Fin 50)
  /\ (0 < t - s ->
      markerPosition p =n= Fin (clamp ((c - s) / (t - s) * 100))).
Proof.
  intros Hc Hr. unfold markerPosition. rewrite Hc, Hr. simpl.
  split; intro H.
  - assert (E : Qle_bool (t + - s) 0 = true) by (apply Qle_bool_iff; lra).
    now rewrite E.
  - assert (E : Qle_bool (t + - s) 0 = false)
      by (apply Qle_bool_false_iff; lra).
    assert (E0 : Qeq_bool (t + - s) 0 = false)
      by (apply Qeq_bool_false_iff; lra).
    rewrite E, E0.
    etransitivity; [apply max_min_clamp |].
    simpl. unfold clamp.
    assert (Heq : (c + - s) / (t + - s) * 100 == (c - s) / (t - s) * 100)
      by reflexivity.
    now rewrite Heq.
Qed.

Lemma markerPosition_clamped (p : Position) :
  exists m : Q, markerPosition p =n= Fin m /\ 2 <= m <= 98.
Proof.
  destruct (markerRange_finite p) as (s & t & Hr).
  destruct (is_finite_inv _ (resolvedPrice_finite p)) as [c Hc].
  rewrite <- currentPrice_pnlData in Hc.
  destruct (markerPosition_spec p c s t Hc Hr) as [Hz Hl].
  destruct (Qlt_le_dec 0 (t - s)) as [Hpos | Hneg].
  - exists (clamp ((c - s) / (t - s) * 100)). split.
    + now apply Hl.
    + apply clamp_bounds.
  - exists 50. split.
    + rewrite (Hz Hneg). reflexivity.
    + lra.
Qed.

(** With [take_profit_2] set, marker and reference lines share one range. *)
Lemma ranges_agree_with_take_profit_2 (p : Position) (t : Q) :
  take_profit_2 p = Some t -> ~ t == 0 -> markerRange p = referenceRange p.
Proof.
  intros Ht Hnz. unfold markerRange, referenceRange.
  rewrite Ht, !orNum_get_Some by assumption. reflexivity.
Qed.

(** C5, evaluated where [take_profit_2] is not set.  Entry 100, stop-loss
    90, take-profit 1 at 120, price 100: [markerPosition] defaults the upper
    end of the bar to [tp1 * 1.05 = 126], [entryPosition] and [tp1Position]
    default it to [entry * 1.1 = 110].  The price equals the entry price, yet
    the marker sits at 27.8 percent and the entry line at 50 percent, and the
    take-profit 1 line at 150 percent lies beyond the end of the bar. *)
Theorem marker_and_reference_ranges_differ :
  let p := noTp2Position in
  currentPrice (pnlData p) = Fin 100
  /\ entry_price p = Some 100
  /\ fst (markerRange p) =n= Fin 90
  /\ snd (markerRange p) =n= Fin 126
  /\ fst (referenceRange p) =n= Fin 90
  /\ snd (referenceRange p) =n= Fin 110
  /\ markerPosition p =n= Fin (250 # 9)
  /\ entryPosition p =n= Fin 50
  /\ tp1Position p =n= Fin 150
  /\ ~ markerPosition p =n= entryPosition p.
Proof.
  intro p. vm_compute.
  repeat split; try reflexivity. intro H. discriminate H.
Qed.

End PositionCardFacts.

(** ** Live merge and aggregate stats (portfolio-page.js) *)

Module PortfolioPageFacts.

Import PortfolioPage Scenarios.

(** *** The merge *)

Lemma withLive_withLive (p : Position) (a b : Tick.LiveData) :
  withLive (withLive p a) b = withLive p b.
Proof. reflexivity. Qed.

Lemma applyLive_status (prices : gmap string Tick.LiveData) (p : Position) :
  status (applyLive prices p) = status p.
Proof.
  unfold applyLive. destruct (Status_eqb (status p) open); [| reflexivity].
  destruct (prices !! ticker p); reflexivity.
Qed.

Lemma applyLive_ticker (prices : gmap string Tick.LiveData) (p : Position) :
  ticker (applyLive prices p) = ticker p.
Proof.
  unfold applyLive. destruct (Status_eqb (status p) open); [| reflexivity].
  destruct (prices !! ticker p); reflexivity.
Qed.

Lemma settle_applyLive (prices : gmap string Tick.LiveData)
      (r : PriceResult) (rest : list PriceResult) (p : Position) :
  success r = true ->
  PortfolioPage.prices r = Some prices ->
  settle rest (applyLive prices p) = settle (r :: rest) p.
Proof.
  intros Hs Hp. unfold settle, isOpen.
  rewrite applyLive_status, applyLive_ticker. simpl latestTick.
  rewrite Hs, Hp. unfold applyLive.
  destruct (Status_eqb (status p) open); [| reflexivity].
  destruct (latestTick rest (ticker p)) as [ld' |];
    destruct (prices !! ticker p) as [ld |]; reflexivity.
Qed.

Lemma settle_skipped (r : PriceResult) (rest : list PriceResult)
      (p : Position) :
  success r = false \/ prices r = None ->
  settle (r :: rest) p = settle rest p.
Proof.
  intro H. unfold settle. simpl latestTick.
  destruct (isOpen p); [| reflexivity].
  destruct (latestTick rest (ticker p)); [reflexivity |].
  destruct H as [H | H]; rewrite H; [reflexivity |].
  destruct (success r); reflexivity.
Qed.

Lemma merge_sequence (results : list PriceResult) (ps : list Position) :
  fold_left (fun ps r => mergePrices r ps) results ps
  = map (settle results) ps.
Proof.
  revert ps. induction results as [| r rest IH]; intro ps.
  - simpl. induction ps as [| p ps IHps]; [reflexivity |].
    simpl. rewrite <- IHps. unfold settle. simpl.
    destruct (isOpen p); reflexivity.
  - simpl fold_left. rewrite IH. unfold mergePrices.
    destruct (success r) eqn:Hs.
    + destruct (prices r) as [prices |] eqn:Hp.
      * rewrite map_map. apply map_ext. intro p.
        now apply settle_applyLive.
      * apply map_ext. intro p. symmetry. apply settle_skipped. now right.
    + apply map_ext. intro p. symmetry. apply settle_skipped. now left.
Qed.

Lemma onmessage_positions (frame : option PriceResult) (pg : Page) :
  positions (onmessage frame pg)
  = match frame with
    | Some r => mergePrices r (positions pg)
    | None => positions pg
    end.
Proof.
  unfold onmessage, mergePrices. destruct frame as [r |]; [| reflexivity].
  destruct (success r); [| reflexivity].
  destruct (prices r); reflexivity.
Qed.

Lemma onmessage_sequence (frames : list (option PriceResult)) (pg : Page) :
  positions (fold_left (fun pg f => onmessage f pg) frames pg)
  = map (settle (decoded frames)) (positions pg).
Proof.
  rewrite <- merge_sequence. revert pg.
  induction frames as [| f frames IH]; intro pg; [reflexivity |].
  simpl fold_left at 1. rewrite IH, onmessage_positions.
  destruct f as [r |]; reflexivity.
Qed.

(** C7.  One merge leaves a position that is not open, or whose ticker the
    batch does not carry, as it is; an open position whose ticker the batch
    carries keeps its ledger fields and has every live field taken from
    that tick, whatever its live fields were before.  After any sequence of batches (through [mergePrices], or as
    frames through the [onmessage] handler) each position is the original
    one, untouched or overlaid with the latest tick of its ticker alone. *)
Theorem merge_reflects_latest_tick_only :
  (forall (prices : gmap string Tick.LiveData) (p : Position),
      status p <> open \/ prices !! ticker p = None ->
      applyLive prices p = p)
  /\ (forall (prices : gmap string Tick.LiveData) (p : Position)
             (ld : Tick.LiveData),
         status p = open ->
         prices !! ticker p = Some ld ->
         let p' := applyLive prices p in
         p' = withLive p ld
         /\ current_price p' = Tick.price ld
         /\ live_data p' = Some ld
         /\ pnl_value p' = pnl_field Tick.pnl_net ld
         /\ pnl_percent p' = pnl_field Tick.pnl_percent ld
         /\ pnl_gross p' = pnl_field Tick.pnl_gross ld
         /\ current_value p' = pnl_field Tick.current_value ld
         /\ Model.invested p' = pnl_field Tick.invested ld
         /\ p' = withLive (ledgerOnly p) ld)
  /\ (forall (results : list PriceResult) (ps : list Position),
         fold_left (fun ps r => mergePrices r ps) results ps
         = map (settle results) ps)
  /\ (forall (frames : list (option PriceResult)) (pg : Page),
         positions (fold_left (fun pg f => onmessage f pg) frames pg)
         = map (settle (decoded frames)) (positions pg)).
Proof.
  split; [| split; [| split]].
  - intros prices p H. unfold applyLive.
    destruct (Status_eqb (status p) open) eqn:E; [| reflexivity].
    apply Status_eqb_open in E.
    destruct H as [H | H]; [contradiction | now rewrite H].
  - intros prices p ld Hst Hl p'. subst p'. unfold applyLive.
    rewrite Hst, Hl. simpl. repeat split; reflexivity.
  - exact merge_sequence.
  - exact onmessage_sequence.
Qed.

Lemma merge_reflects_latest_tick_only_witness :
  let p1 := applyLive {[ "AAPL"%string := pnlTick 110 5 7 ]} openA in
  let ps := fold_left (fun ps r => mergePrices r ps)
                      [firstResult; secondResult] [openA; closedC] in
  pnl_value p1 = Some 5
  /\ ps = [withLive openA (priceTick 120); closedC]
  /\ ps = [withLive (ledgerOnly openA) (priceTick 120); closedC]
  /\ applyLive {[ "AAPL"%string := priceTick 120 ]} closedC = closedC.
Proof.
  intros p1 ps.
  destruct merge_reflects_latest_tick_only as (Hkeep & Hopen & Hseq & _).
  pose proof (Hopen {[ "AAPL"%string := pnlTick 110 5 7 ]} openA
                    (pnlTick 110 5 7) eq_refl eq_refl) as H1.
  cbv zeta in H1. destruct H1 as (_ & _ & _ & Hv & _).
  pose proof (Hopen {[ "AAPL"%string := priceTick 120 ]} openA
                    (priceTick 120) eq_refl eq_refl) as H2.
  cbv zeta in H2. destruct H2 as (_ & _ & _ & _ & _ & _ & _ & _ & Hl).
  split; [exact Hv |].
  split; [subst ps; rewrite Hseq; reflexivity |].
  split; [subst ps; rewrite Hseq; reflexivity |].
  apply Hkeep. left. discriminate.
Defined.

(** *** The aggregate *)

Lemma fold_accumulate (l : list Position) (acc : Totals) :
  let t := fold_left accumulate l acc in
  totalInvested t =n= (totalInvested acc + sum (map investedOf l))%js
  /\ totalValue t =n= (totalValue acc + sum (map valueOf l))%js
  /\ totalPnlOpen t =n= (totalPnlOpen acc + sum (map pnlOf l))%js.
Proof.
  revert acc. induction l as [| p l IH]; intro acc; simpl.
  - repeat split.
    + destruct (totalInvested acc); simpl; auto; lra.
    + destruct (totalValue acc); simpl; auto; lra.
    + destruct (totalPnlOpen acc); simpl; auto; lra.
  - destruct (IH (accumulate acc p)) as (Hi & Hv & Hp). simpl in Hi, Hv, Hp.
    repeat split.
    + etransitivity; [exact Hi |]. symmetry. apply add_assoc.
    + etransitivity; [exact Hv |]. symmetry. apply add_assoc.
    + etransitivity; [exact Hp |]. symmetry. apply add_assoc.
Qed.

Lemma orNum_Number_finite (r : Q) :
  (orNum (Number (Fin r)) (Fin 0)) =n= Fin r.
Proof.
  unfold orNum. simpl. destruct (Qeq_bool r 0) eqn:E; simpl.
  - apply Qeq_bool_iff in E. lra.
  - reflexivity.
Qed.

Lemma sum_map_Fin (A : Type) (f : A -> num) (g : A -> Q) (l : list A) :
  (forall a, In a l -> f a =n= Fin (g a)) ->
  sum (map f l) =n= Fin (sumQ (map g l)).
Proof.
  induction l as [| a l IH]; intro H; [simpl; lra |].
  change (sum (map f (a :: l))) with (f a + sum (map f l))%js.
  change (Fin (sumQ (map g (a :: l))))
    with (Fin (g a) + Fin (sumQ (map g l)))%js.
  apply add_proper.
  - apply H. now left.
  - apply IH. intros b Hb. apply H. now right.
Qed.

(** The terms of the loop on a position that carries its three figures. *)
Lemma terms_of_carried_figures (p : Position) :
  carriesFigures p ->
  investedOf p =n= Fin (figure (Model.invested p))
  /\ valueOf p =n= Fin (figure (current_value p))
  /\ pnlOf p =n= Fin (figure (pnl_value p)).
Proof.
  intros ((i & Hi & Hi0) & (v & Hv & Hv0) & (n & Hn)).
  unfold valueOf, investedOf, pnlOf. rewrite Hi, Hv, Hn.
  rewrite (orNum_get_Some i) by exact Hi0.
  rewrite (orNum_get_Some v) by exact Hv0.
  simpl figure. repeat split; try reflexivity.
  apply orNum_Number_finite.
Qed.

(** The terms of the loop on a position that carries none of them. *)
Lemma terms_without_figures (p : Position) (e : Q) :
  Model.invested p = None -> current_value p = None -> pnl_value p = None ->
  entry_price p = Some e ->
  let q := match quantity p with
           | Some q => if Qeq_bool q 0 then 1 else q
           | None => 1
           end in
  investedOf p = Fin (e * q)
  /\ valueOf p = Fin (e * q)
  /\ pnlOf p = Fin 0.
Proof.
  intros Hi Hv Hn He q. subst q.
  unfold valueOf, investedOf, pnlOf. rewrite Hi, Hv, Hn, He.
  rewrite !orNum_get_None.
  destruct (quantity p) as [q |]; [| repeat split; reflexivity].
  unfold orNum. simpl.
  destruct (Qeq_bool q 0); repeat split; reflexivity.
Qed.

Lemma stats_of_one (p : Position) (stats : Stats) :
  status p = open ->
  let s := _updateStatsFromPositions [p] stats in
  PortfolioPage.invested s =n= investedOf p
  /\ PortfolioPage.value s =n= valueOf p
  /\ pnlOpen s =n= pnlOf p.
Proof.
  intros Hp s. subst s. unfold _updateStatsFromPositions.
  cbn [List.filter]. unfold isOpen. rewrite Hp. cbn [Status_eqb fold_left].
  unfold accumulate. cbn [totalInvested totalValue totalPnlOpen
                          PortfolioPage.invested PortfolioPage.value pnlOpen].
  repeat split; apply add_zero_l.
Qed.

(** C6 (corrected).  [_updateStatsFromPositions] folds over the positions
    with status open and no others.  For each it adds [p.invested], or
    [entry_price * (quantity || 1)] when that is absent or zero;
    [p.current_value], or that invested figure when it is absent or zero;
    and [p.pnl_value], or 0.  When every open position carries the three
    figures (invested amount and current value not zero), as after a tick
    whose [pnl] block supplies them, the aggregate is the sum of the
    positions' invested amounts, current values and net P&L.  After a tick
    without [pnl] block a position counts for [entry_price * quantity] both
    as invested amount and as value, and for 0 as P&L, whatever the price
    of the tick.  The recompute counts the open positions, keeps the
    realized P&L it was given, and the global P&L is the open sum plus that
    realized P&L; a price frame leaves the realized P&L as it was. *)
Theorem stats_fold_stored_figures_of_open_positions :
  (forall (ps : list Position) (stats : Stats),
      let s := _updateStatsFromPositions ps stats in
      let opens := List.filter (fun p => Status_eqb (status p) open) ps in
      let entryCost := fun p : Position =>
        (toNumber (get (entry_price p)) * orNum (get (quantity p)) (Fin 1))%js in
      (forall p, In p opens <-> In p ps /\ status p = open)
      /\ openPositions s = List.length opens
      /\ PortfolioPage.invested s
         =n= sum (map (fun p => orNum (get (Model.invested p)) (entryCost p))
                      opens)
      /\ PortfolioPage.value s
         =n= sum (map (fun p => orNum (get (current_value p))
                                      (orNum (get (Model.invested p))
                                             (entryCost p)))
                      opens)
      /\ pnlOpen s
         =n= sum (map (fun p => orNum (get (pnl_value p)) (Fin 0)) opens)
      /\ ((forall p, In p opens -> carriesFigures p) ->
          PortfolioPage.invested s
          =n= Fin (sumQ (map (fun p => figure (Model.invested p)) opens))
          /\ PortfolioPage.value s
             =n= Fin (sumQ (map (fun p => figure (current_value p)) opens))
          /\ pnlOpen s
             =n= Fin (sumQ (map (fun p => figure (pnl_value p)) opens)))
      /\ pnlRealized s = pnlRealized stats
      /\ pnlGlobal s
         = (pnlOpen s + orNum (Number (pnlRealized stats)) (Fin 0))%js
      /\ (forall r : Q, pnlRealized stats = Fin r ->
          pnlGlobal s =n= (pnlOpen s + Fin r)%js))
  /\ (forall (ps ps' : list Position) (stats : Stats),
         List.filter (fun p => Status_eqb (status p) open) ps
         = List.filter (fun p => Status_eqb (status p) open) ps' ->
         _updateStatsFromPositions ps stats
         = _updateStatsFromPositions ps' stats)
  /\ (forall (frame : option PriceResult) (pg : Page),
         pnlRealized (PortfolioPage.stats (onmessage frame pg))
         = pnlRealized (PortfolioPage.stats pg))
  /\ (forall (p : Position) (liveData : Tick.LiveData) (b : Tick.Pnl)
             (i v n : Q) (stats : Stats),
         status p = open ->
         Tick.pnl liveData = Some b ->
         Tick.invested b = Some i -> ~ i == 0 ->
         Tick.current_value b = Some v -> ~ v == 0 ->
         Tick.pnl_net b = Some n ->
         let s := _updateStatsFromPositions [withLive p liveData] stats in
         PortfolioPage.invested s =n= Fin i
         /\ PortfolioPage.value s =n= Fin v
         /\ pnlOpen s =n= Fin n)
  /\ (forall (p : Position) (liveData : Tick.LiveData) (e : Q)
             (stats : Stats),
         status p = open ->
         Tick.pnl liveData = None ->
         entry_price p = Some e ->
         let q := match quantity p with
                  | Some q => if Qeq_bool q 0 then 1 else q
                  | None => 1
                  end in
         let s := _updateStatsFromPositions [withLive p liveData] stats in
         PortfolioPage.invested s =n= Fin (e * q)
         /\ PortfolioPage.value s =n= Fin (e * q)
         /\ pnlOpen s =n= Fin 0).
Proof.
  split; [| split; [| split; [| split]]].
  - intros ps stats s opens entryCost.
    pose proof (fold_accumulate opens (mkTotals (Fin 0) (Fin 0) (Fin 0)))
      as H. cbv zeta in H. destruct H as (Hi & Hv & Hp). simpl in Hi, Hv, Hp.
    assert (Si : PortfolioPage.invested s =n= sum (map investedOf opens))
      by (etransitivity; [exact Hi | apply add_zero_l]).
    assert (Sv : PortfolioPage.value s =n= sum (map valueOf opens))
      by (etransitivity; [exact Hv | apply add_zero_l]).
    assert (Sp : pnlOpen s =n= sum (map pnlOf opens))
      by (etransitivity; [exact Hp | apply add_zero_l]).
    split.
    { intro p. subst opens. rewrite filter_In.
      now rewrite Status_eqb_open. }
    split; [reflexivity |].
    split; [exact Si |].
    split; [exact Sv |].
    split; [exact Sp |].
    split.
    { intro Hall. repeat split.
      - etransitivity; [exact Si |]. apply sum_map_Fin.
        intros p Hp'. apply terms_of_carried_figures. now apply Hall.
      - etransitivity; [exact Sv |]. apply sum_map_Fin.
        intros p Hp'. apply terms_of_carried_figures. now apply Hall.
      - etransitivity; [exact Sp |]. apply sum_map_Fin.
        intros p Hp'. apply terms_of_carried_figures. now apply Hall. }
    split; [reflexivity |].
    split; [reflexivity |].
    intros r Hr. subst s. unfold _updateStatsFromPositions. simpl.
    rewrite Hr. apply add_proper; [reflexivity | apply orNum_Number_finite].
  - intros ps ps' stats H. unfold _updateStatsFromPositions.
    change (List.filter isOpen ps)
      with (List.filter (fun p => Status_eqb (status p) open) ps).
    change (List.filter isOpen ps')
      with (List.filter (fun p => Status_eqb (status p) open) ps').
    now rewrite H.
  - intros frame pg. unfold onmessage.
    destruct frame as [r |]; [| reflexivity].
    destruct (success r); [| reflexivity].
    destruct (prices r); reflexivity.
  - intros p liveData b i v n stats Hp Hb Hi Hi0 Hv Hv0 Hn s.
    destruct (stats_of_one (withLive p liveData) stats Hp) as (Si & Sv & Sp).
    fold s in Si, Sv, Sp.
    assert (Hc : carriesFigures (withLive p liveData)).
    { unfold carriesFigures, withLive, pnl_field. simpl. rewrite Hb.
      split; [exists i; now split |].
      split; [exists v; now split | now exists n]. }
    destruct (terms_of_carried_figures _ Hc) as (Ti & Tv & Tp).
    assert (Ei : Model.invested (withLive p liveData) = Some i)
      by (simpl; unfold pnl_field; now rewrite Hb).
    assert (Ev : current_value (withLive p liveData) = Some v)
      by (simpl; unfold pnl_field; now rewrite Hb).
    assert (En : pnl_value (withLive p liveData) = Some n)
      by (simpl; unfold pnl_field; now rewrite Hb).
    rewrite Ei in Ti. rewrite Ev in Tv. rewrite En in Tp.
    repeat split; etransitivity; eauto.
  - intros p liveData e stats Hp Hb He q s.
    destruct (stats_of_one (withLive p liveData) stats Hp) as (Si & Sv & Sp).
    fold s in Si, Sv, Sp.
    assert (Ei : Model.invested (withLive p liveData) = None)
      by (simpl; unfold pnl_field; now rewrite Hb).
    assert (Ev : current_value (withLive p liveData) = None)
      by (simpl; unfold pnl_field; now rewrite Hb).
    assert (En : pnl_value (withLive p liveData) = None)
      by (simpl; unfold pnl_field; now rewrite Hb).
    destruct (terms_without_figures (withLive p liveData) e Ei Ev En He)
      as (Ti & Tv & Tp).
    cbn [quantity withLive] in Ti, Tv. fold q in Ti, Tv.
    rewrite Ti in Si. rewrite Tv in Sv. rewrite Tp in Sp.
    repeat split; assumption.
Qed.

Lemma stats_fold_stored_figures_of_open_positions_witness :
  PortfolioPage.invested
    (_updateStatsFromPositions [openA; closedC; openD] stats0) =n= Fin 1400
  /\ PortfolioPage.value
       (_updateStatsFromPositions [openA; closedC; openD] stats0)
     =n= Fin 1480
  /\ pnlOpen (_updateStatsFromPositions [openA; closedC; openD] stats0)
     =n= Fin 75
  /\ openPositions (_updateStatsFromPositions [openA; closedC; openD] stats0)
     = 2%nat
  /\ pnlRealized (_updateStatsFromPositions [openA; closedC; openD] stats0)
     = Fin 40
  /\ pnlGlobal (_updateStatsFromPositions [openA; closedC; openD] stats0)
     =n= Fin 115
  /\ _updateStatsFromPositions [openA; openD] stats0
     = _updateStatsFromPositions [openA; closedC; openD] stats0.
Proof.
  destruct stats_fold_stored_figures_of_open_positions
    as (Hsum & Hopen & _).
  pose proof (Hsum [openA; closedC; openD] stats0) as H.
  cbv zeta in H.
  destruct H as (_ & Hn & _ & _ & _ & Hfig & Hr & _ & Hg).
  assert (Hall : forall p,
             In p (List.filter (fun p => Status_eqb (status p) open)
                               [openA; closedC; openD]) ->
             carriesFigures p).
  { intros p [<- | [<- | []]]; unfold carriesFigures; simpl;
      (split; [eexists; split; [reflexivity | discriminate] |]);
      (split; [eexists; split; [reflexivity | discriminate] |]);
      eexists; reflexivity. }
  destruct (Hfig Hall) as (Hi & Hv & Hp).
  split; [etransitivity; [exact Hi | vm_compute; reflexivity] |].
  split; [etransitivity; [exact Hv | vm_compute; reflexivity] |].
  split; [etransitivity; [exact Hp | vm_compute; reflexivity] |].
  split; [exact Hn |].
  split; [exact Hr |].
  split; [etransitivity; [exact (Hg 40 eq_refl) | vm_compute; reflexivity] |].
  apply Hopen. reflexivity.
Defined.

(** C6, counterexample.  The position of the valuation scenario (entry 100,
    quantity 10, commission 5) receives a tick of price 110 without [pnl]
    block.  The card values it at 1100 with a net P&L of 94.35; the
    aggregate counts it for a value of 1000 and a P&L of 0. *)
Lemma stats_ignore_price_only_tick :
  mergePrices priceOnlyResult [valuationPosition "AAPL"]
  = [withLive (valuationPosition "AAPL") (priceTick 110)]
  /\ PositionCard.currentValue
       (PositionCard.pnlData
          (withLive (valuationPosition "AAPL") (priceTick 110)))
     =n= Fin 1100
  /\ PositionCard.value
       (PositionCard.pnlData
          (withLive (valuationPosition "AAPL") (priceTick 110)))
     =n= Fin (9435 # 100)
  /\ PortfolioPage.value
       (_updateStatsFromPositions
          (mergePrices priceOnlyResult [valuationPosition "AAPL"]) stats0)
     =n= Fin 1000
  /\ PortfolioPage.invested
       (_updateStatsFromPositions
          (mergePrices priceOnlyResult [valuationPosition "AAPL"]) stats0)
     =n= Fin 1000
  /\ pnlOpen
       (_updateStatsFromPositions
          (mergePrices priceOnlyResult [valuationPosition "AAPL"]) stats0)
     =n= Fin 0.
Proof.
  assert (E : mergePrices priceOnlyResult [valuationPosition "AAPL"]
              = [withLive (valuationPosition "AAPL") (priceTick 110)]).
  { unfold mergePrices, priceOnlyResult. cbn [success prices map].
    unfold applyLive. cbn [status valuationPosition Status_eqb ticker].
    now rewrite lookup_singleton_eq. }
  split; [exact E |].
  split; [vm_compute; reflexivity |].
  split; [vm_compute; reflexivity |].
  rewrite E.
  split; [vm_compute; reflexivity |].
  split; vm_compute; reflexivity.
Qed.


End PortfolioPageFacts.

(** ** The stream channel (sse-client.js) *)

Module SSEFacts.

Import SSE.

Local Open Scope Z_scope.

(** *** Backoff *)

Lemma backoff_monotone (base a b : Z) :
  0 <= base -> a <= b -> backoff base a <= backoff base b.
Proof. unfold backoff. intros Hb Hab. nia. Qed.

Lemma backoff_capped (base a : Z) : backoff base a <= capDelay.
Proof. unfold backoff. lia. Qed.

Ltac case_step :=
  simpl;
  repeat (match goal with
          | |- context [match ?x with _ => _ end] => destruct x eqn:?
          end; simpl).

(** The configuration never changes. *)
Lemma step_config (w : World) (e : Event) :
  reconnectDelay (client (step w e)) = reconnectDelay (client w)
  /\ maxRetries (client (step w e)) = maxRetries (client w).
Proof.
  destruct e; unfold step, connect, close, onmessage, onerror, onopen,
    _createEventSource; case_step; split; reflexivity.
Qed.

Lemma run_config (es : list Event) (w : World) :
  reconnectDelay (client (run w es)) = reconnectDelay (client w).
Proof.
  revert w. induction es as [| e es IH]; intro w; [reflexivity |].
  change (run w (e :: es)) with (run (step w e) es).
  rewrite IH. apply step_config.
Qed.

(** What one transport error does on a channel that was not closed by hand
    and has retries left: the counter goes up by one and a timer is set
    with the delay [min (reconnectDelay * retries) 30000]. *)
Lemma onerror_schedules (w : World) :
  isManualClose (client w) = false ->
  below_max (retries (client w)) (maxRetries (client w)) = true ->
  let a := retries (client w) + 1 in
  let d := backoff (reconnectDelay (client w)) a in
  retries (client (onerror w)) = a
  /\ timers (onerror w) = timers w ++ [(nextTimer w, d)]
  /\ reconnectTimer (client (onerror w)) = Some (nextTimer w)
  /\ log (onerror w) = log w ++ [OnError; Reconnecting d a].
Proof.
  intros Hm Hb. unfold onerror. simpl. rewrite Hm, Hb. simpl.
  repeat split. now rewrite <- app_assoc.
Qed.

Lemma step_log_ok (w : World) (e : Event) :
  List.Forall (scheduled_ok (reconnectDelay (client w))) (log w) ->
  List.Forall (scheduled_ok (reconnectDelay (client w))) (log (step w e)).
Proof.
  intro H.
  destruct e; unfold step, connect, close, onmessage, onerror, onopen,
    _createEventSource; case_step;
    repeat (apply List.Forall_app; split); try assumption;
    repeat constructor.
Qed.

Lemma run_log_ok (es : list Event) (w : World) :
  List.Forall (scheduled_ok (reconnectDelay (client w))) (log w) ->
  List.Forall (scheduled_ok (reconnectDelay (client w))) (log (run w es)).
Proof.
  revert w. induction es as [| e es IH]; intros w H; [exact H |].
  change (run w (e :: es)) with (run (step w e) es).
  destruct (step_config w e) as [Hc _]. rewrite <- Hc.
  apply IH. rewrite Hc. now apply step_log_ok.
Qed.

(** Which events touch the counter. *)
Lemma step_retries (w : World) (e : Event) :
  retries (client (step w e))
  = match e, eventSource (client w) with
    | Frame _, Some _ => 0
    | Opened, Some _ => 0
    | TransportError, Some _ =>
        if isManualClose (client w) then retries (client w)
        else if below_max (retries (client w)) (maxRetries (client w))
             then retries (client w) + 1
             else retries (client w)
    | _, _ => retries (client w)
    end.
Proof.
  destruct e; unfold step, connect, close, onmessage, onerror, onopen,
    _createEventSource; case_step; reflexivity.
Qed.

Lemma delays_app (w : World) (extra : list Output) :
  flat_map (fun o => match o with Reconnecting d _ => [d] | _ => [] end)
           (log w ++ extra)
  = delays w
    ++ flat_map (fun o => match o with Reconnecting d _ => [d] | _ => [] end)
                extra.
Proof. unfold delays. apply flat_map_app. Qed.

(** [k] transport errors in a row, with retries left for each: the counter
    climbs by one per error and the delays are those of the attempts
    [retries + 1], ..., [retries + k]. *)
Lemma errors_in_a_row (k : nat) (w : World) :
  eventSource (client w) <> None ->
  isManualClose (client w) = false ->
  (forall j, 0 <= j < Z.of_nat k ->
             below_max (retries (client w) + j) (maxRetries (client w)) = true) ->
  let w' := run w (repeat TransportError k) in
  retries (client w') = retries (client w) + Z.of_nat k
  /\ delays w'
     = delays w
       ++ map (fun i => backoff (reconnectDelay (client w))
                                (retries (client w) + Z.of_nat i))
              (seq 1 k).
Proof.
  revert w. induction k as [| k IH]; intros w Hes Hm Hmax; cbv zeta.
  - simpl. split; [lia | now rewrite app_nil_r].
  - change (repeat TransportError (S k))
      with (TransportError :: repeat TransportError k).
    change (run w (TransportError :: repeat TransportError k))
      with (run (step w TransportError) (repeat TransportError k)).
    assert (Hstep : step w TransportError = onerror w).
    { simpl. destruct (eventSource (client w)); [reflexivity | contradiction]. }
    assert (Hb : below_max (retries (client w)) (maxRetries (client w)) = true).
    { rewrite <- (Z.add_0_r (retries (client w))). apply Hmax. lia. }
    destruct (onerror_schedules w Hm Hb) as (Hr & _ & _ & Hlog).
    rewrite Hstep.
    assert (Hes' : eventSource (client (onerror w)) <> None).
    { unfold onerror. simpl. rewrite Hm, Hb. exact Hes. }
    assert (Hm' : isManualClose (client (onerror w)) = false).
    { unfold onerror. simpl. rewrite Hm, Hb. exact Hm. }
    assert (Hcfg : reconnectDelay (client (onerror w)) = reconnectDelay (client w)
                   /\ maxRetries (client (onerror w)) = maxRetries (client w)).
    { unfold onerror. simpl. rewrite Hm, Hb. split; reflexivity. }
    destruct Hcfg as [Hd Hx].
    destruct (IH (onerror w) Hes' Hm') as [IHr IHd].
    { intros j Hj. rewrite Hr, Hx.
      replace (retries (client w) + 1 + j) with (retries (client w) + (j + 1))
        by lia.
      apply Hmax. lia. }
    cbv zeta in IHr, IHd. split.
    + rewrite IHr, Hr. lia.
    + rewrite IHd. unfold delays at 1. rewrite Hlog, delays_app. simpl.
      rewrite <- app_assoc. f_equal. simpl. f_equal.
      rewrite <- (seq_shift k 1), map_map, Hd, Hr.
      apply map_ext. intro i. f_equal. lia.
Qed.

(** C2, as amended.  In every run of a channel, whatever the events, each
    scheduled reconnect has the delay [min (reconnectDelay * retries) 30000]
    of its attempt number; a transport error on a channel not closed by hand
    and with retries left makes the attempt number [retries + 1]; for a
    non-negative base delay the delay does not decrease with the attempt
    number and never exceeds 30000; [k] errors in a row are given the delays
    of [k] successive attempts.  The counter is reset to zero by every
    inbound frame, whether or not its body decodes, and by every open event;
    no other event lowers it. *)
Theorem backoff_linear_capped_reset_on_any_frame :
  (forall (options : Options) (es : list Event),
      List.Forall (scheduled_ok (reconnectDelay (new_SSEClient options)))
                  (log (run (initial options) es)))
  /\ (forall w : World,
         eventSource (client w) <> None ->
         isManualClose (client w) = false ->
         below_max (retries (client w)) (maxRetries (client w)) = true ->
         let w' := step w TransportError in
         retries (client w') = retries (client w) + 1
         /\ timers w'
            = timers w
              ++ [(nextTimer w,
                   Z.min (reconnectDelay (client w) * retries (client w'))
                         30000)])
  /\ (forall base a b : Z,
         0 <= base -> a <= b ->
         backoff base a <= backoff base b <= 30000)
  /\ (forall (k : nat) (w : World),
         eventSource (client w) <> None ->
         isManualClose (client w) = false ->
         maxRetries (client w) = None ->
         delays (run w (repeat TransportError k))
         = delays w
           ++ map (fun i => Z.min (reconnectDelay (client w)
                                   * (retries (client w) + Z.of_nat i))
                                  30000)
                  (seq 1 k))
  /\ (forall (w : World) (decodes : bool),
         eventSource (client w) <> None ->
         retries (client (step w (Frame decodes))) = 0
         /\ retries (client (step w Opened)) = 0)
  /\ (forall (w : World) (e : Event),
         (forall decodes, e <> Frame decodes) -> e <> Opened ->
         retries (client w) <= retries (client (step w e))).
Proof.
  split; [| split; [| split; [| split; [| split]]]].
  - intros options es.
    apply (run_log_ok es (initial options)). constructor.
  - intros w Hes Hm Hb w'. subst w'.
    assert (Hstep : step w TransportError = onerror w).
    { simpl. destruct (eventSource (client w)); [reflexivity | contradiction]. }
    rewrite Hstep.
    destruct (onerror_schedules w Hm Hb) as (Hr & Ht & _).
    split; [exact Hr |]. rewrite Ht, Hr. reflexivity.
  - intros base a b Hbase Hab. split.
    + now apply backoff_monotone.
    + apply backoff_capped.
  - intros k w Hes Hm Hx.
    destruct (errors_in_a_row k w Hes Hm) as [_ H].
    + intros j _. now rewrite Hx.
    + exact H.
  - intros w decodes Hes. rewrite !step_retries.
    destruct (eventSource (client w)); [split; reflexivity | contradiction].
  - intros w e Hf Ho. rewrite step_retries.
    destruct e; try lia.
    + exfalso. now apply (Hf decodes).
    + destruct (eventSource (client w)); [| lia].
      destruct (isManualClose (client w)); [lia |].
      destruct (below_max _ _); lia.
    + contradiction.
Qed.

Lemma backoff_linear_capped_reset_on_any_frame_witness :
  let w := run (initial defaults) [Connect; TransportError] in
  retries (client (step w TransportError)) = 2
  /\ timers (step w TransportError) = [(1%positive, 5000); (2%positive, 10000)]
  /\ backoff 5000 6 <= backoff 5000 7 <= 30000
  /\ delays (run w (repeat TransportError 7))
     = [5000; 10000; 15000; 20000; 25000; 30000; 30000; 30000]
  /\ retries (client (step w (Frame false))) = 0
  /\ retries (client w) <= retries (client (step w (TimerFires 1%positive))).
Proof.
  intro w.
  destruct backoff_linear_capped_reset_on_any_frame
    as (_ & Herr & Hmono & Hrow & Hreset & Hkeep).
  assert (Hes : eventSource (client w) <> None) by discriminate.
  destruct (Herr w Hes eq_refl eq_refl) as [Hr Ht].
  split; [exact Hr |].
  split; [exact Ht |].
  split; [apply Hmono; lia |].
  split; [exact (Hrow 7%nat w Hes eq_refl eq_refl) |].
  split; [exact (proj1 (Hreset w false Hes)) |].
  apply Hkeep; discriminate.
Defined.

(** C2, counter-example.  Two transport errors bring the counter to 2; a
    frame whose body does not decode then resets it to 0 (the handler logs
    the parse error and delivers nothing), and the next error is given the
    base delay 5000 again instead of 15000. *)
Lemma undecodable_frame_resets_backoff :
  let w := run (initial defaults) [Connect; TransportError; TransportError] in
  retries (client w) = 2
  /\ retries (client (step w (Frame false))) = 0
  /\ log (step w (Frame false)) = log w ++ [ParseError]
  /\ delays (run w [Frame false; TransportError]) = [5000; 10000; 5000]
  /\ delays (run w [TransportError]) = [5000; 10000; 15000].
Proof. intro w. vm_compute. repeat split. Qed.

(** *** Closing *)

(** [close()] twice is [close()] once. *)
Lemma close_idempotent (w : World) : close (close w) = close w.
Proof.
  destruct w as [c ts nt ns lg]. destruct c as [rd mr r es rt m].
  destruct rt, es; reflexivity.
Qed.

Lemma quiescent_step (w : World) (e : Event) :
  quiescent w -> e <> Connect -> step w e = w.
Proof.
  intros (Ht & Hes & Hrt & Hm) He.
  destruct w as [c ts nt ns lg]. destruct c as [rd mr r es rt m].
  simpl in Ht, Hes, Hrt, Hm. subst.
  destruct e; try reflexivity. contradiction.
Qed.

Lemma quiescent_run (es : list Event) (w : World) :
  quiescent w -> ~ In Connect es -> run w es = w.
Proof.
  intros Hq. induction es as [| e es IH]; intro Hn; [reflexivity |].
  change (run w (e :: es)) with (run (step w e) es).
  rewrite quiescent_step; [| exact Hq | intro E; apply Hn; now left].
  apply IH. intro H. apply Hn. now right.
Qed.

Lemma remove_timer_all (id : positive) (ts : list (positive * Z)) :
  (forall t, In t ts -> fst t = id) -> remove_timer id ts = [].
Proof.
  intro H. unfold remove_timer. induction ts as [| t ts IH]; [reflexivity |].
  simpl. rewrite (H t (or_introl eq_refl)), Pos.eqb_refl. simpl.
  apply IH. intros t' Hin. apply H. now right.
Qed.

(** When the only timers pending are the one the client remembers in
    [reconnectTimer], [close()] leaves nothing behind: no event short of a
    new [connect()] changes the channel afterwards, and no source is
    created. *)
Lemma close_final_when_single_timer (w : World) (es : list Event) :
  (forall t, In t (timers w) -> reconnectTimer (client w) = Some (fst t)) ->
  ~ In Connect es ->
  quiescent (close w)
  /\ run (close w) es = close w
  /\ created (run (close w) es) = created w.
Proof.
  intros Hone Hn.
  assert (Hq : quiescent (close w)).
  { destruct w as [c ts nt ns lg]. destruct c as [rd mr r src rt m].
    simpl in Hone. unfold quiescent, close. simpl.
    destruct rt as [id |]; simpl.
    - assert (Hts : remove_timer id ts = []).
      { apply remove_timer_all. intros t Hin.
        specialize (Hone t Hin). congruence. }
      destruct src; simpl; rewrite Hts; repeat split; reflexivity.
    - assert (Hts : ts = []).
      { destruct ts as [| t ts]; [reflexivity |].
        specialize (Hone t (or_introl eq_refl)). discriminate. }
      destruct src; simpl; rewrite Hts; repeat split; reflexivity. }
  split; [exact Hq |].
  rewrite (quiescent_run es (close w) Hq Hn).
  split; [reflexivity |].
  unfold created, close. simpl.
  destruct (reconnectTimer (client w)); simpl;
    destruct (eventSource (client w)); simpl;
    rewrite ?flat_map_app; simpl; now rewrite ?app_nil_r.
Qed.

(** A transport error on a channel closed by hand schedules nothing. *)
Lemma onerror_after_close (w : World) :
  isManualClose (client w) = true ->
  timers (onerror w) = timers w /\ created (onerror w) = created w.
Proof.
  intro Hm. unfold onerror. simpl. rewrite Hm. split; [reflexivity |].
  unfold created. simpl. rewrite flat_map_app. simpl. now rewrite app_nil_r.
Qed.

(** C8, evaluated on two transport errors before the first timer fires.
    Each error sets a timer and stores its identifier in [reconnectTimer],
    overwriting the previous one.  [close()] clears the timer stored last
    (10000 ms) and the source; the first timer (5000 ms) is still pending.
    When it fires, its callback runs [_createEventSource]: a second event
    source is opened on a channel that is closed by hand. *)
Theorem close_leaves_earlier_timer_pending :
  let w := run (initial defaults)
               [Connect; TransportError; TransportError; Close] in
  let w' := step w (TimerFires 1%positive) in
  close (close w) = close w
  /\ isManualClose (client w) = true
  /\ eventSource (client w) = None
  /\ reconnectTimer (client w) = None
  /\ timers w = [(1%positive, 5000)]
  /\ created w = [1%positive]
  /\ isManualClose (client w') = true
  /\ eventSource (client w') = Some 2%positive
  /\ created w' = [1%positive; 2%positive].
Proof. intros w w'. vm_compute. repeat split. Qed.

End SSEFacts.

(** ** The P&L chart (portfolio-chart) *)

Module PortfolioChartFacts.

Import PortfolioChart.

(** *** Range *)

Lemma minWithZero_spec (data : list Q) :
  minWithZero data <= 0 /\ forall v, In v data -> minWithZero data <= v.
Proof.
  unfold minWithZero. induction data as [| a data [IH0 IH]]; simpl.
  - split; [lra | tauto].
  - split.
    + apply Qle_trans with (fold_right Qmin 0 data);
        [apply Q.le_min_r | exact IH0].
    + intros v [<- | Hin].
      * apply Q.le_min_l.
      * apply Qle_trans with (fold_right Qmin 0 data);
          [apply Q.le_min_r | now apply IH].
Qed.

Lemma maxWithZero_spec (data : list Q) :
  0 <= maxWithZero data /\ forall v, In v data -> v <= maxWithZero data.
Proof.
  unfold maxWithZero. induction data as [| a data [IH0 IH]]; simpl.
  - split; [lra | tauto].
  - split.
    + apply Qle_trans with (fold_right Qmax 0 data);
        [exact IH0 | apply Q.le_max_r].
    + intros v [<- | Hin].
      * apply Q.le_max_l.
      * apply Qle_trans with (fold_right Qmax 0 data);
          [now apply IH | apply Q.le_max_r].
Qed.

Lemma rangeOf_pos (data : list Q) : 0 < rangeOf data.
Proof.
  unfold rangeOf.
  destruct (minWithZero_spec data) as [Hmin _].
  destruct (maxWithZero_spec data) as [Hmax _].
  destruct (Qeq_bool (maxWithZero data - minWithZero data) 0) eqn:E.
  - lra.
  - apply Qeq_bool_neq in E. lra.
Qed.

Lemma ofNat_lt (a b : nat) : (a < b)%nat -> ofNat a < ofNat b.
Proof. intro H. unfold ofNat. rewrite <- Zlt_Qlt. lia. Qed.

Lemma ofNat_1 : ofNat 1 == 1.
Proof. reflexivity. Qed.

Section Geometry.

Variables (width height : Q) (padding : Padding) (data : list Q).

Local Abbreviation chartW := (chartWidth width padding).
Local Abbreviation chartH := (chartHeight height padding).
Local Abbreviation X := (xOf width padding data).
Local Abbreviation Y := (yOf height padding data).
Local Abbreviation Z0 := (zeroY height padding data).
Local Abbreviation pts := (points width height padding data).

(** Samples at or above zero are drawn at or above the zero line (the
    canvas's [y] grows downwards), samples below zero at or below it. *)
Lemma yOf_sides (v : Q) :
  0 <= chartH ->
  (0 <= v -> Y v <= Z0) /\ (v <= 0 -> Z0 <= Y v).
Proof.
  intro HH. unfold zeroY, yOf.
  pose proof (rangeOf_pos data) as Hr.
  assert (Hk : 0 < / rangeOf data) by now apply Qinv_lt_0_compat.
  set (k := / rangeOf data) in *. set (m := minWithZero data).
  unfold Qdiv. fold k.
  assert (E : (v - m) * k * chartH == v * (k * chartH) + (0 - m) * k * chartH)
    by ring.
  assert (Hc : 0 <= k * chartH) by (apply Qmult_le_0_compat; lra).
  split; intro Hv.
  - assert (0 <= v * (k * chartH)) by now apply Qmult_le_0_compat.
    lra.
  - assert (0 <= (- v) * (k * chartH)) by (apply Qmult_le_0_compat; lra).
    assert (E2 : (- v) * (k * chartH) == - (v * (k * chartH))) by ring.
    lra.
Qed.

(** The abscissas grow with the index. *)
Lemma xOf_increasing (i j : nat) :
  (2 <= List.length data)%nat -> 0 < chartW -> (i < j)%nat -> X i < X j.
Proof.
  intros Hlen Hw Hij. unfold xOf.
  assert (Hd : 0 < ofNat (List.length data) - 1).
  { pose proof (ofNat_lt 1 (List.length data) ltac:(lia)) as H.
    rewrite ofNat_1 in H. lra. }
  assert (Hk : 0 < / (ofNat (List.length data) - 1))
    by now apply Qinv_lt_0_compat.
  set (k := / (ofNat (List.length data) - 1)) in *.
  unfold Qdiv. fold k.
  pose proof (ofNat_lt i j Hij) as Hlt.
  assert (Hc : 0 < k * chartW) by (apply Qmult_lt_0_compat; lra).
  assert (H : 0 < (ofNat j - ofNat i) * (k * chartW))
    by (apply Qmult_lt_0_compat; lra).
  assert (E : (ofNat j - ofNat i) * (k * chartW)
              == ofNat j * k * chartW - ofNat i * k * chartW) by ring.
  lra.
Qed.

(** Where a fill leaves its side of the zero line, the closing vertex is
    the linear interpolation of the two bracketing samples: it lies between
    their abscissas, strictly so on the side of the sample beyond zero. *)
Lemma intersectPos_between (prev p : Point) :
  x prev < x p -> 0 <= value prev -> value p < 0 ->
  x prev <= intersectPos prev p < x p
  /\ (0 < value prev -> x prev < intersectPos prev p)
  /\ 0 < value prev - value p.
Proof.
  intros Hx Hprev Hp. unfold intersectPos.
  assert (Hd : 0 < value prev - value p) by lra.
  set (t := value prev / (value prev - value p)).
  assert (Ht0 : 0 <= t) by (apply Qle_shift_div_l; lra).
  assert (Ht1 : t < 1) by (apply Qlt_shift_div_r; lra).
  assert (H0 : 0 <= (x p - x prev) * t) by (apply Qmult_le_0_compat; lra).
  assert (H1 : 0 < (x p - x prev) * (1 - t))
    by (apply Qmult_lt_0_compat; lra).
  assert (E : (x p - x prev) * (1 - t) == (x p - x prev) - (x p - x prev) * t)
    by ring.
  repeat split; try lra.
  intro Hpos.
  assert (Ht : 0 < t) by (apply Qlt_shift_div_l; lra).
  assert (0 < (x p - x prev) * t) by (apply Qmult_lt_0_compat; lra).
  lra.
Qed.

Lemma intersectNeg_between (prev p : Point) :
  x prev < x p -> value prev < 0 -> 0 <= value p ->
  x prev < intersectNeg prev p <= x p
  /\ (0 < value p -> intersectNeg prev p < x p)
  /\ 0 < value p - value prev
  /\ intersectNeg prev p
     == x prev + (x p - x prev) * (value prev / (value prev - value p)).
Proof.
  intros Hx Hprev Hp. unfold intersectNeg.
  assert (Hd : 0 < value p - value prev) by lra.
  set (t := - value prev / (value p - value prev)).
  assert (Ht0 : 0 < t) by (apply Qlt_shift_div_l; lra).
  assert (Ht1 : t <= 1) by (apply Qle_shift_div_r; lra).
  assert (H0 : 0 < (x p - x prev) * t) by (apply Qmult_lt_0_compat; lra).
  assert (H1 : 0 <= (x p - x prev) * (1 - t))
    by (apply Qmult_le_0_compat; lra).
  assert (E : (x p - x prev) * (1 - t) == (x p - x prev) - (x p - x prev) * t)
    by ring.
  repeat split; try lra.
  - intro Hpos.
    assert (Ht : t < 1) by (apply Qlt_shift_div_r; lra).
    assert (0 < (x p - x prev) * (1 - t)) by (apply Qmult_lt_0_compat; lra).
    lra.
  - subst t. field. lra.
Qed.

End Geometry.

(** *** The fills *)

Lemma regionsFrom_ok (P : Q -> Prop) (sel : Style -> bool)
      (cmds : list Cmd) (path : list (Q * Q)) :
  List.Forall (fun v => P (snd v)) path ->
  List.Forall (okCmd P sel) cmds ->
  List.Forall (fun r => sel (fst r) = true
                        /\ List.Forall (fun v => P (snd v)) (snd r))
              (regionsFrom path cmds).
Proof.
  revert path. induction cmds as [| c cmds IH]; intros path Hpath Hcmds.
  - constructor.
  - inversion Hcmds as [| c' cmds' Hc Hrest]; subst.
    destruct c; simpl in *; try (now apply IH).
    + apply IH; [| exact Hrest].
      apply List.Forall_app. split; [exact Hpath | now repeat constructor].
    + apply IH; [| exact Hrest].
      apply List.Forall_app. split; [exact Hpath | now repeat constructor].
    + constructor; [now split | now apply IH].
Qed.

Lemma regionsFrom_app (l1 l2 : list Cmd) (path : list (Q * Q)) :
  regionsFrom path (l1 ++ l2)
  = regionsFrom path l1 ++ regionsFrom (pathAfter path l1) l2.
Proof.
  revert path. induction l1 as [| c l1 IH]; intro path; [reflexivity |].
  destruct c; simpl; rewrite ?IH; reflexivity.
Qed.

Lemma regionsFrom_no_fill (cmds : list Cmd) (path : list (Q * Q)) :
  forallb (fun c => negb (isFill c)) cmds = true ->
  regionsFrom path cmds = [].
Proof.
  revert path. induction cmds as [| c cmds IH]; intros path H; [reflexivity |].
  simpl in H. apply andb_true_iff in H. destruct H as [Hc Hrest].
  destruct c; simpl in *; try discriminate; now apply IH.
Qed.

Lemma fold_left_invariant {A B : Type} (f : A -> B -> A) (I : A -> Prop)
      (l : list B) (a : A) :
  I a -> (forall a b, In b l -> I a -> I (f a b)) -> I (fold_left f l a).
Proof.
  revert a. induction l as [| b l IH]; intros a Ha Hstep; [exact Ha |].
  simpl. apply IH.
  - apply Hstep; [now left | exact Ha].
  - intros a' b' Hin. apply Hstep. now right.
Qed.

Section Fills.

Variables (width height : Q) (padding : Padding) (data : list Q).

Local Abbreviation chartH := (chartHeight height padding).
Local Abbreviation X := (xOf width padding data).
Local Abbreviation Y := (yOf height padding data).
Local Abbreviation Z0 := (zeroY height padding data).
Local Abbreviation pts := (points width height padding data).

Lemma points_nth (i : nat) :
  (i < List.length data)%nat ->
  nth i pts origin
  = {| x := X i; y := Y (nth i data 0); value := nth i data 0 |}.
Proof.
  intro Hi. unfold points.
  destruct (lookup_lt_is_Some_2 data i Hi) as [v Hv].
  rewrite (nth_lookup_Some data i 0 v Hv).
  apply nth_lookup_Some. rewrite list_lookup_imap, Hv. reflexivity.
Qed.

Lemma points_length : List.length pts = List.length data.
Proof. unfold points. apply length_imap. Qed.

Lemma startsWithBeginPath_app (ctx extra : list Cmd) :
  startsWithBeginPath ctx -> startsWithBeginPath (ctx ++ extra).
Proof. intros [rest ->]. now exists (rest ++ extra). Qed.

Lemma positiveFill_ok :
  0 <= chartH ->
  List.Forall (okCmd (fun b => b <= Z0) isGreen)
              (positiveFill width height padding data)
  /\ startsWithBeginPath (positiveFill width height padding data).
Proof.
  intro HH. unfold positiveFill.
  set (I := fun st : bool * list Cmd =>
              List.Forall (okCmd (fun b => b <= Z0) isGreen) (snd st)
              /\ startsWithBeginPath (snd st)).
  assert (HI : I (fold_left (positiveStep width height padding data)
                            (seq 0 (List.length pts)) (false, [beginPath]))).
  { apply fold_left_invariant.
    - split; [repeat constructor | now exists []].
    - intros [started ctx] i Hin [Hok Hhead]. simpl in Hok, Hhead.
      apply in_seq in Hin. rewrite points_length in Hin.
      unfold positiveStep. rewrite points_nth by lia. simpl.
      destruct (Qle_bool 0 (nth i data 0)) eqn:Hv.
      + apply Qle_bool_iff in Hv.
        destruct (yOf_sides height padding data (nth i data 0) HH) as [Hup _].
        split; simpl.
        * apply List.Forall_app. split; [| repeat constructor; now apply Hup].
          destruct started; [exact Hok |].
          apply List.Forall_app. split; [exact Hok |].
          repeat constructor. simpl. lra.
        * apply startsWithBeginPath_app.
          destruct started; [exact Hhead |].
          now apply startsWithBeginPath_app.
      + destruct started; [| now split].
        split; simpl.
        * apply List.Forall_app. split; [exact Hok |].
          repeat constructor. simpl. lra.
        * now apply startsWithBeginPath_app. }
  destruct (fold_left _ _ _) as [started ctx]. destruct HI as [Hok Hhead].
  simpl in Hok, Hhead. destruct started; [| now split].
  split.
  - apply List.Forall_app. split; [exact Hok |].
    repeat constructor. simpl. lra.
  - now apply startsWithBeginPath_app.
Qed.

Lemma negativeFill_ok :
  0 <= chartH ->
  List.Forall (okCmd (fun b => Z0 <= b) isRed)
              (negativeFill width height padding data)
  /\ startsWithBeginPath (negativeFill width height padding data).
Proof.
  intro HH. unfold negativeFill.
  set (I := fun st : bool * list Cmd =>
              List.Forall (okCmd (fun b => Z0 <= b) isRed) (snd st)
              /\ startsWithBeginPath (snd st)).
  assert (HI : I (fold_left (negativeStep width height padding data)
                            (seq 0 (List.length pts)) (false, [beginPath]))).
  { apply fold_left_invariant.
    - split; [repeat constructor | now exists []].
    - intros [started ctx] i Hin [Hok Hhead]. simpl in Hok, Hhead.
      apply in_seq in Hin. rewrite points_length in Hin.
      unfold negativeStep. rewrite points_nth by lia. simpl.
      destruct (Qlt_bool (nth i data 0) 0) eqn:Hv.
      + apply Qlt_bool_iff in Hv.
        destruct (yOf_sides height padding data (nth i data 0) HH) as [_ Hdn].
        split; simpl.
        * apply List.Forall_app. split;
            [| repeat constructor; apply Hdn; lra].
          destruct started; [exact Hok |].
          apply List.Forall_app. split; [exact Hok |].
          repeat constructor. simpl. lra.
        * apply startsWithBeginPath_app.
          destruct started; [exact Hhead |].
          now apply startsWithBeginPath_app.
      + destruct started; [| now split].
        split; simpl.
        * apply List.Forall_app. split; [exact Hok |].
          repeat constructor. simpl. lra.
        * now apply startsWithBeginPath_app. }
  destruct (fold_left _ _ _) as [started ctx]. destruct HI as [Hok Hhead].
  simpl in Hok, Hhead. destruct started; [| now split].
  split.
  - apply List.Forall_app. split; [exact Hok |].
    repeat constructor. simpl. lra.
  - now apply startsWithBeginPath_app.
Qed.

End Fills.

Lemma vertices_ok (sel : Style -> bool) (P : Q * Q -> Prop)
      (rs : list (Style * list (Q * Q))) :
  List.Forall (fun r => sel (fst r) = true -> List.Forall P (snd r)) rs ->
  List.Forall P (flat_map (fun r => if sel (fst r) then snd r else []) rs).
Proof.
  induction 1 as [| r rs Hr _ IH]; simpl; [constructor |].
  apply List.Forall_app. split; [| exact IH].
  destruct (sel (fst r)); [now apply Hr | constructor].
Qed.

Lemma red_not_green (s : Style) : isRed s = true -> isGreen s = false.
Proof. destruct s; simpl; congruence. Qed.

Lemma green_not_red (s : Style) : isGreen s = true -> isRed s = false.
Proof. destruct s; simpl; congruence. Qed.

Lemma mainLine_no_fill (width height : Q) (padding : Padding)
      (data : list Q) :
  forallb (fun c => negb (isFill c)) (mainLine width height padding data)
  = true.
Proof.
  unfold mainLine. rewrite !forallb_app. simpl.
  rewrite andb_true_r. apply forallb_forall.
  intros c Hin. apply in_map_iff in Hin. destruct Hin as (i & <- & _).
  reflexivity.
Qed.

(** The regions the chart fills are those of the two fill passes. *)
Lemma chart_regions (width height : Q) (padding : Padding) (data : list Q) :
  (2 <= List.length data)%nat ->
  0 <= chartHeight height padding ->
  regions (_drawPnlChart width height padding data)
  = regions (positiveFill width height padding data)
    ++ regions (negativeFill width height padding data).
Proof.
  intros Hlen HH. unfold _drawPnlChart.
  assert (E : (List.length data <? 2)%nat = false)
    by (apply Nat.ltb_ge; exact Hlen).
  rewrite E. unfold regions.
  destruct (positiveFill_ok width height padding data HH) as [_ [r1 H1]].
  destruct (negativeFill_ok width height padding data HH) as [_ [r2 H2]].
  rewrite regionsFrom_app.
  change (regionsFrom [] (zeroLine width height padding data)) with
    (@nil (Style * list (Q * Q))).
  rewrite H1, H2. simpl.
  rewrite regionsFrom_app. f_equal. simpl.
  rewrite regionsFrom_app.
  rewrite (regionsFrom_no_fill (mainLine width height padding data))
    by apply mainLine_no_fill.
  now rewrite app_nil_r.
Qed.

(** Whatever the series and the canvas, the green fill lies on or above
    the zero line and the red fill on or below it. *)
Lemma fills_on_their_side (width height : Q) (padding : Padding)
      (data : list Q) :
  (2 <= List.length data)%nat ->
  0 <= chartHeight height padding ->
  let chart := _drawPnlChart width height padding data in
  let Z0 := zeroY height padding data in
  List.Forall (fun v => snd v <= Z0) (vertices isGreen chart)
  /\ List.Forall (fun v => Z0 <= snd v) (vertices isRed chart).
Proof.
  intros Hlen HH chart Z0. subst chart. unfold vertices.
  rewrite (chart_regions width height padding data Hlen HH).
  destruct (positiveFill_ok width height padding data HH) as [Hp _].
  destruct (negativeFill_ok width height padding data HH) as [Hn _].
  pose proof (regionsFrom_ok _ _ _ [] (List.Forall_nil _) Hp) as Rp.
  pose proof (regionsFrom_ok _ _ _ [] (List.Forall_nil _) Hn) as Rn.
  fold (regions (positiveFill width height padding data)) in Rp.
  fold (regions (negativeFill width height padding data)) in Rn.
  split; apply vertices_ok; apply List.Forall_app; split.
  - eapply List.Forall_impl; [| exact Rp]. intros r [_ H] _. exact H.
  - eapply List.Forall_impl; [| exact Rn]. intros r [Hred _] Hgreen.
    apply red_not_green in Hred. congruence.
  - eapply List.Forall_impl; [| exact Rp]. intros r [Hgreen _] Hred.
    apply green_not_red in Hgreen. congruence.
  - eapply List.Forall_impl; [| exact Rn]. intros r [_ H] _. exact H.
Qed.

(** *** Divisions *)

Section Divisions.

Variables (width height : Q) (padding : Padding) (data : list Q).

Local Abbreviation pts := (points width height padding data).
Local Abbreviation posStep := (positiveStep width height padding data).
Local Abbreviation negStep := (negativeStep width height padding data).

Lemma positiveStep_started (st : bool * list Cmd) (i : nat) :
  fst (posStep st i) = Qle_bool 0 (value (nth i pts origin)).
Proof.
  destruct st as [started ctx]. unfold positiveStep.
  destruct (Qle_bool 0 (value (nth i pts origin))); [reflexivity |].
  destruct started; reflexivity.
Qed.

Lemma negativeStep_started (st : bool * list Cmd) (i : nat) :
  fst (negStep st i) = Qlt_bool (value (nth i pts origin)) 0.
Proof.
  destruct st as [started ctx]. unfold negativeStep.
  destruct (Qlt_bool (value (nth i pts origin)) 0); [reflexivity |].
  destruct started; reflexivity.
Qed.

(** Entering turn [i + 1], [started] tells on which side sample [i] was. *)
Lemma started_tracks_previous_sample (i : nat) :
  fst (fold_left posStep (seq 0 (S i)) (false, [beginPath]))
  = Qle_bool 0 (value (nth i pts origin))
  /\ fst (fold_left negStep (seq 0 (S i)) (false, [beginPath]))
     = Qlt_bool (value (nth i pts origin)) 0.
Proof.
  rewrite seq_S, !fold_left_app. simpl.
  split; [apply positiveStep_started | apply negativeStep_started].
Qed.

(** Every division of [_drawPnlChart] has a positive divisor: the range,
    the number of intervals, and, where a pass computes a crossing at turn
    [i + 1] (it had started and the sample changes side), the difference of
    the two bracketing samples. *)
Lemma divisors_nonzero :
  0 < rangeOf data
  /\ ((2 <= List.length data)%nat -> 0 < ofNat (List.length data) - 1)
  /\ (forall i : nat,
         let prev := nth i pts origin in
         let p := nth (S i) pts origin in
         (fst (fold_left posStep (seq 0 (S i)) (false, [beginPath])) = true ->
          Qle_bool 0 (value p) = false ->
          0 < value prev - value p)
         /\ (fst (fold_left negStep (seq 0 (S i)) (false, [beginPath])) = true ->
             Qlt_bool (value p) 0 = false ->
             0 < value p - value prev)).
Proof.
  split; [apply rangeOf_pos |]. split.
  - intro Hlen.
    pose proof (ofNat_lt 1 (List.length data) ltac:(lia)) as H.
    rewrite ofNat_1 in H. lra.
  - intros i prev p.
    destruct (started_tracks_previous_sample i) as [Hp Hn].
    split; intros Hs Hv.
    + rewrite Hp in Hs. apply Qle_bool_iff in Hs.
      apply Qle_bool_false_iff in Hv. subst prev p. lra.
    + rewrite Hn in Hs. apply Qlt_bool_iff in Hs.
      apply Qlt_bool_false_iff in Hv. subst prev p. lra.
Qed.

End Divisions.

(** *** The turns of the two passes *)

Section Passes.

Variables (width height : Q) (padding : Padding) (data : list Q).

Local Abbreviation chartH := (chartHeight height padding).
Local Abbreviation X := (xOf width padding data).
Local Abbreviation Y := (yOf height padding data).
Local Abbreviation Z0 := (zeroY height padding data).
Local Abbreviation pts := (points width height padding data).
Local Abbreviation posStep := (positiveStep width height padding data).
Local Abbreviation negStep := (negativeStep width height padding data).
Local Abbreviation pos := (positiveAfter width height padding data).
Local Abbreviation neg := (negativeAfter width height padding data).
Local Abbreviation green := (fill (greenGradient (top padding) Z0)).
Local Abbreviation red := (fill (redGradient Z0 (height - bottom padding))).

(** Heights are affine in the value: a higher value is drawn higher up,
    by [chartHeight / range] per unit, and the minimum sits on the bottom
    border. *)
Lemma yOf_affine (v w : Q) : Y v - Y w == (w - v) / rangeOf data * chartH.
Proof. unfold yOf. pose proof (rangeOf_pos data). field. lra. Qed.

Lemma yOf_bottom : Y (minWithZero data) == top padding + chartH.
Proof. unfold yOf. pose proof (rangeOf_pos data). field. lra. Qed.

Lemma pass_state (i : nat) :
  (S i < List.length data)%nat ->
  fold_left posStep (seq 0 (S i)) (false, [beginPath])
  = (Qle_bool 0 (nth i data 0), pos (S i))
  /\ fold_left negStep (seq 0 (S i)) (false, [beginPath])
     = (Qlt_bool (nth i data 0) 0, neg (S i)).
Proof.
  intro Hi.
  destruct (started_tracks_previous_sample width height padding data i)
    as [Hp Hn].
  rewrite points_nth in Hp, Hn by lia. cbn [value] in Hp, Hn.
  unfold positiveAfter, negativeAfter.
  split.
  - destruct (fold_left posStep (seq 0 (S i)) (false, [beginPath])).
    simpl in *. now subst.
  - destruct (fold_left negStep (seq 0 (S i)) (false, [beginPath])).
    simpl in *. now subst.
Qed.

(** Turn [i + 1] of the positive pass, by the sides of samples [i] and
    [i + 1]. *)
Lemma positive_turn (i : nat) :
  (S i < List.length data)%nat ->
  let v := nth i data 0 in
  let w := nth (S i) data 0 in
  pos (S (S i))
  = if Qle_bool 0 w then
      pos (S i) ++ (if Qle_bool 0 v then [] else [moveTo (X (S i)) Z0])
          ++ [lineTo (X (S i)) (Y w)]
    else if Qle_bool 0 v then
      pos (S i) ++ [lineTo (X i + (X (S i) - X i) * (v / (v - w))) Z0;
                    closePath; green; beginPath]
    else pos (S i).
Proof.
  intros Hi v w. subst v w.
  destruct (pass_state i Hi) as [Hst _].
  unfold positiveAfter at 1.
  rewrite (seq_S (S i)), fold_left_app, Hst. cbn [fold_left Nat.add].
  unfold positiveStep.
  replace (S i - 1)%nat with i by lia.
  rewrite (points_nth width height padding data (S i)) by lia.
  rewrite (points_nth width height padding data i) by lia.
  unfold intersectPos. cbn [x y value snd].
  destruct (Qle_bool 0 (nth (S i) data 0)).
  - destruct (Qle_bool 0 (nth i data 0)); cbn [snd].
    + reflexivity.
    + now rewrite <- app_assoc.
  - destruct (Qle_bool 0 (nth i data 0)); reflexivity.
Qed.

(** Turn [i + 1] of the negative pass. *)
Lemma negative_turn (i : nat) :
  (S i < List.length data)%nat ->
  let v := nth i data 0 in
  let w := nth (S i) data 0 in
  neg (S (S i))
  = if Qlt_bool w 0 then
      neg (S i) ++ (if Qlt_bool v 0 then [] else [moveTo (X (S i)) Z0])
          ++ [lineTo (X (S i)) (Y w)]
    else if Qlt_bool v 0 then
      neg (S i) ++ [lineTo (X i + (X (S i) - X i) * (- v / (w - v))) Z0;
                    closePath; red; beginPath]
    else neg (S i).
Proof.
  intros Hi v w. subst v w.
  destruct (pass_state i Hi) as [_ Hst].
  unfold negativeAfter at 1.
  rewrite (seq_S (S i)), fold_left_app, Hst. cbn [fold_left Nat.add].
  unfold negativeStep.
  replace (S i - 1)%nat with i by lia.
  rewrite (points_nth width height padding data (S i)) by lia.
  rewrite (points_nth width height padding data i) by lia.
  unfold intersectNeg. cbn [x y value snd].
  destruct (Qlt_bool (nth (S i) data 0) 0).
  - destruct (Qlt_bool (nth i data 0) 0); cbn [snd].
    + reflexivity.
    + now rewrite <- app_assoc.
  - destruct (Qlt_bool (nth i data 0) 0); reflexivity.
Qed.

(** The first turn. *)
Lemma first_turn :
  (0 < List.length data)%nat ->
  let v := nth 0 data 0 in
  pos 1 = (if Qle_bool 0 v
           then [beginPath; moveTo (X 0%nat) Z0; lineTo (X 0%nat) (Y v)]
           else [beginPath])
  /\ neg 1 = (if Qlt_bool v 0
              then [beginPath; moveTo (X 0%nat) Z0; lineTo (X 0%nat) (Y v)]
              else [beginPath]).
Proof.
  intros Hlen v. subst v.
  unfold positiveAfter, negativeAfter. cbn [seq fold_left].
  unfold positiveStep, negativeStep.
  rewrite (points_nth width height padding data 0) by lia.
  cbn [x y value].
  split.
  - destruct (Qle_bool 0 (nth 0 data 0)); reflexivity.
  - destruct (Qlt_bool (nth 0 data 0) 0); reflexivity.
Qed.

(** After the last turn a pass that is still on its side closes its fill on
    the zero line, below or above the last sample. *)
Lemma closing_turn :
  (0 < List.length data)%nat ->
  let n := List.length data in
  let v := nth (n - 1) data 0 in
  positiveFill width height padding data
  = pos n ++ (if Qle_bool 0 v
              then [lineTo (X (n - 1)%nat) Z0; closePath; green]
              else [])
  /\ negativeFill width height padding data
     = neg n ++ (if Qlt_bool v 0
                 then [lineTo (X (n - 1)%nat) Z0; closePath; red]
                 else []).
Proof.
  intros Hlen n v. subst n v.
  unfold positiveFill, negativeFill, lastPoint.
  rewrite (points_length width height padding data).
  rewrite (points_nth width height padding data (List.length data - 1))
    by lia.
  cbn [x].
  destruct (List.length data) as [| k] eqn:En; [lia |].
  replace (S k - 1)%nat with k by lia.
  assert (Hp : fold_left posStep (seq 0 (S k)) (false, [beginPath])
               = (Qle_bool 0 (nth k data 0), pos (S k))
               /\ fold_left negStep (seq 0 (S k)) (false, [beginPath])
                  = (Qlt_bool (nth k data 0) 0, neg (S k))).
  { destruct (started_tracks_previous_sample width height padding data k)
      as [Hp Hn].
    rewrite points_nth in Hp, Hn by lia. cbn [value] in Hp, Hn.
    unfold positiveAfter, negativeAfter. split.
    - destruct (fold_left posStep (seq 0 (S k)) (false, [beginPath])).
      simpl in *. now subst.
    - destruct (fold_left negStep (seq 0 (S k)) (false, [beginPath])).
      simpl in *. now subst. }
  destruct Hp as [Hp Hn]. rewrite Hp, Hn.
  split.
  - destruct (Qle_bool 0 (nth k data 0)); [reflexivity |].
    now rewrite app_nil_r.
  - destruct (Qlt_bool (nth k data 0) 0); [reflexivity |].
    now rewrite app_nil_r.
Qed.

(** The abscissa at which a fill is closed is where the straight segment
    between the two bracketing samples meets the zero line. *)
Lemma crossing_on_segment (i : nat) :
  let v := nth i data 0 in
  let w := nth (S i) data 0 in
  let cross := X i + (X (S i) - X i) * (v / (v - w)) in
  ~ v == w ->
  (cross - X i) * (Y w - Y v) == (Z0 - Y v) * (X (S i) - X i)
  /\ X i + (X (S i) - X i) * (- v / (w - v)) == cross.
Proof.
  intros v w cross Hvw. subst cross.
  pose proof (rangeOf_pos data) as Hr.
  split.
  - unfold zeroY, yOf. field. split; lra.
  - field. split; lra.
Qed.

Lemma crossing_between (i : nat) :
  (S i < List.length data)%nat ->
  0 < chartWidth width padding ->
  let v := nth i data 0 in
  let w := nth (S i) data 0 in
  let cross := X i + (X (S i) - X i) * (v / (v - w)) in
  X i < X (S i)
  /\ (0 <= v -> w < 0 -> X i <= cross < X (S i))
  /\ (v < 0 -> 0 <= w -> X i < cross <= X (S i)).
Proof.
  intros Hi HW v w cross.
  assert (Hx : X i < X (S i))
    by (apply xOf_increasing; [lia | exact HW | lia]).
  split; [exact Hx |]. split; intros H1 H2.
  - destruct (intersectPos_between
                {| x := X i; y := Y v; value := v |}
                {| x := X (S i); y := Y w; value := w |} Hx H1 H2)
      as (Hb & _). exact Hb.
  - destruct (intersectNeg_between
                {| x := X i; y := Y v; value := v |}
                {| x := X (S i); y := Y w; value := w |} Hx H1 H2)
      as (Hb & _ & _ & He).
    cbn [x value] in Hb, He. subst cross. rewrite <- He. exact Hb.
Qed.

End Passes.





End PortfolioChartFacts.

(** ** More on the stream channel and its manager (sse-client.js) *)

Module SSEManagerFacts.

Import SSE SSEManager SSEFacts.

Local Open Scope Z_scope.

(** Case analysis on one step of a world given by its fields. *)
Ltac world_step w e :=
  destruct w as [[? ? ? ? ? ?] ? ? ? ?];
  destruct e;
  unfold step, connect, close, onmessage, onerror, onopen,
    _createEventSource, pending; simpl in *;
  repeat (match goal with
          | |- context [match ?x with _ => _ end] => destruct x eqn:?
          end; simpl in * ).

(** *** One source at a time *)

Lemma liveSources_snoc (lg : list Output) (o : Output) :
  liveSources (lg ++ [o]) = liveAfter (liveSources lg) o.
Proof. unfold liveSources. now rewrite fold_left_app. Qed.

Lemma step_keeps_one_source (w : World) (e : Event) :
  liveSources (log w) = currentSource w ->
  liveSources (log (step w e)) = currentSource (step w e).
Proof.
  unfold currentSource. intro H. revert H.
  world_step w e; intro H; simplify_eq;
    rewrite ?liveSources_snoc, ?H; simpl;
    rewrite ?Pos.eqb_refl; try reflexivity; try exact H.
Qed.

(** X1.  In every run of a client, the event sources opened and not yet
    closed are exactly the one [this.eventSource] holds, if any: the client
    never keeps two sources open, and never forgets an open one. *)
Theorem at_most_one_source_open (options : Options) (es : list Event) :
  let w := run (initial options) es in
  liveSources (log w) = currentSource w
  /\ (List.length (liveSources (log w)) <= 1)%nat.
Proof.
  intro w.
  assert (H : liveSources (log w) = currentSource w).
  { subst w. generalize (initial options) (eq_refl : liveSources (log (initial options)) = currentSource (initial options)).
    induction es as [| e es IH]; intros w0 H0; [exact H0 |].
    change (run w0 (e :: es)) with (run (step w0 e) es).
    apply IH. now apply step_keeps_one_source. }
  split; [exact H |].
  rewrite H. unfold currentSource.
  destruct (eventSource (client w)); simpl; lia.
Qed.

(** *** The retry budget *)

Definition within_budget (m : Z) (w : World) : Prop :=
  maxRetries (client w) = Some m
  /\ 0 <= retries (client w) <= Z.max 0 m
  /\ List.Forall (attempt_ok m) (log w).

Lemma step_within_budget (m : Z) (w : World) (e : Event) :
  within_budget m w -> within_budget m (step w e).
Proof.
  unfold within_budget. intros (Hm & Hr & Hl). revert Hm Hr Hl.
  world_step w e; intros Hm Hr Hl; simplify_eq;
    (split; [reflexivity |]); (split; [try lia |]);
    repeat (apply List.Forall_app; split); try assumption;
    repeat constructor; simpl; try lia.
  all: match goal with
       | H : below_max _ (Some _) = true |- _ =>
           simpl in H; apply Z.ltb_lt in H; lia
       end.
Qed.

Lemma run_within_budget (m : Z) (es : list Event) (w : World) :
  within_budget m w -> within_budget m (run w es).
Proof.
  revert w. induction es as [| e es IH]; intros w H; [exact H |].
  change (run w (e :: es)) with (run (step w e) es).
  apply IH. now apply step_within_budget.
Qed.

(** X2.  With [maxRetries = m], in every run the retry counter stays
    between 0 and [m] and every scheduled reconnect carries an attempt
    number between 1 and [m]; once the counter has reached [m], a
    transport error schedules nothing and the counter stays.  An option
    [maxRetries] of 0 or absent means no limit: [k] errors in a row on a
    connected channel schedule [k] reconnects. *)
Theorem retries_never_exceed_maxRetries :
  (forall (options : Options) (m : Z) (es : list Event),
      maxRetries (new_SSEClient options) = Some m ->
      let w := run (initial options) es in
      0 <= retries (client w) <= Z.max 0 m
      /\ List.Forall (attempt_ok m) (log w))
  /\ (forall (w : World) (m : Z),
         eventSource (client w) <> None ->
         maxRetries (client w) = Some m ->
         m <= retries (client w) ->
         let w' := step w TransportError in
         timers w' = timers w
         /\ retries (client w') = retries (client w)
         /\ delays w' = delays w)
  /\ (forall (options : Options) (k : nat),
         opt_maxRetries options = None \/ opt_maxRetries options = Some 0 ->
         maxRetries (new_SSEClient options) = None
         /\ List.length
              (delays (run (initial options)
                           (Connect :: repeat TransportError k))) = k).
Proof.
  split; [| split].
  - intros options m es Hm w.
    assert (H : within_budget m (initial options)).
    { split; [exact Hm |]. split; [simpl; lia | constructor]. }
    destruct (run_within_budget m es _ H) as (_ & Hr & Hl). now split.
  - intros w m Hes Hm Hr w'. subst w'. revert Hes Hm Hr.
    destruct w as [[rd mr r src rt mc] ts nt ns lg]. simpl.
    intros Hes Hm Hr. subst mr.
    destruct src as [s |]; [| contradiction].
    unfold onerror, delays. simpl.
    assert (E : (r <? m) = false) by (apply Z.ltb_ge; exact Hr).
    destruct mc; simpl; rewrite ?E; simpl;
      rewrite ?flat_map_app; simpl; rewrite ?app_nil_r; repeat split.
  - intros options k Hopt.
    assert (Hnone : maxRetries (new_SSEClient options) = None).
    { unfold new_SSEClient. simpl. destruct Hopt as [-> | ->]; reflexivity. }
    split; [exact Hnone |].
    change (run (initial options) (Connect :: repeat TransportError k))
      with (run (step (initial options) Connect) (repeat TransportError k)).
    destruct (errors_in_a_row k (step (initial options) Connect)) as [_ Hd].
    + simpl. discriminate.
    + reflexivity.
    + intros j _. simpl. simpl in Hnone. now rewrite Hnone.
    + rewrite Hd. rewrite length_app, length_map, length_seq. reflexivity.
Qed.

Lemma retries_never_exceed_maxRetries_witness :
  let options := {| opt_reconnectDelay := None; opt_maxRetries := Some 2 |} in
  let w := run (initial options)
               [Connect; TransportError; TransportError; TransportError] in
  0 <= retries (client w) <= 2
  /\ List.Forall (attempt_ok 2) (log w)
  /\ retries (client w) = 2
  /\ delays w = [5000; 10000]
  /\ timers (step w TransportError) = timers w.
Proof.
  intros options w.
  destruct retries_never_exceed_maxRetries as (Hrun & Hstop & _).
  pose proof (Hrun options 2
                [Connect; TransportError; TransportError; TransportError]
                eq_refl) as H.
  cbv zeta in H. fold w in H. destruct H as [Hr Hl].
  assert (Hes : eventSource (client w) <> None) by discriminate.
  assert (Hle : 2 <= retries (client w)) by (vm_compute; discriminate).
  pose proof (Hstop w 2 Hes eq_refl Hle) as H. cbv zeta in H.
  destruct H as (Ht & _ & _).
  split; [exact Hr |].
  split; [exact Hl |].
  split; [reflexivity |].
  split; [reflexivity | exact Ht].
Defined.

(** *** Frames *)

(** X3.  Frames received on a connected channel, decodable or not, touch
    nothing but the retry counter: the source, the pending timers, the
    stored timer and the manual-close flag are as before, the counter is 0,
    and the log gains, in order, one delivery to [onMessage] per decodable
    frame and one parse error per undecodable frame. *)
Theorem frames_only_reset_the_counter (bs : list bool) (w : World) :
  eventSource (client w) <> None ->
  let w' := run w (map Frame bs) in
  log w' = log w ++ frameOutputs bs
  /\ timers w' = timers w
  /\ eventSource (client w') = eventSource (client w)
  /\ reconnectTimer (client w') = reconnectTimer (client w)
  /\ isManualClose (client w') = isManualClose (client w)
  /\ (bs <> [] -> retries (client w') = 0).
Proof.
  revert w. induction bs as [| b bs IH]; intros w Hes; cbv zeta.
  - simpl. rewrite app_nil_r. repeat split. intro H. contradiction.
  - change (run w (map Frame (b :: bs)))
      with (run (step w (Frame b)) (map Frame bs)).
    assert (Hstep : step w (Frame b) = onmessage b w).
    { simpl. destruct (eventSource (client w)); [reflexivity | contradiction]. }
    rewrite Hstep.
    assert (Hes' : eventSource (client (onmessage b w)) <> None)
      by (unfold onmessage; destruct b; exact Hes).
    destruct (IH (onmessage b w) Hes') as (Hl & Ht & He & Hrt & Hm & Hr).
    cbv zeta in Hl, Ht, He, Hrt, Hm, Hr.
    rewrite Hl, Ht, He, Hrt, Hm.
    repeat split; try (unfold onmessage; destruct b; reflexivity).
    + unfold onmessage. destruct b; simpl; now rewrite <- app_assoc.
    + intros _. destruct bs as [| b' bs'].
      * unfold onmessage. destruct b; reflexivity.
      * apply Hr. discriminate.
Qed.

Lemma frames_only_reset_the_counter_witness :
  let w := run (initial defaults) [Connect; TransportError] in
  let w' := run w (map Frame [true; false; true]) in
  log w' = log w ++ [OnMessage; ParseError; OnMessage]
  /\ timers w' = [(1%positive, 5000)]
  /\ eventSource (client w') = Some 1%positive
  /\ retries (client w) = 1
  /\ retries (client w') = 0.
Proof.
  intros w w'.
  assert (Hes : eventSource (client w) <> None) by discriminate.
  pose proof (frames_only_reset_the_counter [true; false; true] w Hes) as H.
  cbv zeta in H. fold w' in H.
  destruct H as (Hl & Ht & He & _ & _ & Hr).
  split; [exact Hl |].
  split; [rewrite Ht; reflexivity |].
  split; [rewrite He; reflexivity |].
  split; [reflexivity |].
  apply Hr. discriminate.
Defined.

(** *** Sources and timers, counted *)

Lemma remove_timer_length (id : positive) (ts : list (positive * Z)) :
  (List.length (remove_timer id ts) <= List.length ts)%nat
  /\ (existsb (fun t => Pos.eqb (fst t) id) ts = true ->
      (List.length (remove_timer id ts) < List.length ts)%nat).
Proof.
  unfold remove_timer. induction ts as [| t ts [IH1 IH2]]; simpl.
  - split; [lia | discriminate].
  - destruct (Pos.eqb (fst t) id) eqn:E; simpl.
    + split; [lia | intros _; lia].
    + split; [lia |]. intro H. specialize (IH2 H). lia.
Qed.

Definition isConnect (e : Event) : nat :=
  match e with Connect => 1%nat | _ => 0%nat end.

Lemma created_snoc (w : World) (extra : list Output) :
  flat_map (fun o => match o with NewEventSource id => [id] | _ => [] end)
           (log w ++ extra)
  = created w
    ++ flat_map (fun o => match o with NewEventSource id => [id] | _ => [] end)
                extra.
Proof. unfold created. apply flat_map_app. Qed.

Lemma step_accounting (w : World) (e : Event) :
  (List.length (created (step w e)) + List.length (timers (step w e))
   + List.length (delays w)
   <= List.length (created w) + List.length (timers w)
      + List.length (delays (step w e)) + isConnect e)%nat.
Proof.
  unfold created, delays.
  destruct w as [[rd mr r src rt mc] ts nt ns lg].
  destruct e;
    unfold step, connect, close, onmessage, onerror, onopen,
      _createEventSource, pending, expire, clearTimeout; simpl;
    repeat (match goal with
            | |- context [match ?x with _ => _ end] => destruct x eqn:?
            end; simpl);
    rewrite ?flat_map_app, ?length_app; simpl; try lia.
  all: repeat match goal with
              | |- context [remove_timer ?i ?l] =>
                  lazymatch goal with
                  | H : (List.length (remove_timer i l) <= _)%nat |- _ => fail
                  | _ => pose proof (proj1 (remove_timer_length i l))
                  end
              end.
  all: try lia.
  all: match goal with
       | H : existsb _ ?l = true |- context [remove_timer ?i ?l] =>
           pose proof (proj2 (remove_timer_length i l) H); lia
       end.
Qed.

Lemma connects_cons (e : Event) (es : list Event) :
  connects (e :: es) = (isConnect e + connects es)%nat.
Proof. unfold connects. destruct e; reflexivity. Qed.

Lemma run_accounting (es : list Event) (w : World) :
  (List.length (created (run w es)) + List.length (timers (run w es))
   + List.length (delays w)
   <= List.length (created w) + List.length (timers w)
      + List.length (delays (run w es)) + connects es)%nat.
Proof.
  revert w. induction es as [| e es IH]; intro w.
  - unfold connects. simpl. lia.
  - change (run w (e :: es)) with (run (step w e) es).
    rewrite connects_cons.
    pose proof (IH (step w e)). pose proof (step_accounting w e). lia.
Qed.

(** X4.  In every run of a client, the event sources it has opened plus
    the reconnect timers still pending never outnumber the calls of
    [connect()] plus the reconnects it has scheduled: a source is opened
    only by [connect()] or by a timer of a scheduled reconnect, one source
    per timer. *)
Theorem sources_bounded_by_connects_and_reconnects
        (options : Options) (es : list Event) :
  let w := run (initial options) es in
  (List.length (created w) + List.length (timers w)
   <= connects es + List.length (delays w))%nat.
Proof.
  intro w. pose proof (run_accounting es (initial options)) as H.
  fold w in H. simpl in H. lia.
Qed.

(** *** The manager *)

Lemma close_closedClient (w : World) : closedClient (close w).
Proof.
  destruct w as [[rd mr r src rt mc] ts nt ns lg].
  unfold closedClient. destruct rt, src; repeat split.
Qed.

(** X5.  [connect(name, url, options)] leaves under [name] a freshly
    constructed client that has opened its first source and is not closed
    by hand, and leaves every other name as it was.  A client that was
    registered under [name] before is closed (flag set, no source, no
    stored timer) and dropped: one name never holds two clients. *)
Theorem manager_connect_replaces
        (name : string) (options : Options) (m : Manager) :
  let m' := fst (mconnect name options m) in
  let c := snd (mconnect name options m) in
  mget name m' = Some c
  /\ c = connect (initial options)
  /\ eventSource (client c) = Some 1%positive
  /\ isManualClose (client c) = false
  /\ retries (client c) = 0
  /\ (forall other, other <> name -> mget other m' = mget other m)
  /\ (forall old, mget name m = Some old ->
                  released m' = released m ++ [close old]
                  /\ closedClient (close old))
  /\ (mget name m = None -> released m' = released m).
Proof.
  intros m' c. subst m' c. unfold mconnect, mget, disconnect. simpl.
  split; [apply lookup_insert_eq |].
  split; [reflexivity |].
  split; [reflexivity |].
  split; [reflexivity |].
  split; [reflexivity |].
  split.
  - intros other Hne. rewrite lookup_insert_ne by congruence.
    destruct (connections m !! name) eqn:E; simpl; [| reflexivity].
    now rewrite lookup_delete_ne by congruence.
  - split.
    + intros old Hold. rewrite Hold. simpl.
      split; [reflexivity | apply close_closedClient].
    + intros Hnone. now rewrite Hnone.
Qed.

(** X6.  [disconnect(name)] on a name that is not registered changes
    nothing; on a registered name it closes the client and removes the
    name only.  [disconnectAll()] leaves no name registered and closes
    every client that was; calling it again changes nothing. *)
Theorem manager_disconnect_closes_and_forgets :
  (forall (name : string) (m : Manager),
      mget name m = None -> disconnect name m = m)
  /\ (forall (name : string) (m : Manager) (c : World),
         mget name m = Some c ->
         let m' := disconnect name m in
         mget name m' = None
         /\ (forall other, other <> name -> mget other m' = mget other m)
         /\ released m' = released m ++ [close c]
         /\ closedClient (close c)
         /\ disconnect name m' = m')
  /\ (forall (m : Manager) (name : string),
         mget name (disconnectAll m) = None)
  /\ (forall (m : Manager) (name : string) (c : World),
         mget name m = Some c ->
         In (close c) (released (disconnectAll m))
         /\ closedClient (close c))
  /\ (forall m : Manager, disconnectAll (disconnectAll m) = disconnectAll m).
Proof.
  split; [| split; [| split; [| split]]].
  - intros name m H. unfold disconnect, mget in *. now rewrite H.
  - intros name m c H m'. subst m'. unfold disconnect, mget in *.
    rewrite H. simpl.
    split; [apply lookup_delete_eq |].
    split; [intros other Hne; now rewrite lookup_delete_ne by congruence |].
    split; [reflexivity |].
    split; [apply close_closedClient |].
    now rewrite lookup_delete_eq.
  - intros m name. unfold mget, disconnectAll. simpl. apply lookup_empty.
  - intros m name c H. split; [| apply close_closedClient].
    unfold disconnectAll, mget in *. simpl.
    apply in_or_app. right.
    apply in_map_iff. exists (name, c). split; [reflexivity |].
    apply list_elem_of_In. now apply elem_of_map_to_list.
  - intro m. unfold disconnectAll. simpl.
    rewrite map_to_list_empty. simpl. now rewrite app_nil_r.
Qed.

Lemma manager_disconnect_closes_and_forgets_witness :
  let m := fst (mconnect "news" defaults
                  (fst (mconnect "prices" defaults SSEManager.empty))) in
  mget "analyses" m = None
  /\ disconnect "analyses" m = m
  /\ mget "prices" (disconnect "prices" m) = None
  /\ mget "news" (disconnect "prices" m) = mget "news" m
  /\ mget "news" (disconnectAll m) = None
  /\ In (close (connect (initial defaults))) (released (disconnectAll m)).
Proof.
  intro m.
  destruct manager_disconnect_closes_and_forgets
    as (Hmiss & Hone & Hall & Hclosed & _).
  assert (Ha : mget "analyses" m = None) by reflexivity.
  assert (Hp : mget "prices" m = Some (connect (initial defaults)))
    by reflexivity.
  pose proof (Hone "prices"%string m _ Hp) as H. cbv zeta in H.
  destruct H as (Hnone & Hother & _).
  split; [exact Ha |].
  split; [exact (Hmiss _ m Ha) |].
  split; [exact Hnone |].
  split; [apply Hother; discriminate |].
  split; [apply Hall |].
  exact (proj1 (Hclosed m "prices"%string _ Hp)).
Defined.

End SSEManagerFacts.

(** ** The page's price stream (portfolio-page.js) *)

Module PriceStreamFacts.

Import PriceStream.

Ltac stream_step s e :=
  destruct s as [? ? ? ? ? ?];
  destruct e;
  unfold step, connectedCallback, disconnectedCallback,
    _handleVisibilityChange, onTimer, _connectPriceStream,
    _disconnectPriceStream, onerror, setConnected, dropTimer; simpl in *;
  repeat (match goal with
          | |- context [match ?x with _ => _ end] => destruct x eqn:?
          end; simpl in * ).

Lemma priceSources_snoc (lg : list SSE.Output) (o : SSE.Output) :
  SSEManager.liveSources (lg ++ [o])
  = SSEManager.liveAfter (SSEManager.liveSources lg) o.
Proof. unfold SSEManager.liveSources. now rewrite fold_left_app. Qed.

Lemma price_step_keeps_one_source (s : Stream) (e : Event) :
  SSEManager.liveSources (log s) = currentSource s ->
  SSEManager.liveSources (log (step s e)) = currentSource (step s e).
Proof.
  unfold currentSource. intro H. revert H.
  stream_step s e; intro H; simplify_eq;
    rewrite ?priceSources_snoc, ?H; simpl;
    rewrite ?Pos.eqb_refl; try reflexivity; try exact H.
Qed.

(** X7.  In every run of the page, the price sources opened and not yet
    closed are exactly the one [this._priceEventSource] holds, if any:
    [_connectPriceStream] always drops the current source first. *)
Theorem price_stream_one_source (es : list Event) :
  let s := run initial es in
  SSEManager.liveSources (log s) = currentSource s
  /\ (List.length (SSEManager.liveSources (log s)) <= 1)%nat.
Proof.
  intro s.
  assert (H : SSEManager.liveSources (log s) = currentSource s).
  { subst s.
    generalize initial
      (eq_refl : SSEManager.liveSources (log initial) = currentSource initial).
    induction es as [| e es IH]; intros s0 H0; [exact H0 |].
    change (run s0 (e :: es)) with (run (step s0 e) es).
    apply IH. now apply price_step_keeps_one_source. }
  split; [exact H |].
  rewrite H. unfold currentSource.
  destruct (_priceEventSource s); simpl; lia.
Qed.

(** A page out of the document, without a source. *)
Definition detached (s : Stream) : Prop :=
  isConnected s = false /\ _priceEventSource s = None.

Lemma detached_step (s : Stream) (e : Event) :
  detached s -> e <> Attached ->
  detached (step s e) /\ log (step s e) = log s.
Proof.
  unfold detached. intros [Hc Hs] He. revert Hc Hs.
  stream_step s e; intros Hc Hs; simplify_eq; try contradiction;
    repeat split.
Qed.

Lemma detached_run (es : list Event) (s : Stream) :
  detached s -> ~ In Attached es ->
  detached (run s es) /\ log (run s es) = log s.
Proof.
  revert s. induction es as [| e es IH]; intros s Hd Hn; [now split |].
  change (run s (e :: es)) with (run (step s e) es).
  destruct (detached_step s e Hd) as [Hd' Hl'];
    [intro E; apply Hn; now left |].
  destruct (IH (step s e) Hd') as [Hd2 Hl2];
    [intro H; apply Hn; now right |].
  split; [exact Hd2 | congruence].
Qed.

(** X8.  Once [disconnectedCallback] has run, nothing short of a new
    [connectedCallback] reopens the price stream: whatever timers of earlier
    errors fire afterwards, no source is opened and
    [this._priceEventSource] stays null, because the timer callback tests
    [this.isConnected]. *)
Theorem no_price_stream_after_detach (s : Stream) (es : list Event) :
  ~ In Attached es ->
  let s' := run (step s Detached) es in
  _priceEventSource s' = None
  /\ opened s' = opened (step s Detached)
  /\ opened (step s Detached) = opened s.
Proof.
  intros Hn s'.
  assert (Hd : detached (step s Detached)).
  { destruct s as [c src ts nt ns lg]. unfold detached. simpl.
    unfold disconnectedCallback, _disconnectPriceStream. simpl.
    destruct src; split; reflexivity. }
  destruct (detached_run es _ Hd Hn) as [[_ Hs] Hl].
  split; [exact Hs |].
  split; [unfold opened; subst s'; now rewrite Hl |].
  destruct s as [c src ts nt ns lg]. unfold opened. simpl.
  unfold disconnectedCallback, _disconnectPriceStream. simpl.
  destruct src; simpl; [| reflexivity].
  rewrite flat_map_app. simpl. now rewrite app_nil_r.
Qed.

Lemma no_price_stream_after_detach_witness :
  let s := run initial [Attached; StreamError; StreamError] in
  let s' := run (step s Detached)
                [TimerFires 1%positive; VisibilityChange false;
                 TimerFires 2%positive] in
  timers s = [1%positive; 2%positive]
  /\ _priceEventSource s' = None
  /\ opened s' = [1%positive].
Proof.
  intros s s'.
  assert (Hn : ~ In Attached [TimerFires 1%positive; VisibilityChange false;
                              TimerFires 2%positive]).
  { simpl. intros [H | [H | [H | H]]]; try discriminate H. exact H. }
  pose proof (no_price_stream_after_detach s _ Hn) as H.
  cbv zeta in H. fold s' in H. destruct H as (Hs & Ho & Ho').
  split; [reflexivity |].
  split; [exact Hs |].
  rewrite Ho, Ho'. reflexivity.
Defined.

(** X9.  Hiding the page closes the stream but cancels no timer, and the
    timer callback does not look at the visibility: on a page that is in
    the document, a reconnect timer pending when the page is hidden
    reopens the stream when it fires, hidden or not. *)
Theorem pending_timer_reopens_hidden_page (s : Stream) (id : positive) :
  isConnected s = true ->
  In id (timers s) ->
  let hiddenPage := step s (VisibilityChange true) in
  _priceEventSource hiddenPage = None
  /\ timers hiddenPage = timers s
  /\ _priceEventSource (step hiddenPage (TimerFires id))
     = Some (nextSource s).
Proof.
  intros Hc Hin hiddenPage. subst hiddenPage.
  destruct s as [c src ts nt ns lg]. simpl in Hc, Hin. subst c.
  assert (He : existsb (Pos.eqb id) ts = true).
  { apply existsb_exists. exists id. split; [exact Hin | apply Pos.eqb_refl]. }
  unfold step. simpl. unfold _handleVisibilityChange, _disconnectPriceStream.
  simpl. destruct src; simpl; rewrite He; repeat split.
Qed.

Lemma pending_timer_reopens_hidden_page_witness :
  let s := run initial [Attached; StreamError] in
  let hiddenPage := step s (VisibilityChange true) in
  _priceEventSource hiddenPage = None
  /\ _priceEventSource (step hiddenPage (TimerFires 1%positive))
     = Some 2%positive.
Proof.
  intros s hiddenPage.
  assert (Hin : In 1%positive (timers s)) by (left; reflexivity).
  pose proof (pending_timer_reopens_hidden_page s 1%positive eq_refl Hin) as H.
  cbv zeta in H. fold hiddenPage in H. destruct H as (H1 & _ & H2).
  split; [exact H1 | exact H2].
Defined.

End PriceStreamFacts.

(** ** Views, currencies and the price request (portfolio-page.js) *)

Module PageHelpersFacts.

Import PortfolioPage PageHelpers.

(** *** Suffixes *)

Lemma length_append (a b : string) :
  String.length (String.append a b) = (String.length a + String.length b)%nat.
Proof. induction a as [| c a IH]; simpl; [reflexivity | now rewrite IH]. Qed.

Lemma substring_0_all (s : string) : substring 0 (String.length s) s = s.
Proof. induction s as [| c s IH]; simpl; [reflexivity | now rewrite IH]. Qed.

Lemma substring_skip (p s : string) (m : nat) :
  substring (String.length p) m (String.append p s) = substring 0 m s.
Proof. induction p as [| c p IH]; simpl; [reflexivity | exact IH]. Qed.

Lemma string_append_assoc (a b c : string) :
  String.append (String.append a b) c = String.append a (String.append b c).
Proof.
  induction a as [| x a IH]; [reflexivity |].
  change (String x (String.append (String.append a b) c)
          = String x (String.append a (String.append b c))).
  now rewrite IH.
Qed.

Lemma append_cons (c : Ascii.ascii) (a b : string) :
  String.append (String c a) b = String c (String.append a b).
Proof. reflexivity. Qed.

Lemma split_at (k : nat) (t : string) :
  (k <= String.length t)%nat ->
  t = String.append (substring 0 k t) (substring k (String.length t - k) t).
Proof.
  revert k. induction t as [| c t IH]; intros k Hk.
  - simpl in Hk. assert (k = 0%nat) by lia. subst. reflexivity.
  - destruct k as [| k].
    + simpl. now rewrite substring_0_all.
    + simpl in Hk. simpl. rewrite append_cons. f_equal. apply IH. lia.
Qed.

Lemma endsWith_append (p s : string) :
  PositionCard.endsWith (String.append p s) s = true.
Proof.
  unfold PositionCard.endsWith. rewrite length_append.
  apply andb_true_iff. split.
  - apply Nat.leb_le. lia.
  - replace (String.length p + String.length s - String.length s)%nat
      with (String.length p) by lia.
    rewrite substring_skip, substring_0_all. apply String.eqb_refl.
Qed.

Lemma endsWith_inv (t s : string) :
  PositionCard.endsWith t s = true -> exists p, t = String.append p s.
Proof.
  unfold PositionCard.endsWith. intro H.
  apply andb_true_iff in H. destruct H as [Hle Heq].
  apply Nat.leb_le in Hle. apply String.eqb_eq in Heq.
  exists (substring 0 (String.length t - String.length s) t).
  rewrite <- Heq at 2.
  replace (String.length s)
    with (String.length t - (String.length t - String.length s))%nat at 3
    by lia.
  apply split_at. lia.
Qed.

Lemma append_suffix_inj (p q s t : string) :
  String.append p s = String.append q t ->
  String.length s = String.length t -> s = t.
Proof.
  revert q. induction p as [| c p IH]; intros q H Hl.
  - destruct q as [| d q]; [exact H |].
    apply (f_equal String.length) in H.
    rewrite !length_append in H. simpl in H. lia.
  - destruct q as [| d q].
    + apply (f_equal String.length) in H.
      rewrite !length_append in H. simpl in H. lia.
    + rewrite !append_cons in H. injection H as _ H. now apply (IH q).
Qed.

(** A string that ends with [s] does not end with [t1 ++ t2] when [t2] has
    the length of [s] and differs from it. *)
Lemma endsWith_other (p s t1 t2 : string) :
  String.length s = String.length t2 -> s <> t2 ->
  PositionCard.endsWith (String.append p s) (String.append t1 t2) = false.
Proof.
  intros Hl Hne.
  destruct (PositionCard.endsWith (String.append p s) (String.append t1 t2))
    eqn:E; [| reflexivity].
  apply endsWith_inv in E. destruct E as [q E].
  rewrite <- string_append_assoc in E.
  apply append_suffix_inj in E; [contradiction | exact Hl].
Qed.

Ltac other_suffix t1 t2 :=
  match goal with
  | |- context [PositionCard.endsWith (String.append ?p ?s) ?t] =>
      change t with (String.append t1 t2);
      rewrite (endsWith_other p s t1 t2) by (try reflexivity; discriminate)
  end.

(** X10.  The market currency depends on the suffix of the ticker alone:
    whatever precedes it, [.SW] and [.VX] give CHF, [.PA], [.DE] and [.AS]
    give EUR, [.L] gives GBP; a ticker classified otherwise than USD ends
    with one of these six suffixes.  The page's [_getTickerCurrency] and the
    card's [marketCurrency] agree on every position. *)
Theorem ticker_currency_by_suffix :
  (forall p : string,
      _getTickerCurrency (String.append p ".SW") = PositionCard.CHF
      /\ _getTickerCurrency (String.append p ".VX") = PositionCard.CHF
      /\ _getTickerCurrency (String.append p ".PA") = PositionCard.EUR
      /\ _getTickerCurrency (String.append p ".DE") = PositionCard.EUR
      /\ _getTickerCurrency (String.append p ".AS") = PositionCard.EUR
      /\ _getTickerCurrency (String.append p ".L") = PositionCard.GBP)
  /\ (forall t : string,
         _getTickerCurrency t <> PositionCard.USD ->
         exists p suffix,
           t = String.append p suffix
           /\ In suffix [".SW"; ".VX"; ".PA"; ".DE"; ".AS"; ".L"]%string)
  /\ (forall pos : Position,
         _getTickerCurrency (ticker pos) = PositionCard.marketCurrency pos).
Proof.
  split; [| split].
  - intro p. unfold _getTickerCurrency. repeat split.
    + now rewrite endsWith_append.
    + rewrite (endsWith_append p ".VX"). now rewrite orb_true_r.
    + other_suffix ""%string ".SW"%string.
      other_suffix ""%string ".VX"%string.
      now rewrite endsWith_append.
    + other_suffix ""%string ".SW"%string.
      other_suffix ""%string ".VX"%string.
      other_suffix ""%string ".PA"%string.
      now rewrite endsWith_append.
    + other_suffix ""%string ".SW"%string.
      other_suffix ""%string ".VX"%string.
      other_suffix ""%string ".PA"%string.
      other_suffix ""%string ".DE"%string.
      now rewrite endsWith_append.
    + other_suffix "."%string "SW"%string.
      other_suffix "."%string "VX"%string.
      other_suffix "."%string "PA"%string.
      other_suffix "."%string "DE"%string.
      other_suffix "."%string "AS"%string.
      now rewrite endsWith_append.
  - intros t H. unfold _getTickerCurrency in H.
    destruct (PositionCard.endsWith t ".SW") eqn:E1;
      [apply endsWith_inv in E1; destruct E1 as [p ->];
       exists p, ".SW"%string; simpl; tauto |].
    destruct (PositionCard.endsWith t ".VX") eqn:E2;
      [apply endsWith_inv in E2; destruct E2 as [p ->];
       exists p, ".VX"%string; simpl; tauto |].
    destruct (PositionCard.endsWith t ".PA") eqn:E3;
      [apply endsWith_inv in E3; destruct E3 as [p ->];
       exists p, ".PA"%string; simpl; tauto |].
    destruct (PositionCard.endsWith t ".DE") eqn:E4;
      [apply endsWith_inv in E4; destruct E4 as [p ->];
       exists p, ".DE"%string; simpl; tauto |].
    destruct (PositionCard.endsWith t ".AS") eqn:E5;
      [apply endsWith_inv in E5; destruct E5 as [p ->];
       exists p, ".AS"%string; simpl; tauto |].
    destruct (PositionCard.endsWith t ".L") eqn:E6;
      [apply endsWith_inv in E6; destruct E6 as [p ->];
       exists p, ".L"%string; simpl; tauto |].
    simpl in H. contradiction.
  - intro pos. reflexivity.
Qed.

(** *** The open and closed views *)

(** X11.  The views [open] and [closed] of [filteredPositions] split the
    list: each position is in exactly one of them (a stopped position is in
    the closed view), both keep the order of the list, their lengths add up
    to the length of the list, and any other filter shows the whole list. *)
Theorem filteredPositions_partition (positions : list Position) :
  let opens := filteredPositions "open" positions in
  let closeds := filteredPositions "closed" positions in
  (forall p, In p opens <-> In p positions /\ status p = open)
  /\ (forall p, In p closeds <-> In p positions /\ status p <> open)
  /\ (List.length opens + List.length closeds = List.length positions)%nat
  /\ sublist opens positions
  /\ sublist closeds positions
  /\ (forall f : string, f <> "open"%string -> f <> "closed"%string ->
                         filteredPositions f positions = positions).
Proof.
  intros opens closeds. subst opens closeds. unfold filteredPositions.
  simpl.
  split; [| split; [| split; [| split; [| split]]]].
  - intro p. rewrite filter_In. now rewrite Status_eqb_open.
  - intro p. rewrite filter_In, negb_true_iff.
    split; intros [Hin H]; split; try exact Hin.
    + intro E. apply Status_eqb_open in E. congruence.
    + destruct (Status_eqb (status p) open) eqn:E; [| reflexivity].
      apply Status_eqb_open in E. contradiction.
  - induction positions as [| p ps IH]; [reflexivity |].
    simpl. destruct (Status_eqb (status p) open); simpl; lia.
  - induction positions as [| p ps IH]; simpl; [constructor |].
    destruct (Status_eqb (status p) open); now constructor.
  - induction positions as [| p ps IH]; simpl; [constructor |].
    destruct (Status_eqb (status p) open); now constructor.
  - intros f H1 H2.
    apply String.eqb_neq in H1. apply String.eqb_neq in H2.
    now rewrite H1, H2.
Qed.

Lemma filteredPositions_partition_witness :
  filteredPositions "open" [Scenarios.openA; Scenarios.closedC; Scenarios.openB]
  = [Scenarios.openA; Scenarios.openB]
  /\ filteredPositions "closed"
       [Scenarios.openA; Scenarios.closedC; Scenarios.openB]
     = [Scenarios.closedC]
  /\ filteredPositions "all"
       [Scenarios.openA; Scenarios.closedC; Scenarios.openB]
     = [Scenarios.openA; Scenarios.closedC; Scenarios.openB].
Proof.
  pose proof (filteredPositions_partition
                [Scenarios.openA; Scenarios.closedC; Scenarios.openB]) as H.
  cbv zeta in H. destruct H as (_ & _ & _ & _ & _ & Hall).
  split; [reflexivity |]. split; [reflexivity |].
  apply Hall; discriminate.
Defined.

(** *** Display currency *)

Lemma div_Fin (a b : Q) : ~ b == 0 -> (Fin a / Fin b)%js = Fin (a / b).
Proof.
  intro H. simpl. apply Qeq_bool_false_iff in H. now rewrite H.
Qed.

(** X12.  [_convertToDisplayCurrency] returns the price unchanged when the
    two currencies are the same, whether or not the table knows them.
    Between two different currencies with rates [a] (non-zero) and [b] it
    returns [price / a * b], which for positive rates keeps the order of
    prices; converting the result back gives the price again in exact
    arithmetic.  When the table has no rate for the source currency the
    result is NaN. *)
Theorem convertToDisplayCurrency_spec
        (rates : gmap string Q) (from to : string) (a b : Q) :
  from <> to ->
  rates !! from = Some a ->
  rates !! to = Some b ->
  ~ a == 0 ->
  (forall (c : string) (price : num),
      _convertToDisplayCurrency rates c price c = price)
  /\ (forall p : Q,
         _convertToDisplayCurrency rates to (Fin p) from = Fin (p / a * b))
  /\ (forall p q : Q,
         0 < a -> 0 < b -> p <= q ->
         (_convertToDisplayCurrency rates to (Fin p) from
          <=? _convertToDisplayCurrency rates to (Fin q) from)%js = true)
  /\ (forall p : Q,
         ~ b == 0 ->
         _convertToDisplayCurrency rates from
           (_convertToDisplayCurrency rates to (Fin p) from) to
         =n= Fin p)
  /\ (forall (unknown : string) (p : Q),
         unknown <> to -> rates !! unknown = None ->
         _convertToDisplayCurrency rates to (Fin p) unknown = NaN).
Proof.
  intros Hne Ha Hb Hnz.
  assert (Hconv : forall p : Q,
             _convertToDisplayCurrency rates to (Fin p) from
             = Fin (p / a * b)).
  { intro p. unfold _convertToDisplayCurrency.
    apply String.eqb_neq in Hne. rewrite Hne, Ha, Hb. simpl get.
    simpl toNumber. now rewrite div_Fin. }
  split; [| split; [| split; [| split]]].
  - intros c price. unfold _convertToDisplayCurrency.
    now rewrite String.eqb_refl.
  - exact Hconv.
  - intros p q Ha0 Hb0 Hpq. rewrite !Hconv. simpl.
    apply Qle_bool_iff.
    apply Qmult_le_compat_r; [| lra].
    unfold Qdiv. apply Qmult_le_compat_r; [exact Hpq |].
    apply Qlt_le_weak. now apply Qinv_lt_0_compat.
  - intros p Hbnz. rewrite Hconv. unfold _convertToDisplayCurrency.
    assert (Hne' : to <> from) by congruence.
    apply String.eqb_neq in Hne'. rewrite Hne', Ha, Hb. simpl get.
    simpl toNumber. rewrite div_Fin by exact Hbnz. simpl. field. now split.
  - intros unknown p Hu Hnone. unfold _convertToDisplayCurrency.
    apply String.eqb_neq in Hu. rewrite Hu, Hnone. reflexivity.
Qed.

Lemma convertToDisplayCurrency_spec_witness :
  _convertToDisplayCurrency defaultRates "CHF" (Fin 100) "USD" =n= Fin 88
  /\ _convertToDisplayCurrency defaultRates "EUR" (Fin 88) "CHF" =n= Fin 92
  /\ _convertToDisplayCurrency defaultRates "USD"
       (_convertToDisplayCurrency defaultRates "CHF" (Fin 100) "USD") "CHF"
     =n= Fin 100
  /\ _convertToDisplayCurrency defaultRates "CHF" (Fin 100) "JPY" = NaN
  /\ _convertToDisplayCurrency defaultRates "JPY" (Fin 100) "JPY" = Fin 100.
Proof.
  assert (Hne : "USD"%string <> "CHF"%string) by discriminate.
  assert (Hnz : ~ 1 == 0) by (intro H; discriminate H).
  destruct (convertToDisplayCurrency_spec defaultRates "USD" "CHF" 1 (88 # 100)
              Hne eq_refl eq_refl Hnz) as (Hsame & Hconv & _ & Hback & Hnan).
  split; [rewrite Hconv; vm_compute; reflexivity |].
  split; [vm_compute; reflexivity |].
  split; [apply Hback; intro H; discriminate H |].
  split; [apply Hnan; [discriminate | reflexivity] |].
  apply Hsame.
Defined.

(** *** The price request *)

Lemma existsb_eqb_In (x : string) (l : list string) :
  existsb (String.eqb x) l = true <-> In x l.
Proof.
  rewrite existsb_exists. split.
  - intros (y & Hin & E). apply String.eqb_eq in E. now subst.
  - intro Hin. exists x. split; [exact Hin | apply String.eqb_refl].
Qed.

Lemma setOf_from (l acc : list string) :
  List.NoDup acc ->
  let r := fold_left (fun acc x =>
                        if existsb (String.eqb x) acc then acc else acc ++ [x])
                     l acc in
  List.NoDup r /\ (forall x, In x r <-> In x acc \/ In x l).
Proof.
  revert acc. induction l as [| a l IH]; intros acc Hnd; cbv zeta; simpl.
  - split; [exact Hnd | intro x; tauto].
  - destruct (existsb (String.eqb a) acc) eqn:E.
    + destruct (IH acc Hnd) as [H1 H2]. split; [exact H1 |].
      intro x. rewrite H2. apply existsb_eqb_In in E.
      split; [tauto |]. intros [H | [<- | H]]; tauto.
    + assert (Hn : ~ In a acc).
      { intro Hin. apply existsb_eqb_In in Hin. congruence. }
      assert (Hnd' : List.NoDup (acc ++ [a])).
      { apply NoDup_ListNoDup. apply NoDup_app. repeat split.
        - now apply NoDup_ListNoDup.
        - intros x Hx Hx'. apply list_elem_of_In in Hx.
          apply list_elem_of_In in Hx'. destruct Hx' as [<- | []].
          contradiction.
        - apply NoDup_ListNoDup. repeat constructor. simpl. tauto. }
      destruct (IH (acc ++ [a]) Hnd') as [H1 H2]. split; [exact H1 |].
      intro x. rewrite H2, in_app_iff. simpl. tauto.
Qed.



End PageHelpersFacts.

(** ** More on valuation and the targets bar (position-card.js) *)

Module PositionCardMoreFacts.

Import PositionCard PositionCardFacts.

Lemma orNum_Number_Fin (z : Q) : orNum (Number (Fin z)) (Fin 0) =n= Fin z.
Proof.
  unfold orNum. simpl. destruct (Qeq_bool z 0) eqn:E; simpl.
  - apply Qeq_bool_iff in E. lra.
  - reflexivity.
Qed.

(** The fields of [pnlData] when it computes the figures itself. *)
Lemma pnlData_local (p : Position) :
  Tick.pnl (liveData_of p) = None ->
  pnl_value p = None ->
  exists e q x c f : Q,
    orNum (get (entry_price p)) (Fin 0) = Fin e
    /\ orNum (get (Model.quantity p)) (Fin 1) = Fin q
    /\ orNum (get (exit_price p)) (resolvedPrice p) = Fin x
    /\ resolvedPrice p = Fin c
    /\ fees (pnlData p) = Fin f
    /\ PositionCard.invested (pnlData p) = Fin (e * q)
    /\ currentValue (pnlData p) = Fin (c * q)
    /\ gross (pnlData p) =n= Fin (x * q - e * q)
    /\ PositionCard.value (pnlData p) =n= Fin (x * q - e * q - f)
    /\ percent (pnlData p)
       =n= Fin (if Qlt_bool 0 (e * q)
                then (x * q - e * q - f) / (e * q) * 100 else 0)
    /\ isProfit (pnlData p) = Qle_bool 0 (x * q - e * q - f).
Proof.
  intros Hpnl Hval.
  unfold pnlData, totalFees_of. rewrite Hpnl, Hval. simpl.
  rewrite rate_lookup.
  destruct (is_finite_inv _ (orNum_get_finite (entry_price p) (Fin 0) I))
    as [e He].
  destruct (is_finite_inv _ (orNum_get_finite (Model.quantity p) (Fin 1) I))
    as [q Hq].
  destruct (is_finite_inv _ (orNum_get_finite (buy_commission p) (Fin 0) I))
    as [b Hb].
  destruct (is_finite_inv _ (orNum_get_finite (sell_commission p) (Fin 0) I))
    as [s Hs].
  destruct (is_finite_inv _ (resolvedPrice_finite p)) as [c Hc].
  rewrite Hc.
  destruct (is_finite_inv _ (orNum_get_finite (exit_price p) (Fin c) I))
    as [x Hx].
  rewrite He, Hq, Hb, Hs, Hx. simpl.
  exists e, q, x, c, ((b + s) * rateOf (marketCurrency p)).
  repeat split.
  - etransitivity; [apply orNum_Number_Fin |]. simpl. lra.
  - etransitivity; [apply orNum_Number_Fin |]. simpl. lra.
  - destruct (Qlt_bool 0 (e * q)) eqn:Hlt.
    + apply Qlt_bool_iff in Hlt.
      assert (Hne : Qeq_bool (e * q) 0 = false)
        by (apply Qeq_bool_false_iff; lra).
      rewrite Hne. etransitivity; [apply orNum_Number_Fin |]. simpl.
      assert (E : x * q + - (e * q) + - ((b + s) * rateOf (marketCurrency p))
                  == x * q - e * q - (b + s) * rateOf (marketCurrency p))
        by ring.
      now rewrite E.
    + etransitivity; [apply orNum_Number_Fin |]. reflexivity.
  - set (v := x * q + - (e * q) + - ((b + s) * rateOf (marketCurrency p))).
    assert (Hv : orNum (Number (Fin v)) (Fin 0) =n= Fin v)
      by apply orNum_Number_Fin.
    destruct (orNum (Number (Fin v)) (Fin 0)) as [w | | |] eqn:Ew;
      simpl in Hv; try contradiction.
    unfold geb. simpl.
    assert (Hvv : v == x * q - e * q - (b + s) * rateOf (marketCurrency p))
      by (subst v; ring).
    destruct (Qle_bool 0 w) eqn:E1.
    + apply Qle_bool_iff in E1. symmetry. apply Qle_bool_iff. lra.
    + apply Qle_bool_false_iff in E1. symmetry.
      apply Qle_bool_false_iff. lra.
Qed.

(** X14.  When [pnlData] computes the figures itself (no [pnl] block on the
    tick, no stored [pnl_value]): net P&L = gross P&L - fees; for a position
    without exit price gross P&L = current value - invested; when the
    invested amount is positive, percentage x invested = 100 x net P&L; and
    [isProfit] holds exactly when the net P&L is not negative. *)
Theorem pnlData_local_identities (p : Position) :
  Tick.pnl (liveData_of p) = None ->
  pnl_value p = None ->
  exists net gr fe inv cur pct : Q,
    PositionCard.value (pnlData p) =n= Fin net
    /\ gross (pnlData p) =n= Fin gr
    /\ fees (pnlData p) = Fin fe
    /\ PositionCard.invested (pnlData p) = Fin inv
    /\ currentValue (pnlData p) = Fin cur
    /\ percent (pnlData p) =n= Fin pct
    /\ net == gr - fe
    /\ (absent (exit_price p) -> gr == cur - inv)
    /\ (0 < inv -> pct * inv == 100 * net)
    /\ (inv <= 0 -> pct == 0)
    /\ (isProfit (pnlData p) = true <-> 0 <= net).
Proof.
  intros Hpnl Hval.
  destruct (pnlData_local p Hpnl Hval)
    as (e & q & x & c & f & He & Hq & Hx & Hc & Hf & Hi & Hcv & Hg & Hv & Hp
        & Hprofit).
  exists (x * q - e * q - f), (x * q - e * q), f, (e * q), (c * q),
    (if Qlt_bool 0 (e * q) then (x * q - e * q - f) / (e * q) * 100 else 0).
  repeat split; try assumption; try reflexivity.
  - intro Habs. rewrite (orNum_absent _ _ Habs), Hc in Hx.
    injection Hx as <-. reflexivity.
  - intro Hpos. apply Qlt_bool_iff in Hpos. rewrite Hpos.
    apply Qlt_bool_iff in Hpos.
    clear - Hpos. set (i := e * q) in *. clearbody i.
    set (xq := x * q). clearbody xq. field. lra.
  - intro Hle. apply Qlt_bool_false_iff in Hle. now rewrite Hle.
  - rewrite Hprofit. apply Qle_bool_iff.
  - rewrite Hprofit. apply Qle_bool_iff.
Qed.

Lemma pnlData_local_identities_witness :
  exists net gr pct : Q,
    PositionCard.value (pnlData (Scenarios.valuationPosition "NESN.SW"))
    =n= Fin net
    /\ gross (pnlData (Scenarios.valuationPosition "NESN.SW")) =n= Fin gr
    /\ percent (pnlData (Scenarios.valuationPosition "NESN.SW")) =n= Fin pct
    /\ net == gr - 5
    /\ pct * 1000 == 100 * net.
Proof.
  destruct (pnlData_local_identities (Scenarios.valuationPosition "NESN.SW")
              eq_refl eq_refl)
    as (net & gr & fe & inv & cur & pct & Hv & Hg & Hf & Hi & _ & Hp & Hn & _
        & Hpct & _).
  exists net, gr, pct.
  assert (Efe : fe == 5).
  { assert (H : Fin fe =n= Fin 5) by (rewrite <- Hf; vm_compute; reflexivity).
    exact H. }
  assert (Einv : inv == 1000).
  { assert (H : Fin inv =n= Fin 1000)
      by (rewrite <- Hi; vm_compute; reflexivity).
    exact H. }
  split; [exact Hv |]. split; [exact Hg |]. split; [exact Hp |].
  split; [rewrite Hn, Efe; reflexivity |].
  rewrite <- Einv. apply Hpct. rewrite Einv. reflexivity.
Defined.

(** *** The marker *)

Lemma clamp_monotone (a b : Q) : a <= b -> clamp a <= clamp b.
Proof.
  intro H. unfold clamp.
  apply Q.max_le_compat_l. now apply Q.min_le_compat_l.
Qed.

Lemma ratio_monotone (a b s w : Q) :
  0 < w -> a <= b -> (a - s) / w * 100 <= (b - s) / w * 100.
Proof.
  intros Hw Hab.
  apply Qmult_le_compat_r; [| lra].
  unfold Qdiv. apply Qmult_le_compat_r; [lra |].
  apply Qlt_le_weak. now apply Qinv_lt_0_compat.
Qed.

(** X15.  [markerPosition] is always a finite number between 2 and 98: the
    price mapped linearly onto the range of the bar and clamped, or 50 when
    the range has no positive width.  For given levels it never decreases
    when the price rises. *)
Theorem markerPosition_within_bar :
  (forall p : Position,
      exists c s t m : Q,
        currentPrice (pnlData p) = Fin c
        /\ markerRange p = (Fin s, Fin t)
        /\ markerPosition p =n= Fin m
        /\ 2 <= m <= 98
        /\ (t - s <= 0 -> m == 50)
        /\ (0 < t - s -> m == clamp ((c - s) / (t - s) * 100)))
  /\ (forall (p p' : Position) (c c' m m' : Q),
         currentPrice (pnlData p) = Fin c ->
         currentPrice (pnlData p') = Fin c' ->
         markerRange p = markerRange p' ->
         markerPosition p =n= Fin m ->
         markerPosition p' =n= Fin m' ->
         c <= c' -> m <= m').
Proof.
  split.
  - intro p.
    destruct (markerRange_finite p) as (s & t & Hr).
    destruct (is_finite_inv _ (resolvedPrice_finite p)) as [c Hc].
    rewrite <- currentPrice_pnlData in Hc.
    destruct (markerPosition_spec p c s t Hc Hr) as [Hz Hl].
    destruct (Qlt_le_dec 0 (t - s)) as [Hpos | Hneg].
    + exists c, s, t, (clamp ((c - s) / (t - s) * 100)).
      split; [exact Hc |]. split; [exact Hr |].
      split; [now apply Hl |].
      split; [apply clamp_bounds |].
      split; [intro H; lra | intros _; reflexivity].
    + exists c, s, t, 50.
      split; [exact Hc |]. split; [exact Hr |].
      split; [rewrite (Hz Hneg); reflexivity |].
      split; [lra |].
      split; [intros _; reflexivity | intro H; lra].
  - intros p p' c c' m m' Hc Hc' Hr Hm Hm' Hle.
    destruct (markerRange_finite p) as (s & t & Hrp).
    assert (Hrp' : markerRange p' = (Fin s, Fin t)) by congruence.
    destruct (markerPosition_spec p c s t Hc Hrp) as [Hz Hl].
    destruct (markerPosition_spec p' c' s t Hc' Hrp') as [Hz' Hl'].
    destruct (Qlt_le_dec 0 (t - s)) as [Hpos | Hneg].
    + specialize (Hl Hpos). specialize (Hl' Hpos).
      assert (E : Fin m =n= Fin (clamp ((c - s) / (t - s) * 100)))
        by (etransitivity; [symmetry; exact Hm | exact Hl]).
      assert (E' : Fin m' =n= Fin (clamp ((c' - s) / (t - s) * 100)))
        by (etransitivity; [symmetry; exact Hm' | exact Hl']).
      simpl in E, E'. rewrite E, E'.
      apply clamp_monotone. now apply ratio_monotone.
    + rewrite (Hz Hneg) in Hm. rewrite (Hz' Hneg) in Hm'.
      simpl in Hm, Hm'. lra.
Qed.

Lemma markerPosition_within_bar_witness :
  exists m m' : Q,
    markerPosition (Scenarios.targetsPosition 90 110 120 100 open) =n= Fin m
    /\ markerPosition (Scenarios.targetsPosition 90 110 120 125 open)
       =n= Fin m'
    /\ m <= m' /\ m' == 98.
Proof.
  exists (100 # 3), 98.
  assert (H1 : markerPosition (Scenarios.targetsPosition 90 110 120 100 open)
               =n= Fin (100 # 3)) by (vm_compute; reflexivity).
  assert (H2 : markerPosition (Scenarios.targetsPosition 90 110 120 125 open)
               =n= Fin 98) by (vm_compute; reflexivity).
  split; [exact H1 |]. split; [exact H2 |].
  split; [| reflexivity].
  apply (proj2 markerPosition_within_bar
               (Scenarios.targetsPosition 90 110 120 100 open)
               (Scenarios.targetsPosition 90 110 120 125 open)
               100 125 (100 # 3) 98 eq_refl eq_refl eq_refl H1 H2).
  discriminate.
Defined.

(** X16.  With the four levels set and ordered, stop-loss < entry <=
    take-profit 1 <= take-profit 2 (stop-loss positive), the marker and the
    two reference lines are mapped onto the same range [stop-loss,
    take-profit 2]; the entry line sits at (entry - stop-loss) / (take-profit
    2 - stop-loss) x 100, the take-profit 1 line likewise, and 0 < entry
    line <= take-profit 1 line <= 100. *)
Theorem reference_lines_ordered (p : Position) (s e t1 t2 : Q) :
  stop_loss p = Some s ->
  entry_price p = Some e ->
  take_profit_1 p = Some t1 ->
  take_profit_2 p = Some t2 ->
  0 < s -> s < e -> e <= t1 -> t1 <= t2 ->
  markerRange p = (Fin s, Fin t2)
  /\ referenceRange p = (Fin s, Fin t2)
  /\ entryPosition p =n= Fin ((e - s) / (t2 - s) * 100)
  /\ tp1Position p =n= Fin ((t1 - s) / (t2 - s) * 100)
  /\ 0 < (e - s) / (t2 - s) * 100
  /\ (e - s) / (t2 - s) * 100 <= (t1 - s) / (t2 - s) * 100
  /\ (t1 - s) / (t2 - s) * 100 <= 100.
Proof.
  intros Hs He Ht1 Ht2 Hs0 Hse Het1 Ht12.
  assert (Hw : 0 < t2 - s) by lra.
  assert (Hr : referenceRange p = (Fin s, Fin t2)).
  { unfold referenceRange. rewrite Hs, He, Ht2.
    rewrite !orNum_get_Some by lra. reflexivity. }
  assert (Hm : markerRange p = (Fin s, Fin t2)).
  { unfold markerRange. rewrite Hs, He, Ht1, Ht2.
    rewrite !orNum_get_Some by lra. reflexivity. }
  assert (E : Qle_bool (t2 + - s) 0 = false)
    by (apply Qle_bool_false_iff; lra).
  assert (E0 : Qeq_bool (t2 + - s) 0 = false)
    by (apply Qeq_bool_false_iff; lra).
  split; [exact Hm |]. split; [exact Hr |].
  split; [| split; [| split; [| split]]].
  - unfold entryPosition. rewrite Hr, He.
    rewrite orNum_get_Some by lra. simpl. rewrite E, E0. simpl.
    assert (H : (e + - s) / (t2 + - s) * 100 == (e - s) / (t2 - s) * 100)
      by reflexivity.
    exact H.
  - unfold tp1Position. rewrite Hr, He, Ht1.
    rewrite !orNum_get_Some by lra. simpl. rewrite E, E0. simpl.
    assert (H : (t1 + - s) / (t2 + - s) * 100 == (t1 - s) / (t2 - s) * 100)
      by reflexivity.
    exact H.
  - apply Qmult_lt_0_compat; [| lra].
    apply Qlt_shift_div_l; lra.
  - now apply ratio_monotone.
  - assert (H : (t1 - s) / (t2 - s) * 100 <= (t2 - s) / (t2 - s) * 100)
      by now apply ratio_monotone.
    assert (H1 : (t2 - s) / (t2 - s) == 1) by (field; lra).
    rewrite H1 in H. lra.
Qed.

Lemma reference_lines_ordered_witness :
  let p := Scenarios.targetsPosition 90 110 120 100 open in
  entryPosition p =n= Fin ((100 - 90) / (120 - 90) * 100)
  /\ tp1Position p =n= Fin ((110 - 90) / (120 - 90) * 100)
  /\ markerRange p = referenceRange p.
Proof.
  intro p.
  destruct (reference_lines_ordered p 90 100 110 120
              eq_refl eq_refl eq_refl eq_refl)
    as (Hm & Hr & He & Ht & _); try reflexivity; try discriminate.
  split; [exact He |]. split; [exact Ht |]. congruence.
Defined.

End PositionCardMoreFacts.

(** ** Time range, min/max and line drawings (portfolio-chart) *)

Module ChartLinesFacts.

Import PortfolioChart ChartLines.

(** *** Minimum and maximum of a list *)

Lemma listMin_spec (l : list Q) :
  l <> [] ->
  exists m, listMin l = Fin m /\ In m l /\ forall q, In q l -> m <= q.
Proof.
  induction l as [| a l IH]; [congruence |]. intros _.
  destruct l as [| b l'].
  - exists a. simpl. repeat split; [now left |].
    intros q [<- | []]. lra.
  - destruct IH as (m & Hm & Hin & Hle); [discriminate |].
    change (listMin (a :: b :: l')) with (JSNum.min (Fin a) (listMin (b :: l'))).
    rewrite Hm. simpl JSNum.min.
    destruct (Qle_bool a m) eqn:E.
    + apply Qle_bool_iff in E. exists a. repeat split; [now left |].
      intros q [<- | Hq]; [lra |]. specialize (Hle q Hq). lra.
    + apply Qle_bool_false_iff in E. exists m.
      repeat split; [now right |].
      intros q [<- | Hq]; [lra | now apply Hle].
Qed.

Lemma listMax_spec (l : list Q) :
  l <> [] ->
  exists m, listMax l = Fin m /\ In m l /\ forall q, In q l -> q <= m.
Proof.
  induction l as [| a l IH]; [congruence |]. intros _.
  destruct l as [| b l'].
  - exists a. simpl. repeat split; [now left |].
    intros q [<- | []]. lra.
  - destruct IH as (m & Hm & Hin & Hle); [discriminate |].
    change (listMax (a :: b :: l')) with (JSNum.max (Fin a) (listMax (b :: l'))).
    rewrite Hm. simpl JSNum.max.
    destruct (Qle_bool a m) eqn:E.
    + apply Qle_bool_iff in E. exists m. repeat split; [now right |].
      intros q [<- | Hq]; [lra | now apply Hle].
    + apply Qle_bool_false_iff in E. exists a.
      repeat split; [now left |].
      intros q [<- | Hq]; [lra |]. specialize (Hle q Hq). lra.
Qed.

(** *** The time range *)

(** X17.  [_changeTimeRange] never moves the index out of the table of six
    ranges: from an index inside the table, a step that would leave it
    changes nothing and fetches nothing, any other step moves the index
    and fetches the days of the new range; so after any sequence of steps
    from the initial index 2 [currentTimeRange] is defined. *)
Theorem timeRangeIndex_stays_in_table :
  (forall direction index : Z,
      (0 <= index < 6)%Z ->
      let index' := fst (_changeTimeRange direction index) in
      let fetched := snd (_changeTimeRange direction index) in
      (0 <= index' < 6)%Z
      /\ ((index + direction < 0 \/ 6 <= index + direction)%Z ->
          index' = index /\ fetched = None)
      /\ ((0 <= index + direction < 6)%Z ->
          index' = (index + direction)%Z
          /\ exists days label,
               currentTimeRange index' = Some (days, label)
               /\ fetched = Some days))
  /\ (forall directions : list Z,
         let index :=
           fold_left (fun i d => fst (_changeTimeRange d i)) directions 2%Z in
         (0 <= index < 6)%Z /\ currentTimeRange index <> None).
Proof.
  assert (Hstep : forall direction index : Z,
             (0 <= index < 6)%Z ->
             (0 <= fst (_changeTimeRange direction index) < 6)%Z).
  { intros d i Hi. unfold _changeTimeRange.
    change (Z.of_nat (List.length TIME_RANGES)) with 6%Z.
    destruct ((i + d <? 0)%Z || (i + d >=? 6)%Z) eqn:E; simpl; [exact Hi |].
    apply orb_false_iff in E. destruct E as [E1 E2].
    apply Z.ltb_ge in E1. rewrite Z.geb_leb in E2. apply Z.leb_gt in E2. lia. }
  assert (Hdef : forall i, (0 <= i < 6)%Z ->
                           exists days label,
                             currentTimeRange i = Some (days, label)).
  { intros i Hi. unfold currentTimeRange.
    assert (E : (i <? 0)%Z = false) by (apply Z.ltb_ge; lia). rewrite E.
    assert (Hn : (Z.to_nat i < 6)%nat) by lia.
    destruct (Z.to_nat i) as [| [| [| [| [| [| n]]]]]]; simpl;
      try (eexists; eexists; reflexivity). lia. }
  split.
  - intros d i Hi index' fetched. subst index' fetched.
    split; [now apply Hstep |]. unfold _changeTimeRange.
    change (Z.of_nat (List.length TIME_RANGES)) with 6%Z.
    split.
    + intro Hout.
      assert (E : (i + d <? 0)%Z || (i + d >=? 6)%Z = true).
      { apply orb_true_iff. destruct Hout as [H | H].
        - left. apply Z.ltb_lt. lia.
        - right. rewrite Z.geb_leb. apply Z.leb_le. lia. }
      rewrite E. now split.
    + intro Hin.
      assert (E : (i + d <? 0)%Z || (i + d >=? 6)%Z = false).
      { apply orb_false_iff. split.
        - apply Z.ltb_ge. lia.
        - rewrite Z.geb_leb. apply Z.leb_gt. lia. }
      rewrite E. simpl. split; [reflexivity |].
      destruct (Hdef (i + d)%Z Hin) as (days & label & H).
      exists days, label. rewrite H. now split.
  - intros directions index. subst index.
    assert (H : forall i, (0 <= i < 6)%Z ->
                (0 <= fold_left (fun i d => fst (_changeTimeRange d i))
                                directions i < 6)%Z).
    { induction directions as [| d ds IH]; intros i Hi; [exact Hi |].
      simpl. apply IH. now apply Hstep. }
    specialize (H 2%Z ltac:(lia)). split; [exact H |].
    destruct (Hdef _ H) as (days & label & E). now rewrite E.
Qed.

Lemma timeRangeIndex_stays_in_table_witness :
  _changeTimeRange (-1) 0 = (0%Z, None)
  /\ _changeTimeRange 1 5 = (5%Z, None)
  /\ _changeTimeRange 1 2 = (3%Z, Some 90%Z)
  /\ (0 <= fst (_changeTimeRange 4 3) < 6)%Z.
Proof.
  destruct timeRangeIndex_stays_in_table as [Hstep _].
  split; [reflexivity |]. split; [reflexivity |]. split; [reflexivity |].
  pose proof (Hstep 4%Z 3%Z ltac:(lia)) as H. cbv zeta in H.
  exact (proj1 H).
Defined.

(** *** Min and max shown with the chart *)

(** X18.  [_updateMinMax] takes the P&L series in mode ['pnl'] and the
    value series in any other mode.  When that series is not empty, the new
    [minValue] and [maxValue] are two of its members and bound all of them;
    when it is empty, [minValue] and [maxValue] keep their previous values. *)
Theorem updateMinMax_bounds
        (mode : string) (pnlData values : list Q) (minValue maxValue : num) :
  let dataSet := if String.eqb mode "pnl" then pnlData else values in
  let r := _updateMinMax mode pnlData values minValue maxValue in
  (dataSet = [] -> fst (fst r) = minValue /\ snd (fst r) = maxValue)
  /\ (dataSet <> [] ->
      exists m M : Q,
        fst (fst r) = Fin m /\ snd (fst r) = Fin M
        /\ In m dataSet /\ In M dataSet
        /\ forall q, In q dataSet -> m <= q <= M).
Proof.
  intros dataSet r. subst dataSet r. unfold _updateMinMax.
  destruct (String.eqb mode "pnl").
  - split.
    + intros ->. simpl. now split.
    + intro Hne.
      destruct (listMin_spec pnlData Hne) as (m & Hm & Him & Hlm).
      destruct (listMax_spec pnlData Hne) as (M & HM & HiM & HlM).
      assert (E : (0 <? List.length pnlData)%nat = true).
      { apply Nat.ltb_lt. destruct pnlData; [congruence | simpl; lia]. }
      rewrite E. simpl. exists m, M. repeat split; auto.
  - assert (Hcase : forall label : string,
               let r := (if (0 <? List.length values)%nat
                         then (listMin values, listMax values, label)
                         else (minValue, maxValue, label)) in
               (values = [] -> fst (fst r) = minValue /\ snd (fst r) = maxValue)
               /\ (values <> [] ->
                   exists m M : Q,
                     fst (fst r) = Fin m /\ snd (fst r) = Fin M
                     /\ In m values /\ In M values
                     /\ forall q, In q values -> m <= q <= M)).
    { intros label r. subst r. split.
      - intros ->. simpl. now split.
      - intro Hne.
        destruct (listMin_spec values Hne) as (m & Hm & Him & Hlm).
        destruct (listMax_spec values Hne) as (M & HM & HiM & HlM).
        assert (E : (0 <? List.length values)%nat = true).
        { apply Nat.ltb_lt. destruct values; [congruence | simpl; lia]. }
        rewrite E. simpl. exists m, M. repeat split; auto. }
    destruct (String.eqb mode "value"); apply Hcase.
Qed.

Lemma updateMinMax_bounds_witness :
  _updateMinMax "pnl" [3; -2; 7] [] (Fin 1) (Fin 9)
  = (Fin (-2), Fin 7, "P&L"%string)
  /\ fst (_updateMinMax "value" [3; -2; 7] [] (Fin 1) (Fin 9))
     = (Fin 1, Fin 9).
Proof.
  pose proof (updateMinMax_bounds "value" [3; -2; 7] [] (Fin 1) (Fin 9)) as H.
  cbv zeta in H. destruct H as [Hempty _].
  destruct (Hempty eq_refl) as [H1 H2].
  split; [reflexivity |].
  destruct (_updateMinMax "value" [3; -2; 7] [] (Fin 1) (Fin 9)) as [[a b] c].
  simpl in *. congruence.
Defined.

(** *** The lines *)

Lemma Qeq_bool_false (a b : Q) : ~ a == b -> Qeq_bool a b = false.
Proof.
  intro H. destruct (Qeq_bool a b) eqn:E; [| reflexivity].
  apply Qeq_bool_iff in E. contradiction.
Qed.

Lemma scale_bounds (t X : Q) : 0 <= t <= 1 -> 0 <= X -> 0 <= t * X <= X.
Proof.
  intros [H0 H1] HX. split.
  - now apply Qmult_le_0_compat.
  - assert (E : t * X <= 1 * X) by (apply Qmult_le_compat_r; assumption).
    lra.
Qed.

Lemma index_ratio (i n : nat) :
  (i < n)%nat -> (2 <= n)%nat ->
  ~ ofNat n + - (1) == 0 /\ 0 <= ofNat i / (ofNat n + - (1)) <= 1.
Proof.
  intros Hi Hn.
  assert (H1 : 1 < ofNat n).
  { unfold ofNat. change 1 with (inject_Z 1). rewrite <- Zlt_Qlt. lia. }
  assert (H2 : 0 <= ofNat i).
  { unfold ofNat. change 0 with (inject_Z 0). rewrite <- Zle_Qle. lia. }
  assert (H3 : ofNat i <= ofNat n + - (1)).
  { unfold ofNat. change 1 with (inject_Z 1).
    rewrite <- inject_Z_opp, <- inject_Z_plus, <- Zle_Qle. lia. }
  split; [lra |]. split.
  - apply Qle_shift_div_l; lra.
  - apply Qle_shift_div_r; lra.
Qed.

Lemma between_mid (lo hi : Q) (a b : num) :
  between lo hi a -> between lo hi b -> between lo hi ((a + b) / Fin 2)%js.
Proof.
  destruct a as [x | | |], b as [y | | |]; simpl; try tauto.
  intros Ha Hb.
  change (between lo hi (Fin ((x + y) / 2))). unfold between.
  assert (E : 2 * ((x + y) / 2) == x + y) by (field; discriminate).
  set (s := (x + y) / 2) in *. clearbody s. lra.
Qed.


Lemma between_weaken (lo hi lo' hi' : Q) (a : num) :
  lo' <= lo -> hi <= hi' -> between lo hi a -> between lo' hi' a.
Proof. destruct a; simpl; try tauto. intros. lra. Qed.

Lemma Qdiv_eq (a r c : Q) : ~ r == 0 -> a == c * r -> a / r == c.
Proof. intros Hr E. rewrite E. field. exact Hr. Qed.

Lemma orNum_zero (a : Q) (d : num) :
  a == 0 -> orNum (Number (Fin a)) d = d.
Proof.
  intro E. unfold orNum. simpl.
  apply Qeq_bool_iff in E. now rewrite E.
Qed.

Lemma orNum_nonzero (a : Q) (d : num) :
  ~ a == 0 -> orNum (Number (Fin a)) d = Fin a.
Proof.
  intro E. unfold orNum. simpl. now rewrite (Qeq_bool_false _ _ E).
Qed.

Section LineBox.

Variables (width height : Q) (padding : Padding).

Hypothesis HW : 0 <= chartWidth width padding.
Hypothesis HH : 0 <= chartHeight height padding.

Local Abbreviation H := (chartHeight height padding).
Local Abbreviation band := (inBand width padding).
Local Abbreviation box := (inBox width height padding).

Lemma band_weaken (lo hi lo' hi' : Q) (x y : num) :
  lo' <= lo -> hi <= hi' -> band lo hi x y -> band lo' hi' x y.
Proof.
  intros Hl Hh [Hx Hy]. split; [exact Hx |].
  now apply (between_weaken lo hi).
Qed.

Lemma band_mid (lo hi : Q) (a b c d : num) :
  band lo hi a b -> band lo hi c d ->
  band lo hi ((a + c) / Fin 2)%js ((b + d) / Fin 2)%js.
Proof. intros [? ?] [? ?]. split; now apply between_mid. Qed.

(** The points of a line whose values sit, on the scale, between the
    fractions [lo] and [hi] of the height. *)
Lemma linePoints_in_band (data : list Q) (m r lo hi : Q) :
  (2 <= List.length data)%nat ->
  ~ r == 0 ->
  (forall q, In q data -> lo <= (q - m) / r <= hi) ->
  forall p, In p (linePoints width height padding data (Fin m) (Fin r)) ->
            band (top padding + H - hi * H) (top padding + H - lo * H)
                 (lx p) (ly p).
Proof.
  intros Hn Hr Hq p Hp. unfold linePoints in Hp.
  apply list_elem_of_In in Hp. apply elem_of_lookup_imap in Hp.
  destruct Hp as (i & q & -> & Hi).
  pose proof (lookup_lt_Some _ _ _ Hi) as Hlt.
  assert (Hin : In q data).
  { apply list_elem_of_In. eapply list_elem_of_lookup_2; eauto. }
  destruct (index_ratio i (List.length data) Hlt Hn) as [Hd Ht].
  specialize (Hq q Hin).
  unfold inBand. cbn [lx ly].
  unfold JSNum.sub, JSNum.neg, JSNum.add, JSNum.div.
  rewrite (Qeq_bool_false _ 0 Hd), (Qeq_bool_false _ 0 Hr).
  unfold JSNum.mul, between.
  pose proof (scale_bounds _ _ Ht HW) as Hx.
  unfold Qminus in Hq.
  assert (Hy1 : lo * H <= (q + - m) / r * H)
    by (apply Qmult_le_compat_r; [tauto | exact HH]).
  assert (Hy2 : (q + - m) / r * H <= hi * H)
    by (apply Qmult_le_compat_r; [tauto | exact HH]).
  split; lra.
Qed.

Lemma nth_in_band (lo hi : Q) (points : list LinePoint) (i : nat) :
  (forall p, In p points -> band lo hi (lx p) (ly p)) ->
  (i < List.length points)%nat ->
  band lo hi (lx (nth i points noPoint)) (ly (nth i points noPoint)).
Proof. intros Hall Hi. apply Hall. now apply nth_In. Qed.

Lemma strokeLine_in_band (lo hi : Q) (points : list LinePoint)
      (color : string) (dash : option (list Q)) (lineWidth : Q) :
  points <> [] ->
  (forall p, In p points -> band lo hi (lx p) (ly p)) ->
  forall x y, In (x, y) (coordinates (strokeLine points color dash lineWidth)) ->
              band lo hi x y.
Proof.
  intros Hne Hall x y Hin.
  assert (Hlen : (0 < List.length points)%nat)
    by (destruct points; [congruence | simpl; lia]).
  unfold strokeLine, coordinates in Hin. cbv zeta in Hin.
  rewrite !flat_map_app in Hin.
  apply in_app_or in Hin. destruct Hin as [Hin | Hin].
  { simpl in Hin. destruct Hin as [E | []]. inversion E; subst.
    apply nth_in_band; [assumption | lia]. }
  apply in_app_or in Hin. destruct Hin as [Hin | Hin].
  - apply in_flat_map in Hin. destruct Hin as (c & Hc & Hxy).
    apply in_map_iff in Hc. destruct Hc as (i & <- & Hi).
    apply in_seq in Hi.
    pose proof (nth_in_band lo hi points (i - 1) Hall ltac:(lia)) as HP.
    pose proof (nth_in_band lo hi points i Hall ltac:(lia)) as HC.
    simpl in Hxy. destruct Hxy as [E | [E | []]]; inversion E; subst.
    + exact HP.
    + now apply band_mid.
  - simpl in Hin. destruct Hin as [E | []]. inversion E; subst.
    apply nth_in_band; [assumption | lia].
Qed.

Lemma linePoints_nonempty (data : list Q) (min range : num) :
  (2 <= List.length data)%nat ->
  linePoints width height padding data min range <> [].
Proof.
  intros Hn E. apply (f_equal (@List.length _)) in E.
  unfold linePoints in E. rewrite length_imap in E. simpl in E. lia.
Qed.

Lemma drawLineWithRange_in_band (data : list Q) (color : string)
      (mn mx r lo hi : Q) (dash : option (list Q)) (lineWidth : Q) :
  orNum (Number (Fin mx - Fin mn)%js) (Fin 1) = Fin r ->
  ~ r == 0 ->
  (forall q, In q data -> lo <= (q - mn) / r <= hi) ->
  forall x y,
    In (x, y) (coordinates (_drawLineWithRange width height padding data color
                                               (Fin mn) (Fin mx) dash lineWidth)) ->
    band (top padding + H - hi * H) (top padding + H - lo * H) x y.
Proof.
  intros Er Hr Hq x y. unfold _drawLineWithRange.
  destruct (List.length data <? 2)%nat eqn:E; [intros [] |].
  apply Nat.ltb_ge in E. cbv zeta. rewrite Er.
  apply strokeLine_in_band.
  - now apply linePoints_nonempty.
  - now apply linePoints_in_band.
Qed.

(** [_drawLine]: its smallest value sits on the bottom border; [hi] is the
    fraction of the height its values reach. *)
Lemma drawLine_in_band (data : list Q) (color : string) (fill : bool)
      (dash : option (list Q)) (lineWidth : Q) (m M r hi : Q) :
  listMin data = Fin m -> listMax data = Fin M ->
  orNum (Number (Fin M - Fin m)%js) (Fin 1) = Fin r ->
  ~ r == 0 ->
  (forall q, In q data -> 0 <= (q - m) / r <= hi) ->
  forall x y,
    In (x, y) (coordinates (_drawLine width height padding data color fill
                                      dash lineWidth)) ->
    band (top padding + H - hi * H) (top padding + H) x y.
Proof.
  intros Em EM Er Hr Hq x y. unfold _drawLine.
  destruct (List.length data <? 2)%nat eqn:E; [intros [] |].
  apply Nat.ltb_ge in E. cbv zeta. rewrite Em, EM, Er.
  set (points := linePoints width height padding data (Fin m) (Fin r)).
  assert (Hne : points <> []) by now apply linePoints_nonempty.
  assert (Hall : forall p, In p points ->
                           band (top padding + H - hi * H)
                                (top padding + H) (lx p) (ly p)).
  { intros p Hp.
    apply (band_weaken (top padding + H - hi * H) (top padding + H - 0 * H));
      [lra | lra |].
    now apply (linePoints_in_band data m r 0 hi). }
  assert (Hlen : (0 < List.length points)%nat)
    by (destruct points; [congruence | simpl; lia]).
  unfold coordinates. rewrite flat_map_app. intro Hin.
  apply in_app_or in Hin. destruct Hin as [Hin | Hin];
    [| eapply strokeLine_in_band; eauto].
  destruct fill; [| destruct Hin].
  assert (Hhi : 0 <= hi).
  { destruct data as [| q data']; [simpl in E; lia |].
    specialize (Hq q (or_introl eq_refl)). lra. }
  assert (Hbase : between (top padding + H - hi * H) (top padding + H)
                          (Fin (height - bottom padding))).
  { simpl. pose proof (Qmult_le_0_compat _ _ Hhi HH) as Hp.
    unfold chartHeight in *. lra. }
  rewrite !flat_map_app in Hin.
  apply in_app_or in Hin. destruct Hin as [Hin | Hin].
  { simpl in Hin. destruct Hin as [E0 | []]. inversion E0; subst.
    split; [| exact Hbase].
    apply (nth_in_band _ _ points 0 Hall). lia. }
  apply in_app_or in Hin. destruct Hin as [Hin | Hin].
  - apply in_flat_map in Hin. destruct Hin as (c & Hc & Hxy).
    apply in_map_iff in Hc. destruct Hc as (p & <- & Hp).
    simpl in Hxy. destruct Hxy as [E0 | []]. inversion E0; subst.
    now apply Hall.
  - simpl in Hin. destruct Hin as [E0 | []]. inversion E0; subst.
    split; [| exact Hbase].
    apply (nth_in_band _ _ points _ Hall). lia.
Qed.

End LineBox.

Lemma ratio_unit (a r : Q) : 0 < r -> 0 <= a <= r -> 0 <= a / r <= 1.
Proof.
  intros Hr [H0 H1]. split.
  - apply Qle_shift_div_l; lra.
  - apply Qle_shift_div_r; lra.
Qed.

(** The branch ['value'] with the fractions of the height both series sit
    between on the shared scale. *)
Lemma valueMode_in_band (width height : Q) (padding : Padding)
      (values invested : list Q) (m M pd r lo hi : Q) :
  0 <= chartWidth width padding -> 0 <= chartHeight height padding ->
  listMin (values ++ invested) = Fin m ->
  listMax (values ++ invested) = Fin M ->
  orNum (Number (Fin ((M + - m) * (1 # 10)))) (Fin (M * (2 # 100))) = Fin pd ->
  orNum (Number (Fin (M + pd + - (m + - pd)))) (Fin 1) = Fin r ->
  ~ r == 0 ->
  (forall q, In q (values ++ invested) -> lo <= (q - (m + - pd)) / r <= hi) ->
  forall x y,
    In (x, y) (coordinates (drawValueMode width height padding values invested)) ->
    inBand width padding
           (top padding + chartHeight height padding
            - hi * chartHeight height padding)
           (top padding + chartHeight height padding
            - lo * chartHeight height padding) x y.
Proof.
  intros HW HH Em EM Epad Er Hr Hq x y. unfold drawValueMode.
  destruct ((1 <? List.length values)%nat && (1 <? List.length invested)%nat);
    [| intros []].
  unfold valueScale. cbv zeta. rewrite Em, EM.
  cbn [JSNum.sub JSNum.neg JSNum.add JSNum.mul]. rewrite Epad.
  cbn [JSNum.sub JSNum.neg JSNum.add JSNum.mul].
  unfold coordinates. rewrite flat_map_app. intro Hin.
  apply in_app_or in Hin.
  destruct Hin as [Hin | Hin];
    (eapply (drawLineWithRange_in_band width height padding HW HH);
     [exact Er | exact Hr | | exact Hin]);
    intros q Hin'; apply Hq; apply in_or_app; tauto.
Qed.

(** X19.  [_drawLine] draws inside the plot area: when the plot area has a
    width and a height that are not negative, every coordinate of the fill
    and of the stroke lies within its borders; and a series whose values are
    all equal is drawn along the bottom border. *)
Theorem drawLine_within_plot_area
        (width height : Q) (padding : Padding) (data : list Q)
        (color : string) (fill : bool) (dash : option (list Q))
        (lineWidth : Q) :
  0 <= chartWidth width padding ->
  0 <= chartHeight height padding ->
  let drawn :=
    coordinates (_drawLine width height padding data color fill dash
                           lineWidth) in
  let bottomY := top padding + chartHeight height padding in
  (forall x y, In (x, y) drawn -> inBox width height padding x y)
  /\ ((forall a b, In a data -> In b data -> a == b) ->
      forall x y, In (x, y) drawn -> between bottomY bottomY y).
Proof.
  intros HW HH drawn bottomY. subst drawn bottomY.
  destruct (List.length data <? 2)%nat eqn:E.
  { unfold _drawLine. rewrite E. split; [intros x y [] | intros _ x y []]. }
  apply Nat.ltb_ge in E.
  assert (Hne : data <> []) by (destruct data; [simpl in E; lia | discriminate]).
  destruct (listMin_spec data Hne) as (m & Em & Him & Hlm).
  destruct (listMax_spec data Hne) as (M & EM & HiM & HlM).
  destruct (Qeq_dec M m) as [Heq | Hneq].
  - assert (Er : orNum (Number (Fin M - Fin m)%js) (Fin 1) = Fin 1)
      by (apply (orNum_zero (M + - m)); lra).
    assert (Hq : forall q, In q data -> 0 <= (q - m) / 1 <= 0).
    { intros q Hq. specialize (Hlm q Hq). specialize (HlM q Hq).
      assert (E0 : (q - m) / 1 == 0) by (apply Qdiv_eq; lra). lra. }
    pose proof (drawLine_in_band width height padding HW HH data color fill
                                 dash lineWidth m M 1 0 Em EM Er
                                 ltac:(lra) Hq) as Hband.
    split.
    + intros x y Hin. unfold inBox.
      eapply band_weaken; [| | exact (Hband x y Hin)]; lra.
    + intros _ x y Hin. destruct (Hband x y Hin) as [_ Hy].
      eapply between_weaken; [| | exact Hy]; lra.
  - assert (Hlt : m < M).
    { specialize (Hlm M HiM). destruct (Qlt_le_dec m M) as [? | ?]; [assumption |].
      exfalso. apply Hneq. lra. }
    assert (Er : orNum (Number (Fin M - Fin m)%js) (Fin 1) = Fin (M + - m))
      by (apply (orNum_nonzero (M + - m)); lra).
    assert (Hq : forall q, In q data -> 0 <= (q - m) / (M + - m) <= 1).
    { intros q Hq. specialize (Hlm q Hq). specialize (HlM q Hq).
      apply ratio_unit; lra. }
    pose proof (drawLine_in_band width height padding HW HH data color fill
                                 dash lineWidth m M (M + - m) 1 Em EM Er
                                 ltac:(lra) Hq) as Hband.
    split.
    + intros x y Hin. unfold inBox.
      eapply band_weaken; [| | exact (Hband x y Hin)]; lra.
    + intros Hflat. exfalso. apply Hneq. now apply Hflat.
Qed.

Lemma drawLine_within_plot_area_witness :
  List.Forall
    (fun xy => inBox 110 60 (mkPadding 10 10 5 5) (fst xy) (snd xy))
    (coordinates (_drawLine 110 60 (mkPadding 10 10 5 5) [3; 1; 2]
                            "#22c55e" true None (3 # 2))).
Proof.
  pose proof (drawLine_within_plot_area
                110 60 (mkPadding 10 10 5 5) [3; 1; 2] "#22c55e" true None
                (3 # 2)) as H.
  cbv zeta in H.
  apply List.Forall_forall. intros [x y].
  exact (proj1 (H ltac:(vm_compute; discriminate)
                  ltac:(vm_compute; discriminate)) x y).
Defined.

(** The bands of the branch ['value']: inside the plot area, a twelfth of
    the height clear of the borders when the samples differ, at mid-height
    when they all equal one value that is not zero, on the bottom border
    when they are all zero. *)
Lemma valueMode_bands
        (width height : Q) (padding : Padding) (values invested : list Q) :
  0 <= chartWidth width padding ->
  0 <= chartHeight height padding ->
  let drawn :=
    coordinates (drawValueMode width height padding values invested) in
  let allData := values ++ invested in
  let H := chartHeight height padding in
  let bottomY := top padding + H in
  ((List.length values < 2)%nat \/ (List.length invested < 2)%nat ->
   drawValueMode width height padding values invested = [])
  /\ (forall x y, In (x, y) drawn -> inBox width height padding x y)
  /\ ((exists a b, In a allData /\ In b allData /\ ~ a == b) ->
      forall x y, In (x, y) drawn ->
                  between (top padding + (1 # 12) * H)
                          (bottomY - (1 # 12) * H) y)
  /\ (forall v, ~ v == 0 -> (forall q, In q allData -> q == v) ->
      forall x y, In (x, y) drawn ->
                  between (top padding + (1 # 2) * H)
                          (top padding + (1 # 2) * H) y)
  /\ ((forall q, In q allData -> q == 0) ->
      forall x y, In (x, y) drawn -> between bottomY bottomY y).
Proof.
  intros HW HH drawn allData H bottomY. subst drawn allData H bottomY.
  split.
  { intros Hshort. unfold drawValueMode.
    assert (E : (1 <? List.length values)%nat && (1 <? List.length invested)%nat
                = false).
    { apply andb_false_iff. destruct Hshort; [left | right];
        apply Nat.ltb_ge; lia. }
    now rewrite E. }
  destruct ((1 <? List.length values)%nat && (1 <? List.length invested)%nat)
           eqn:Elen.
  2:{ unfold drawValueMode. rewrite Elen. simpl.
      repeat split; intros; contradiction. }
  apply andb_true_iff in Elen. destruct Elen as [Ev Ei].
  apply Nat.ltb_lt in Ev. apply Nat.ltb_lt in Ei.
  assert (Hne : values ++ invested <> []).
  { destruct values; [simpl in Ev; lia | discriminate]. }
  destruct (listMin_spec _ Hne) as (m & Em & Him & Hlm).
  destruct (listMax_spec _ Hne) as (M & EM & HiM & HlM).
  assert (HmM : m <= M) by (apply Hlm; exact HiM).
  destruct (Qeq_dec M m) as [Heq | Hneq].
  - (* all samples equal *)
    assert (Hall : forall q, In q (values ++ invested) -> q == M).
    { intros q Hq. specialize (Hlm q Hq). specialize (HlM q Hq). lra. }
    assert (Epad : orNum (Number (Fin ((M + - m) * (1 # 10))))
                         (Fin (M * (2 # 100))) = Fin (M * (2 # 100)))
      by (apply orNum_zero; lra).
    destruct (Qeq_dec M 0) as [Hz | Hnz].
    + assert (Er : orNum (Number (Fin (M + M * (2 # 100)
                                        + - (m + - (M * (2 # 100))))))
                         (Fin 1) = Fin 1)
        by (apply orNum_zero; lra).
      assert (Hq : forall q, In q (values ++ invested) ->
                             0 <= (q - (m + - (M * (2 # 100)))) / 1 <= 0).
      { intros q Hq. specialize (Hall q Hq).
        assert (E0 : (q - (m + - (M * (2 # 100)))) / 1 == 0)
          by (apply Qdiv_eq; lra).
        lra. }
      pose proof (valueMode_in_band width height padding values invested
                                    m M (M * (2 # 100)) 1 0 0 HW HH Em EM
                                    Epad Er ltac:(lra) Hq) as Hband.
      split; [| split; [| split]].
      * intros x y Hin. unfold inBox.
        eapply band_weaken; [| | exact (Hband x y Hin)]; lra.
      * intros (a & b & Ha & Hb & Hab). exfalso. apply Hab.
        rewrite (Hall a Ha), (Hall b Hb). reflexivity.
      * intros v Hv Hflat. exfalso. apply Hv.
        rewrite <- (Hflat M HiM). exact Hz.
      * intros _ x y Hin. destruct (Hband x y Hin) as [_ Hy].
        eapply between_weaken; [| | exact Hy]; lra.
    + assert (Er : orNum (Number (Fin (M + M * (2 # 100)
                                        + - (m + - (M * (2 # 100))))))
                         (Fin 1)
                   = Fin (M + M * (2 # 100) + - (m + - (M * (2 # 100)))))
        by (apply orNum_nonzero; lra).
      assert (Hq : forall q, In q (values ++ invested) ->
                             (1 # 2) <= (q - (m + - (M * (2 # 100))))
                                        / (M + M * (2 # 100)
                                           + - (m + - (M * (2 # 100))))
                             <= (1 # 2)).
      { intros q Hq. specialize (Hall q Hq).
        assert (E0 : (q - (m + - (M * (2 # 100))))
                     / (M + M * (2 # 100) + - (m + - (M * (2 # 100))))
                     == 1 # 2)
          by (apply Qdiv_eq; lra).
        lra. }
      pose proof (valueMode_in_band width height padding values invested
                                    m M (M * (2 # 100)) _ (1 # 2) (1 # 2)
                                    HW HH Em EM Epad Er ltac:(lra) Hq)
        as Hband.
      split; [| split; [| split]].
      * intros x y Hin. unfold inBox.
        eapply band_weaken; [| | exact (Hband x y Hin)]; lra.
      * intros (a & b & Ha & Hb & Hab). exfalso. apply Hab.
        rewrite (Hall a Ha), (Hall b Hb). reflexivity.
      * intros v Hv Hflat x y Hin. destruct (Hband x y Hin) as [_ Hy].
        eapply between_weaken; [| | exact Hy]; lra.
      * intros Hzero. exfalso. apply Hnz. now apply Hzero.
  - (* two samples differ *)
    assert (Hlt : m < M).
    { destruct (Qlt_le_dec m M) as [? | ?]; [assumption |].
      exfalso. apply Hneq. lra. }
    assert (Epad : orNum (Number (Fin ((M + - m) * (1 # 10))))
                         (Fin (M * (2 # 100))) = Fin ((M + - m) * (1 # 10)))
      by (apply orNum_nonzero; lra).
    assert (Er : orNum (Number (Fin (M + (M + - m) * (1 # 10)
                                      + - (m + - ((M + - m) * (1 # 10))))))
                       (Fin 1)
                 = Fin (M + (M + - m) * (1 # 10)
                        + - (m + - ((M + - m) * (1 # 10)))))
      by (apply orNum_nonzero; lra).
    assert (Hq : forall q, In q (values ++ invested) ->
                           (1 # 12) <= (q - (m + - ((M + - m) * (1 # 10))))
                                       / (M + (M + - m) * (1 # 10)
                                          + - (m + - ((M + - m) * (1 # 10))))
                           <= (11 # 12)).
    { intros q Hq. specialize (Hlm q Hq). specialize (HlM q Hq). split.
      - apply Qle_shift_div_l; lra.
      - apply Qle_shift_div_r; lra. }
    pose proof (valueMode_in_band width height padding values invested
                                  m M ((M + - m) * (1 # 10)) _
                                  (1 # 12) (11 # 12)
                                  HW HH Em EM Epad Er ltac:(lra) Hq)
      as Hband.
    split; [| split; [| split]].
    + intros x y Hin. unfold inBox.
      eapply band_weaken; [| | exact (Hband x y Hin)]; lra.
    + intros _ x y Hin. destruct (Hband x y Hin) as [_ Hy].
      eapply between_weaken; [| | exact Hy]; lra.
    + intros v Hv Hflat. exfalso. apply Hneq.
      rewrite (Hflat M HiM), (Hflat m Him). reflexivity.
    + intros Hzero. exfalso. apply Hneq.
      rewrite (Hzero M HiM), (Hzero m Him). reflexivity.
Qed.


Lemma valueScale_finite (values invested : list Q) :
  values ++ invested <> [] ->
  exists mn mx r : Q,
    valueScale values invested = (Fin mn, Fin mx)
    /\ orNum (Number (Fin mx - Fin mn)%js) (Fin 1) = Fin r
    /\ ~ r == 0.
Proof.
  intro Hne.
  destruct (listMin_spec _ Hne) as (m & Em & _).
  destruct (listMax_spec _ Hne) as (M & EM & _).
  unfold valueScale. cbv zeta. rewrite Em, EM.
  cbn [JSNum.sub JSNum.neg JSNum.add JSNum.mul].
  assert (Hpad : exists pd,
             orNum (Number (Fin ((M + - m) * (1 # 10)))) (Fin (M * (2 # 100)))
             = Fin pd).
  { destruct (Qeq_dec ((M + - m) * (1 # 10)) 0) as [E | E].
    - eexists. now apply orNum_zero.
    - eexists. now apply orNum_nonzero. }
  destruct Hpad as [pd Epad]. rewrite Epad.
  cbn [JSNum.sub JSNum.neg JSNum.add JSNum.mul].
  exists (m + - pd), (M + pd).
  destruct (Qeq_dec (M + pd + - (m + - pd)) 0) as [E | E].
  - exists 1. split; [reflexivity |]. split; [| discriminate].
    now apply (orNum_zero (M + pd + - (m + - pd))).
  - exists (M + pd + - (m + - pd)). split; [reflexivity |].
    split; [| exact E].
    now apply (orNum_nonzero (M + pd + - (m + - pd))).
Qed.

(** Every point of a line is among the coordinates its stroke draws at. *)
Lemma strokeLine_covers (points : list LinePoint) (color : string)
      (dash : option (list Q)) (lineWidth : Q) (i : nat) (p : LinePoint) :
  points !! i = Some p ->
  In (lx p, ly p) (coordinates (strokeLine points color dash lineWidth)).
Proof.
  intro Hi.
  pose proof (lookup_lt_Some _ _ _ Hi) as Hlt.
  pose proof (nth_lookup_Some points i noPoint p Hi) as Hnth.
  unfold strokeLine, coordinates. cbv zeta. rewrite !flat_map_app.
  apply in_or_app. right.
  destruct (Nat.eq_dec (S i) (List.length points)) as [Elast | Hmid].
  - apply in_or_app. right.
    replace (List.length points - 1)%nat with i by lia.
    rewrite Hnth. simpl. now left.
  - apply in_or_app. left. apply in_flat_map.
    eexists. split.
    + apply in_map_iff. exists (S i). split; [reflexivity |].
      apply in_seq. lia.
    + cbv zeta. replace (S i - 1)%nat with i by lia.
      rewrite Hnth. simpl. now left.
Qed.

(** The point a line gives to its sample [i]. *)
Lemma linePoints_lookup (width height : Q) (padding : Padding)
      (data : list Q) (mn r : Q) (i : nat) (q : Q) :
  (2 <= List.length data)%nat ->
  ~ r == 0 ->
  data !! i = Some q ->
  exists p,
    linePoints width height padding data (Fin mn) (Fin r) !! i = Some p
    /\ lx p =n= Fin (left padding
                     + ofNat i / (ofNat (List.length data) - 1)
                       * chartWidth width padding)
    /\ ly p =n= Fin (top padding + chartHeight height padding
                     - (q - mn) / r * chartHeight height padding).
Proof.
  intros Hn Hr Hi.
  pose proof (lookup_lt_Some _ _ _ Hi) as Hlt.
  destruct (index_ratio i (List.length data) Hlt Hn) as [Hd _].
  eexists. split.
  - unfold linePoints. rewrite list_lookup_imap, Hi. reflexivity.
  - cbn [lx ly].
    unfold JSNum.sub, JSNum.neg, JSNum.add, JSNum.div.
    rewrite (Qeq_bool_false _ 0 Hd), (Qeq_bool_false _ 0 Hr).
    unfold JSNum.mul, num_eq. split; reflexivity.
Qed.

(** X20.  The branch ['value'] of [_drawChart] draws nothing unless both
    series have two samples; otherwise it draws both lines on one scale
    inside the plot area: the invested amount dashed, then the value solid,
    each a stroke through one point per sample, the points of both series
    placed with the same minimum and the same range.  When the samples are
    not all equal, the widened scale keeps every coordinate a twelfth of
    the height away from the top and from the bottom border; when they all
    equal one value that is not zero, both lines run at mid-height; when
    they are all zero, along the bottom border. *)
Theorem valueMode_within_plot_area
        (width height : Q) (padding : Padding) (values invested : list Q) :
  0 <= chartWidth width padding ->
  0 <= chartHeight height padding ->
  let drawn :=
    coordinates (drawValueMode width height padding values invested) in
  let allData := values ++ invested in
  let H := chartHeight height padding in
  let bottomY := top padding + H in
  ((List.length values < 2)%nat \/ (List.length invested < 2)%nat ->
   drawValueMode width height padding values invested = [])
  /\ (forall x y, In (x, y) drawn -> inBox width height padding x y)
  /\ ((exists a b, In a allData /\ In b allData /\ ~ a == b) ->
      forall x y, In (x, y) drawn ->
                  between (top padding + (1 # 12) * H)
                          (bottomY - (1 # 12) * H) y)
  /\ (forall v, ~ v == 0 -> (forall q, In q allData -> q == v) ->
      forall x y, In (x, y) drawn ->
                  between (top padding + (1 # 2) * H)
                          (top padding + (1 # 2) * H) y)
  /\ ((forall q, In q allData -> q == 0) ->
      forall x y, In (x, y) drawn -> between bottomY bottomY y)
  /\ ((2 <= List.length values)%nat -> (2 <= List.length invested)%nat ->
      exists mn mx r : Q,
        valueScale values invested = (Fin mn, Fin mx)
        /\ orNum (Number (Fin mx - Fin mn)%js) (Fin 1) = Fin r
        /\ ~ r == 0
        /\ drawValueMode width height padding values invested
           = strokeLine (linePoints width height padding invested
                                    (Fin mn) (Fin r))
                        "#8b5cf6" (Some [5; 5]) 2
             ++ strokeLine (linePoints width height padding values
                                       (Fin mn) (Fin r))
                           "#3b82f6" None 2
        /\ forall (data : list Q) (i : nat) (q : Q),
            data = invested \/ data = values ->
            data !! i = Some q ->
            exists p,
              linePoints width height padding data (Fin mn) (Fin r) !! i
              = Some p
              /\ lx p =n= Fin (left padding
                               + ofNat i / (ofNat (List.length data) - 1)
                                 * chartWidth width padding)
              /\ ly p =n= Fin (top padding + H - (q - mn) / r * H)
              /\ In (lx p, ly p) drawn).
Proof.
  intros HW HH drawn allData H bottomY.
  pose proof (valueMode_bands width height padding values invested HW HH)
    as Hb. cbv zeta in Hb. destruct Hb as (B1 & B2 & B3 & B4 & B5).
  subst drawn allData H bottomY.
  split; [exact B1 |]. split; [exact B2 |]. split; [exact B3 |].
  split; [exact B4 |]. split; [exact B5 |].
  intros Hv Hi.
  assert (Hne : values ++ invested <> []).
  { destruct values; [simpl in Hv; lia | discriminate]. }
  destruct (valueScale_finite values invested Hne)
    as (mn & mx & r & Es & Er & Hr).
  exists mn, mx, r.
  split; [exact Es |]. split; [exact Er |]. split; [exact Hr |].
  assert (Ed : drawValueMode width height padding values invested
               = strokeLine (linePoints width height padding invested
                                        (Fin mn) (Fin r))
                            "#8b5cf6" (Some [5; 5]) 2
                 ++ strokeLine (linePoints width height padding values
                                           (Fin mn) (Fin r))
                               "#3b82f6" None 2).
  { unfold drawValueMode.
    assert (E1 : (1 <? List.length values)%nat = true)
      by (apply Nat.ltb_lt; lia).
    assert (E2 : (1 <? List.length invested)%nat = true)
      by (apply Nat.ltb_lt; lia).
    rewrite E1, E2, Es. cbn [andb]. unfold _drawLineWithRange.
    assert (E3 : (List.length values <? 2)%nat = false)
      by (apply Nat.ltb_ge; lia).
    assert (E4 : (List.length invested <? 2)%nat = false)
      by (apply Nat.ltb_ge; lia).
    rewrite E3, E4. cbv zeta. rewrite Er. reflexivity. }
  split; [exact Ed |].
  intros data i q Hdata Hq.
  assert (Hn : (2 <= List.length data)%nat)
    by (destruct Hdata as [-> | ->]; assumption).
  destruct (linePoints_lookup width height padding data mn r i q Hn Hr Hq)
    as (p & Hp & Hx & Hy).
  exists p. split; [exact Hp |]. split; [exact Hx |]. split; [exact Hy |].
  rewrite Ed. unfold coordinates. rewrite flat_map_app. apply in_or_app.
  destruct Hdata as [-> | ->]; [left | right];
    eapply strokeLine_covers; exact Hp.
Qed.

Lemma valueMode_within_plot_area_witness :
  List.Forall
    (fun xy => between (10 + (1 # 12) * 40) (10 + 40 - (1 # 12) * 40) (snd xy))
    (coordinates (drawValueMode 110 60 (mkPadding 10 10 5 5)
                                [100; 120] [90; 95]))
  /\ List.length (coordinates (drawValueMode 110 60 (mkPadding 10 10 5 5)
                                             [100; 120] [90; 95]))
     = 8%nat.
Proof.
  pose proof (valueMode_within_plot_area
                110 60 (mkPadding 10 10 5 5) [100; 120] [90; 95]) as H.
  cbv zeta in H.
  destruct (H ltac:(vm_compute; discriminate)
              ltac:(vm_compute; discriminate))
    as (_ & _ & Hband & _ & _ & Hdrawn).
  split.
  - apply List.Forall_forall. intros [x y] Hin.
    assert (Hd : exists a b, In a ([100; 120] ++ [90; 95])
                             /\ In b ([100; 120] ++ [90; 95]) /\ ~ a == b).
    { exists 100, 120. simpl. repeat split; [tauto | tauto |]. discriminate. }
    pose proof (Hband Hd x y Hin) as Hy.
    eapply between_weaken; [| | exact Hy]; vm_compute; discriminate.
  - destruct (Hdrawn ltac:(simpl; lia) ltac:(simpl; lia))
      as (mn & mx & r & _ & _ & _ & Ed & _).
    rewrite Ed. reflexivity.
Defined.

End ChartLinesFacts.

(** ** [priceChange] and the intraday chart (position-card) *)

Module IntradayChartFacts.

Import PortfolioChart ChartLines IntradayChart ChartLinesFacts.

Lemma priced_prices (data : list Sample) :
  priced data -> exists qs, map priceOf data = map Fin qs.
Proof.
  induction data as [| d data IH]; intro Hp.
  - exists []. reflexivity.
  - destruct IH as [qs E].
    { intros d' Hd'. apply Hp. now right. }
    pose proof (Hp d (or_introl eq_refl)) as Hd.
    destruct (priceOf d) as [q | | |] eqn:Ed; try contradiction.
    exists (q :: qs). simpl. now rewrite Ed, E.
Qed.

Lemma numsMin_Fin (qs : list Q) : numsMin (map Fin qs) = listMin qs.
Proof.
  unfold numsMin, listMin.
  induction qs as [| q qs IH]; [reflexivity |].
  cbn [fold_right map]. now rewrite IH.
Qed.

Lemma numsMax_Fin (qs : list Q) : numsMax (map Fin qs) = listMax qs.
Proof.
  unfold numsMax, listMax.
  induction qs as [| q qs IH]; [reflexivity |].
  cbn [fold_right map]. now rewrite IH.
Qed.

(** The scale of the intraday chart: the range is positive, so its
    fallback is never taken, and every price sits between a twelfth and
    eleven twelfths of it, a flat series exactly at one half. *)
Lemma scale_spec (qs : list Q) :
  qs <> [] ->
  exists mx r : Q,
    maxPrice (map Fin qs) = Fin mx
    /\ (maxPrice (map Fin qs) - minPrice (map Fin qs))%js = Fin r
    /\ priceRange (map Fin qs) = Fin r
    /\ 0 < r
    /\ (forall q, In q qs -> (1 # 12) <= (mx + - q) / r <= (11 # 12))
    /\ ((forall a b, In a qs -> In b qs -> a == b) ->
        forall q, In q qs -> (mx + - q) / r == 1 # 2).
Proof.
  intro Hne.
  destruct (listMin_spec qs Hne) as (m & Em & Him & Hlm).
  destruct (listMax_spec qs Hne) as (M & EM & HiM & HlM).
  assert (HmM : m <= M) by (apply Hlm; exact HiM).
  unfold priceRange, maxPrice, minPrice, pricePadding.
  rewrite numsMin_Fin, numsMax_Fin, Em, EM.
  cbn [JSNum.sub JSNum.neg JSNum.add JSNum.mul].
  destruct (Qeq_dec M m) as [Heq | Hneq].
  - rewrite (orNum_zero ((M + - m) * (1 # 10)) (Fin (1 # 2))) by lra.
    cbn [JSNum.sub JSNum.neg JSNum.add JSNum.mul].
    rewrite orNum_nonzero by lra.
    exists (M + (1 # 2)), (M + (1 # 2) + - (m + - (1 # 2))).
    assert (Hhalf : forall q, In q qs ->
                 (M + (1 # 2) + - q) / (M + (1 # 2) + - (m + - (1 # 2)))
                 == 1 # 2).
    { intros q Hq. specialize (Hlm q Hq). specialize (HlM q Hq).
      apply Qdiv_eq; lra. }
    repeat split; try reflexivity; try lra.
    + rewrite (Hhalf q H). lra.
    + rewrite (Hhalf q H). lra.
    + intros _. exact Hhalf.
  - assert (Hlt : m < M).
    { destruct (Qlt_le_dec m M) as [? | ?]; [assumption |].
      exfalso. apply Hneq. lra. }
    rewrite (orNum_nonzero ((M + - m) * (1 # 10)) (Fin (1 # 2))) by lra.
    cbn [JSNum.sub JSNum.neg JSNum.add JSNum.mul].
    rewrite orNum_nonzero by lra.
    exists (M + (M + - m) * (1 # 10)),
           (M + (M + - m) * (1 # 10) + - (m + - ((M + - m) * (1 # 10)))).
    repeat split; try reflexivity; try lra.
    + specialize (Hlm q H). specialize (HlM q H).
      apply Qle_shift_div_l; lra.
    + specialize (Hlm q H). specialize (HlM q H).
      apply Qle_shift_div_r; lra.
    + intros Hflat. exfalso. apply Hneq. now apply Hflat.
Qed.

Lemma yAt_band (width height : Q) (qs : list Q) (p : num) :
  0 <= chartHeight height padding ->
  In p (map Fin qs) ->
  between (top padding + (1 # 12) * chartHeight height padding)
          (top padding + chartHeight height padding
           - (1 # 12) * chartHeight height padding)
          (yAt height (map Fin qs) p).
Proof.
  intros HH Hp. apply in_map_iff in Hp. destruct Hp as (q & <- & Hq).
  assert (Hne : qs <> []) by (destruct qs; [destruct Hq | discriminate]).
  destruct (scale_spec qs Hne) as (mx & r & Emax & _ & Er & Hr & Hband & _).
  specialize (Hband q Hq).
  unfold yAt. rewrite Emax, Er.
  unfold JSNum.sub, JSNum.neg, JSNum.add, JSNum.div.
  rewrite (Qeq_bool_false r 0) by lra.
  unfold JSNum.mul, between.
  set (H := chartHeight height padding) in *.
  assert (H1 : (1 # 12) * H <= (mx + - q) / r * H)
    by (apply Qmult_le_compat_r; [tauto | exact HH]).
  assert (H2 : (mx + - q) / r * H <= (11 # 12) * H)
    by (apply Qmult_le_compat_r; [tauto | exact HH]).
  split; lra.
Qed.

Lemma last_price_in (prices : list num) :
  prices <> [] -> In (nth (List.length prices - 1) prices NaN) prices.
Proof.
  intro Hne. apply nth_In.
  destruct prices; [congruence | simpl; lia].
Qed.

(** The points of the line and of the dot, and those of the fill. *)
Lemma line_coords (width height : Q) (prices : list num) (color : string)
      (x y : num) :
  prices <> [] ->
  In (x, y) (coords (linePath width height prices color
                     ++ dot width height prices color)) ->
  (exists i p, prices !! i = Some p
               /\ x = xAt width prices i /\ y = yAt height prices p)
  \/ (x = Fin (left padding + chartWidth width padding)
      /\ exists p, In p prices /\ y = yAt height prices p).
Proof.
  intros Hne Hin. unfold coords, linePath, dot in Hin. cbv zeta in Hin.
  rewrite !flat_map_app in Hin.
  apply in_app_or in Hin. destruct Hin as [Hin | Hin].
  - apply in_app_or in Hin. destruct Hin as [[] | Hin].
    apply in_app_or in Hin. destruct Hin as [Hin | []].
    apply in_flat_map in Hin. destruct Hin as (c & Hc & Hxy).
    apply list_elem_of_In in Hc. apply elem_of_lookup_imap in Hc.
    destruct Hc as (i & p & -> & Hi). left. exists i, p.
    destruct (i =? 0)%nat; simpl in Hxy; destruct Hxy as [E | []];
      inversion E; subst; auto.
  - simpl in Hin. destruct Hin as [E | []]. inversion E; subst.
    right. split; [reflexivity |]. eexists. split; [| reflexivity].
    now apply last_price_in.
Qed.

Lemma fill_coords (width height : Q) (prices : list num) (color : string)
      (x y : num) :
  In (x, y) (coords (fillPath width height prices color)) ->
  (exists i p, prices !! i = Some p
               /\ x = xAt width prices i /\ y = yAt height prices p)
  \/ ((x = Fin (left padding)
       \/ x = Fin (left padding + chartWidth width padding))
      /\ y = Fin (height - bottom padding)).
Proof.
  intro Hin. unfold coords, fillPath in Hin.
  rewrite !flat_map_app in Hin.
  apply in_app_or in Hin. destruct Hin as [Hin | Hin].
  { simpl in Hin. destruct Hin as [E | []]. inversion E; subst.
    right. auto. }
  apply in_app_or in Hin. destruct Hin as [Hin | Hin].
  - apply in_flat_map in Hin. destruct Hin as (c & Hc & Hxy).
    apply list_elem_of_In in Hc. apply elem_of_lookup_imap in Hc.
    destruct Hc as (i & p & -> & Hi). left. exists i, p.
    simpl in Hxy. destruct Hxy as [E | []]. inversion E; subst. auto.
  - simpl in Hin. destruct Hin as [E | []]. inversion E; subst.
    right. auto.
Qed.

Lemma lookup_In (prices : list num) (i : nat) (p : num) :
  prices !! i = Some p -> In p prices.
Proof.
  intro Hi. apply list_elem_of_In. eapply list_elem_of_lookup_2; eauto.
Qed.

(** X21.  The intraday chart of [_drawChart]: with at least one sample,
    every sample priced and a canvas that has a size, the chart is drawn;
    the widened price range is never zero, so its fallback [|| 1] is never
    taken; the line and the dot stay a twelfth of the height away from the
    top and from the bottom border, and the fill never rises above a
    twelfth of the height below the top border. *)
Theorem intraday_chart_clear_of_borders
        (width height : Q) (data : list Sample)
        (live_data : option Tick.LiveData) (daily_change_percent : option Q) :
  data <> [] ->
  priced data ->
  ~ width == 0 ->
  ~ height == 0 ->
  0 <= chartHeight height padding ->
  let prices := map priceOf data in
  let H := chartHeight height padding in
  (exists lineColor fillColor,
      _drawChart width height data live_data daily_change_percent
      = drawn (fillPath width height prices fillColor
               ++ linePath width height prices lineColor
               ++ dot width height prices lineColor))
  /\ truthy (maxPrice prices - minPrice prices)%js = true
  /\ (forall color x y,
         In (x, y) (coords (linePath width height prices color
                            ++ dot width height prices color)) ->
         between (top padding + (1 # 12) * H)
                 (top padding + H - (1 # 12) * H) y)
  /\ (forall color x y,
         In (x, y) (coords (fillPath width height prices color)) ->
         between (top padding + (1 # 12) * H) (top padding + H) y).
Proof.
  intros Hne Hp Hw Hh HH prices H. subst prices H.
  destruct (priced_prices data Hp) as [qs Eqs].
  assert (Hqs : qs <> []).
  { intros ->. destruct data; [congruence | discriminate]. }
  assert (Hprices : map priceOf data <> []).
  { destruct data; [congruence | discriminate]. }
  split.
  { unfold _drawChart.
    assert (E : (List.length data =? 0)%nat = false).
    { apply Nat.eqb_neq. destruct data; [congruence | discriminate]. }
    rewrite E, (Qeq_bool_false width 0 Hw), (Qeq_bool_false height 0 Hh).
    simpl. eexists. eexists. reflexivity. }
  split.
  { rewrite Eqs.
    destruct (scale_spec qs Hqs) as (mx & r & _ & Ed & _ & Hr & _).
    rewrite Ed. simpl. rewrite (Qeq_bool_false r 0) by lra. reflexivity. }
  split.
  - intros color x y Hin.
    destruct (line_coords _ _ _ _ _ _ Hprices Hin)
      as [(i & p & Hi & _ & ->) | (_ & p & Hi & ->)].
    + apply lookup_In in Hi. rewrite Eqs in *. now apply yAt_band.
    + rewrite Eqs in *. now apply yAt_band.
  - intros color x y Hin.
    destruct (fill_coords _ _ _ _ _ _ Hin)
      as [(i & p & Hi & _ & ->) | (_ & ->)].
    + apply lookup_In in Hi. rewrite Eqs in *.
      eapply between_weaken; [| | apply yAt_band; eassumption]; lra.
    + simpl. unfold chartHeight in *. simpl in *. lra.
Qed.

Lemma intraday_chart_clear_of_borders_witness :
  List.Forall
    (fun xy => between (20 + (1 # 12) * 90) (20 + 90 - (1 # 12) * 90) (snd xy))
    (coords (linePath 220 120 [Fin 10; Fin 12; Fin 11] "#06d6a0"
             ++ dot 220 120 [Fin 10; Fin 12; Fin 11] "#06d6a0")).
Proof.
  pose proof (intraday_chart_clear_of_borders
                220 120 [point (Some 10) None; bare 12; point None (Some 11)]
                None None) as H.
  cbv zeta in H.
  assert (Hp : priced [point (Some 10) None; bare 12; point None (Some 11)]).
  { intros d [<- | [<- | [<- | []]]]; exact I. }
  destruct (H ltac:(discriminate) Hp ltac:(discriminate) ltac:(discriminate)
              ltac:(vm_compute; discriminate)) as (_ & _ & Hline & _).
  apply List.Forall_forall. intros [x y] Hin.
  pose proof (Hline "#06d6a0"%string x y Hin) as Hy.
  eapply between_weaken; [| | exact Hy]; vm_compute; discriminate.
Defined.

(** X22.  The horizontal coordinates of the intraday chart.  With one
    sample the index is divided by zero: the line path is a single
    [moveTo] whose x-coordinate is [NaN], and the dot is drawn on the right
    border at mid-height.  With two samples or more and a plot
    area that is not negative in width, every x-coordinate lies between
    the left and the right border. *)
Theorem intraday_x_coordinates
        (width height : Q) (data : list Sample) (color : string) :
  priced data ->
  let prices := map priceOf data in
  let W := chartWidth width padding in
  (List.length data = 1%nat ->
   exists y,
     y =n= Fin (top padding + (1 # 2) * chartHeight height padding)
     /\ linePath width height prices color
        = [c_beginPath; c_moveTo NaN y; c_stroke color 2]
     /\ dot width height prices color
        = [c_beginPath; c_arc (Fin (left padding + W)) y 4;
           c_fill color; c_stroke "#fff" 2])
  /\ ((2 <= List.length data)%nat -> 0 <= W ->
      forall x y,
        In (x, y) (coords (fillPath width height prices color
                           ++ linePath width height prices color
                           ++ dot width height prices color)) ->
        between (left padding) (left padding + W) x).
Proof.
  intros Hp prices W. subst prices W. split.
  - intro Hlen.
    destruct data as [| d [| d' data']]; try discriminate.
    pose proof (Hp d (or_introl eq_refl)) as Hd. simpl map.
    destruct (priceOf d) as [q | | |]; try contradiction.
    exists (yAt height [Fin q] (Fin q)). split; [| split; reflexivity].
    destruct (scale_spec [q] ltac:(discriminate))
      as (mx & r & Emax & _ & Er & Hr & _ & Hflat).
    assert (Hhalf : (mx + - q) / r == 1 # 2).
    { apply Hflat; [| now left].
      intros a b [<- | []] [<- | []]. reflexivity. }
    unfold yAt. change (map Fin [q]) with [Fin q] in *. rewrite Emax, Er.
    unfold JSNum.sub, JSNum.neg, JSNum.add, JSNum.div.
    rewrite (Qeq_bool_false r 0) by lra.
    unfold JSNum.mul, num_eq. rewrite Hhalf. reflexivity.
  - intros Hn HW x y Hin.
    assert (Hx : forall i p, map priceOf data !! i = Some p ->
                             between (left padding)
                                     (left padding + chartWidth width padding)
                                     (xAt width (map priceOf data) i)).
    { intros i p Hi. apply lookup_lt_Some in Hi.
      unfold xAt. set (n := List.length (map priceOf data)) in *.
      assert (Hn' : (2 <= n)%nat) by (subst n; rewrite length_map; exact Hn).
      destruct (index_ratio i n Hi Hn') as [Hd Ht].
      unfold JSNum.sub, JSNum.neg, JSNum.add, JSNum.div.
      rewrite (Qeq_bool_false _ 0 Hd).
      unfold JSNum.mul, between.
      pose proof (scale_bounds _ _ Ht HW). lra. }
    assert (Hprices : map priceOf data <> []).
    { destruct data; [simpl in Hn; lia | discriminate]. }
    unfold coords in Hin. rewrite flat_map_app in Hin.
    apply in_app_or in Hin. destruct Hin as [Hin | Hin].
    + destruct (fill_coords _ _ _ _ _ _ Hin)
        as [(i & p & Hi & -> & _) | ([-> | ->] & _)].
      * eapply Hx; eauto.
      * simpl. lra.
      * simpl. lra.
    + destruct (line_coords _ _ _ _ _ _ Hprices Hin)
        as [(i & p & Hi & -> & _) | (-> & _)].
      * eapply Hx; eauto.
      * simpl. lra.
Qed.

Lemma intraday_x_coordinates_witness :
  linePath 220 120 [Fin 10] "#06d6a0"
  = [c_beginPath; c_moveTo NaN (yAt 120 [Fin 10] (Fin 10));
     c_stroke "#06d6a0" 2]
  /\ exists y, y =n= Fin (20 + (1 # 2) * 90)
               /\ dot 220 120 [Fin 10] "#06d6a0"
                  = [c_beginPath; c_arc (Fin (10 + 200)) y 4;
                     c_fill "#06d6a0"; c_stroke "#fff" 2].
Proof.
  pose proof (intraday_x_coordinates 220 120 [bare 10] "#06d6a0") as H.
  cbv zeta in H.
  assert (Hp : priced [bare 10]) by (intros d [<- | []]; exact I).
  destruct (H Hp) as [Hone _].
  destruct (Hone eq_refl) as (y & Hy & Hline & Hdot).
  split; [reflexivity |].
  exists y. split; [exact Hy | exact Hdot].
Defined.

Lemma chain_finite (a b : option Q) :
  exists q, orNum (or (get a) (get b)) (Fin 0) = Fin q.
Proof.
  destruct a as [x |], b as [y |]; unfold orNum, or; simpl;
    repeat match goal with
           | |- context [Qeq_bool ?u 0] => destruct (Qeq_bool u 0); simpl
           end;
    eexists; reflexivity.
Qed.

Lemma stroke_in_imap (A : Type) (f : nat -> A -> ICmd) (l : list A)
      (c : string) (w : Q) :
  (forall i a, f i a <> c_stroke c w) -> ~ In (c_stroke c w) (imap f l).
Proof.
  intros Hf Hin. apply list_elem_of_In in Hin.
  apply elem_of_lookup_imap in Hin. destruct Hin as (i & a & E & _).
  exact (Hf i a (eq_sym E)).
Qed.


End IntradayChartFacts.
